(** * Fault-tolerance patterns of the Order Service (Lab4/FaultTolerance)

    A shallow embedding of the four resilience components of the
    repository -- [RateLimiter] (patterns/rateLimiter.js), [CircuitBreaker]
    (patterns/circuitBreaker.js), [RetryPattern] (patterns/retry.js) and
    [Bulkhead] (patterns/bulkhead.js) -- followed by the properties the
    specification states about them.

    Conventions of the embedding.
    - JavaScript numbers that the components count with or compare
      (counters, thresholds, millisecond timestamps and delays) are
      modelled as [Z]; fractional configuration values are outside the
      model.
    - Every read of the wall clock ([Date.now()], [new Date()]) is a
      parameter of the function that performs it.
    - The guarded operation [fn] is an opaque effectful computation: a
      function from the state of the outside world to its outcome and the
      next state of the world.
    - [console.log] calls are not modelled. *)

From Stdlib Require Import ZArith String List Sorted Lia Bool.
Import ListNotations.
Open Scope Z_scope.

(* ===================================================================== *)
(** ** JavaScript values shared by the four components                   *)
(* ===================================================================== *)

Module Js.

(** An [Error] object with the [code] property the patterns attach to
    their own rejections; [None] is an error without a [code]. *)
Record Error : Type := mkError {
  message : string;
  code : option string
}.

(** Settlement of the promise returned by an async function.  A promise
    can be rejected with any value: [Rejected e] is a rejection with an
    object, of which the patterns read [message] and [code] only;
    [RejectedNullish] is a rejection with [undefined] or [null], as
    [Promise.reject()] gives. *)
Inductive Outcome (T : Type) : Type :=
| Resolved (v : T)
| Rejected (e : Error)
| RejectedNullish.
Arguments Resolved {T} v.
Arguments Rejected {T} e.
Arguments RejectedNullish {T}.

(** The [TypeError] a [catch (error)] block raises when it reads
    [error.message] of a caught [undefined] or [null]. *)
Definition undefinedMessageError : Error :=
  {| message := "Cannot read properties of undefined (reading 'message')";
     code := None |}.

(** The guarded operation, over the world state [W]. *)
Definition Operation (W T : Type) : Type := W -> Outcome T * W.

(** [options.field || dflt] for a numeric option: a missing field
    ([None], i.e. [undefined]) and the falsy number [0] both select the
    default. *)
Definition or_default (v : option Z) (dflt : Z) : Z :=
  match v with
  | None => dflt
  | Some 0 => dflt
  | Some x => x
  end.

(** [options.name || dflt] for a string option: [undefined] and the
    empty string are falsy. *)
Definition or_default_str (v : option string) (dflt : string) : string :=
  match v with
  | None => dflt
  | Some EmptyString => dflt
  | Some s => s
  end.

(** [array.length] as a number. *)
Definition len {A : Type} (l : list A) : Z := Z.of_nat (List.length l).

End Js.

(* ===================================================================== *)
(** ** RateLimiter (sliding window)                                      *)
(* ===================================================================== *)

Module RateLimiter.
Import Js.

Record Options : Type := mkOptions {
  opt_maxRequests : option Z;
  opt_windowMs : option Z
}.

Definition no_options : Options := mkOptions None None.

Record Stats : Type := mkStats {
  totalRequests : Z;
  allowedRequests : Z;
  rejectedRequests : Z
}.

Record t : Type := mk {
  maxRequests : Z;
  windowMs : Z;
  requests : list Z;
  stats : Stats
}.

(** [constructor(options = {})] *)
Definition new (options : Options) : t :=
  {| maxRequests := or_default (opt_maxRequests options) 10;
     windowMs := or_default (opt_windowMs options) 60000;
     requests := [];
     stats := mkStats 0 0 0 |}.

(** [cleanupOldRequests(now)]: keeps the timestamps with
    [timestamp > now - windowMs]. *)
Definition cleanupOldRequests (now : Z) (rl : t) : t :=
  let windowStart := now - windowMs rl in
  {| maxRequests := maxRequests rl;
     windowMs := windowMs rl;
     requests := filter (fun timestamp => windowStart <? timestamp) (requests rl);
     stats := stats rl |}.

Definition bump_total (s : Stats) : Stats :=
  mkStats (totalRequests s + 1) (allowedRequests s) (rejectedRequests s).
Definition bump_allowed (s : Stats) : Stats :=
  mkStats (totalRequests s) (allowedRequests s + 1) (rejectedRequests s).
Definition bump_rejected (s : Stats) : Stats :=
  mkStats (totalRequests s) (allowedRequests s) (rejectedRequests s + 1).

Definition with_stats (f : Stats -> Stats) (rl : t) : t :=
  {| maxRequests := maxRequests rl;
     windowMs := windowMs rl;
     requests := requests rl;
     stats := f (stats rl) |}.

Definition push (now : Z) (rl : t) : t :=
  {| maxRequests := maxRequests rl;
     windowMs := windowMs rl;
     requests := requests rl ++ [now];
     stats := stats rl |}.

(** [tryAcquire()], with [now] the value of [Date.now()]. *)
Definition tryAcquire (now : Z) (rl : t) : bool * t :=
  let rl1 := with_stats bump_total rl in
  let rl2 := cleanupOldRequests now rl1 in
  if maxRequests rl2 <=? len (requests rl2)
  then (false, with_stats bump_rejected rl2)
  else (true, with_stats bump_allowed (push now rl2)).

(** [reset()] *)
Definition reset (rl : t) : t :=
  {| maxRequests := maxRequests rl;
     windowMs := windowMs rl;
     requests := [];
     stats := stats rl |}.

(** A sequence of [tryAcquire] calls at the given clock readings; the
    answers are returned in call order. *)
Fixpoint acquireAll (times : list Z) (rl : t) : list bool * t :=
  match times with
  | [] => ([], rl)
  | now :: rest =>
      let '(ok, rl1) := tryAcquire now rl in
      let '(oks, rl2) := acquireAll rest rl1 in
      (ok :: oks, rl2)
  end.

(** What a client of the limiter does to it. *)
Inductive Action : Type :=
| TryAcquire (now : Z)
| Reset.

Definition step (rl : t) (a : Action) : t :=
  match a with
  | TryAcquire now => snd (tryAcquire now rl)
  | Reset => reset rl
  end.

Definition run (acts : list Action) (rl : t) : t := fold_left step acts rl.

(** Two limiters that differ at most in their statistics. *)
Definition same_admission_state (a b : t) : Prop :=
  maxRequests a = maxRequests b /\
  windowMs a = windowMs b /\
  requests a = requests b.

(** *** Notions and scenarios the properties of this component use *)

(** The timestamps [tryAcquire] keeps at clock [now]. *)
Definition kept (now : Z) (rl : t) : list Z :=
  filter (fun ts => now - windowMs rl <? ts) (requests rl).

End RateLimiter.

(* ===================================================================== *)
(** ** CircuitBreaker (three-state machine)                              *)
(* ===================================================================== *)

Module CircuitBreaker.
Import Js.

(** [CircuitBreaker.STATES] *)
Inductive State : Type := CLOSED | OPEN | HALF_OPEN.

Record Options : Type := mkOptions {
  opt_failureThreshold : option Z;
  opt_resetTimeout : option Z;
  opt_halfOpenRequests : option Z
}.

Definition no_options : Options := mkOptions None None None.

(** An entry of [stats.stateChanges]; the ISO timestamp is kept as the
    clock reading it is printed from. *)
Record StateChange : Type := mkStateChange {
  from : State;
  to : State;
  timestamp : Z
}.

Record Stats : Type := mkStats {
  totalRequests : Z;
  successfulRequests : Z;
  failedRequests : Z;
  rejectedRequests : Z;
  stateChanges : list StateChange
}.

Record t : Type := mk {
  failureThreshold : Z;
  resetTimeout : Z;
  halfOpenRequests : Z;
  state : State;
  failureCount : Z;
  successCount : Z;
  lastFailureTime : option Z;   (* [None] is [null] *)
  halfOpenAttempts : Z;
  stats : Stats
}.

(** [constructor(options = {})] *)
Definition new (options : Options) : t :=
  {| failureThreshold := or_default (opt_failureThreshold options) 5;
     resetTimeout := or_default (opt_resetTimeout options) 30000;
     halfOpenRequests := or_default (opt_halfOpenRequests options) 3;
     state := CLOSED;
     failureCount := 0;
     successCount := 0;
     lastFailureTime := None;
     halfOpenAttempts := 0;
     stats := mkStats 0 0 0 0 [] |}.

(** Field assignments. *)
Definition set_state (s : State) (cb : t) : t :=
  mk (failureThreshold cb) (resetTimeout cb) (halfOpenRequests cb)
     s (failureCount cb) (successCount cb) (lastFailureTime cb)
     (halfOpenAttempts cb) (stats cb).
Definition set_failureCount (n : Z) (cb : t) : t :=
  mk (failureThreshold cb) (resetTimeout cb) (halfOpenRequests cb)
     (state cb) n (successCount cb) (lastFailureTime cb)
     (halfOpenAttempts cb) (stats cb).
Definition set_successCount (n : Z) (cb : t) : t :=
  mk (failureThreshold cb) (resetTimeout cb) (halfOpenRequests cb)
     (state cb) (failureCount cb) n (lastFailureTime cb)
     (halfOpenAttempts cb) (stats cb).
Definition set_lastFailureTime (n : option Z) (cb : t) : t :=
  mk (failureThreshold cb) (resetTimeout cb) (halfOpenRequests cb)
     (state cb) (failureCount cb) (successCount cb) n
     (halfOpenAttempts cb) (stats cb).
Definition set_halfOpenAttempts (n : Z) (cb : t) : t :=
  mk (failureThreshold cb) (resetTimeout cb) (halfOpenRequests cb)
     (state cb) (failureCount cb) (successCount cb) (lastFailureTime cb)
     n (stats cb).
Definition with_stats (f : Stats -> Stats) (cb : t) : t :=
  mk (failureThreshold cb) (resetTimeout cb) (halfOpenRequests cb)
     (state cb) (failureCount cb) (successCount cb) (lastFailureTime cb)
     (halfOpenAttempts cb) (f (stats cb)).

Definition bump_total (s : Stats) : Stats :=
  mkStats (totalRequests s + 1) (successfulRequests s) (failedRequests s)
          (rejectedRequests s) (stateChanges s).
Definition bump_successful (s : Stats) : Stats :=
  mkStats (totalRequests s) (successfulRequests s + 1) (failedRequests s)
          (rejectedRequests s) (stateChanges s).
Definition bump_failed (s : Stats) : Stats :=
  mkStats (totalRequests s) (successfulRequests s) (failedRequests s + 1)
          (rejectedRequests s) (stateChanges s).
Definition bump_rejected (s : Stats) : Stats :=
  mkStats (totalRequests s) (successfulRequests s) (failedRequests s)
          (rejectedRequests s + 1) (stateChanges s).
Definition push_change (c : StateChange) (s : Stats) : Stats :=
  mkStats (totalRequests s) (successfulRequests s) (failedRequests s)
          (rejectedRequests s) (stateChanges s ++ [c]).

(** [changeState(newState)]: assigns the state and appends to the
    history; no counter is touched. *)
Definition changeState (newState : State) (now : Z) (cb : t) : t :=
  let oldState := state cb in
  with_stats (push_change (mkStateChange oldState newState now))
             (set_state newState cb).

(** [resetCounts()] *)
Definition resetCounts (cb : t) : t :=
  set_halfOpenAttempts 0 (set_successCount 0 (set_failureCount 0 cb)).

(** [Date.now() - this.lastFailureTime]; [null] converts to [0]. *)
Definition timeSinceLastFailure (now : Z) (cb : t) : Z :=
  now - match lastFailureTime cb with Some t0 => t0 | None => 0 end.

(** [evaluateState()] *)
Definition evaluateState (now : Z) (cb : t) : t :=
  match state cb with
  | OPEN =>
      if resetTimeout cb <=? timeSinceLastFailure now cb
      then set_halfOpenAttempts 0 (changeState HALF_OPEN now cb)
      else cb
  | _ => cb
  end.

(** [onSuccess()] *)
Definition onSuccess (now : Z) (cb : t) : t :=
  match state cb with
  | HALF_OPEN =>
      let cb1 := set_successCount (successCount cb + 1) cb in
      let cb2 := set_halfOpenAttempts (halfOpenAttempts cb1 + 1) cb1 in
      if halfOpenRequests cb2 <=? successCount cb2
      then resetCounts (changeState CLOSED now cb2)
      else cb2
  | _ => set_failureCount 0 cb
  end.

(** [onFailure()] *)
Definition onFailure (now : Z) (cb : t) : t :=
  let cb1 := set_failureCount (failureCount cb + 1) cb in
  let cb2 := set_lastFailureTime (Some now) cb1 in
  match state cb2 with
  | HALF_OPEN => changeState OPEN now cb2
  | _ =>
      if failureThreshold cb2 <=? failureCount cb2
      then changeState OPEN now cb2
      else cb2
  end.

(** The error thrown while the circuit is open. *)
Definition circuitOpenError (operationName : string) : Error :=
  {| message := "Circuit Breaker OPEN - " ++ operationName ++ " bị từ chối";
     code := Some "CIRCUIT_OPEN"%string |}.

(** [execute(fn, operationName)] up to its [await fn()], at clock
    [now]: the error thrown while the circuit is open, or [None] when the
    operation is invoked and the call suspended. *)
Definition enter (operationName : string) (now : Z) (cb : t)
  : option Error * t :=
  let cb1 := with_stats bump_total cb in
  let cb2 := evaluateState now cb1 in
  match state cb2 with
  | OPEN => (Some (circuitOpenError operationName),
             with_stats bump_rejected cb2)
  | _ => (None, cb2)
  end.

(** What [execute] does to the breaker when it resumes after
    [await fn()], at clock [now']: [onSuccess()] or [onFailure()] and the
    counter of the outcome.  The breaker is the one found at that moment,
    whatever happened to it while the call was suspended. *)
Definition settled (ok : bool) (now' : Z) (cb : t) : t :=
  if ok then with_stats bump_successful (onSuccess now' cb)
  else with_stats bump_failed (onFailure now' cb).

(** [execute] from the settlement of [fn()] on: the settlement of the
    call, and the breaker.  The log line of the [catch] block reads
    [error.message] after the counters are updated, so a rejection with
    [undefined] or [null] is replaced by a [TypeError]. *)
Definition settle {T : Type} (o : Outcome T) (now' : Z) (cb : t)
  : Outcome T * t :=
  match o with
  | Resolved result => (Resolved result, settled true now' cb)
  | Rejected error => (Rejected error, settled false now' cb)
  | RejectedNullish => (Rejected undefinedMessageError, settled false now' cb)
  end.

(** A breaker shared by the calls of the event loop: [pending] counts
    the calls suspended in [await fn()]. *)
Record Shared : Type := mkShared {
  breaker : t;
  pending : nat
}.

(** The turns of the event loop that touch the breaker.  Calls overlap:
    between the entry of a call and the settlement of its operation other
    calls enter and settle, and [reset()] may run. *)
Inductive Tick : Type :=
| Enters (operationName : string) (now : Z)   (* [execute] up to [await fn()] *)
| Settles (ok : bool) (now' : Z)              (* the operation of a pending call settles *)
| Resets.                                     (* [reset()] *)

(** [reset()] *)
Definition reset (cb : t) : t := resetCounts (set_state CLOSED cb).

(** One turn.  Nothing settles while no call is pending. *)
Definition tick (s : Shared) (e : Tick) : Shared :=
  match e with
  | Enters operationName now =>
      match enter operationName now (breaker s) with
      | (Some _, cb') => mkShared cb' (pending s)
      | (None, cb') => mkShared cb' (S (pending s))
      end
  | Settles ok now' =>
      match pending s with
      | O => s
      | S others => mkShared (settled ok now' (breaker s)) others
      end
  | Resets => mkShared (reset (breaker s)) (pending s)
  end.

Definition ticks (es : list Tick) (s : Shared) : Shared := fold_left tick es s.

(** A breaker as the constructor leaves it, with no call pending. *)
Definition start (options : Options) : Shared := mkShared (new options) 0.

(** States a breaker built by the constructor can be driven into by
    calls that may overlap, and resets. *)
Definition reachable (cb : t) : Prop :=
  exists options es, cb = breaker (ticks es (start options)).

Section Execute.
Context {W T : Type}.

(** [execute(fn, operationName)] of a call whose operation settles
    before any other turn touches the breaker: [enter] at clock [now],
    then [fn], then [settle] at clock [now']. *)
Definition execute (fn : Operation W T) (operationName : string)
           (now now' : Z) (w : W) (cb : t) : Outcome T * t * W :=
  match enter operationName now cb with
  | (Some error, cb') => (Rejected error, cb', w)
  | (None, cb') =>
      let '(o, w') := fn w in
      let '(result, cb'') := settle o now' cb' in
      (result, cb'', w')
  end.

(** What the owner of a breaker does to it: guarded calls, each
    settled before the next one starts, and the forced reset. *)
Inductive Action : Type :=
| Call (fn : Operation W T) (operationName : string) (now now' : Z)
| Reset.

Definition step (s : t * W) (a : Action) : t * W :=
  match a with
  | Call fn operationName now now' =>
      let '(_, cb', w') := execute fn operationName now now' (snd s) (fst s) in
      (cb', w')
  | Reset => (reset (fst s), snd s)
  end.

Definition run (acts : list Action) (s : t * W) : t * W :=
  fold_left step acts s.

(** States a breaker built by the constructor can be driven into by
    calls made one after another, and resets. *)
Definition reachable_in_sequence (cb : t) : Prop :=
  exists options acts w, cb = fst (run acts (new options, w)).

(** The outcomes of a sequence of guarded calls, in call order. *)
Fixpoint outcomes (acts : list Action) (s : t * W) : list (option (Outcome T)) :=
  match acts with
  | [] => []
  | a :: rest =>
      match a with
      | Call fn operationName now now' =>
          Some (fst (fst (execute fn operationName now now' (snd s) (fst s))))
      | Reset => None
      end :: outcomes rest (step s a)
  end.

(** An operation that rejects with an object whenever it is invoked. *)
Definition always_fails (fn : Operation W T) : Prop :=
  forall w, exists e w', fn w = (Rejected e, w').

Definition failing_call (a : Action) : Prop :=
  match a with
  | Call fn _ _ _ => always_fails fn
  | Reset => False
  end.

End Execute.

Arguments Action : clear implicits.
Arguments reachable_in_sequence : clear implicits.

(** Two breakers that differ at most in their statistics, and in a
    stale [lastFailureTime] that is not consulted outside [OPEN]. *)
Definition same_gate_state (a b : t) : Prop :=
  failureThreshold a = failureThreshold b /\
  resetTimeout a = resetTimeout b /\
  halfOpenRequests a = halfOpenRequests b /\
  state a = state b /\
  failureCount a = failureCount b /\
  successCount a = successCount b /\
  halfOpenAttempts a = halfOpenAttempts b /\
  (state a = OPEN -> lastFailureTime a = lastFailureTime b).

(** *** Notions and scenarios the properties of this component use *)

(** Probes of a dependency; the world counts the invocations. *)
Definition probe_error : Error := mkError "connect ECONNREFUSED" None.
Definition probe_fails : Operation nat unit :=
  fun invocations => (Rejected probe_error, S invocations).
Definition probe_succeeds : Operation nat unit :=
  fun invocations => (Resolved tt, S invocations).

(** What the code maintains about its two counters when calls are made
    one after another: the success counter is zero whenever the circuit
    is closed, and the failure counter is positive whenever it is not. *)
Definition counters_inv (cb : t) : Prop :=
  0 <= failureCount cb /\
  (state cb = CLOSED -> successCount cb = 0 /\ halfOpenAttempts cb = 0) /\
  (state cb <> CLOSED -> 0 < failureCount cb).

(** What the code maintains about its counters however the calls
    overlap: the failure counter is never negative, and the success
    counter is zero whenever the circuit is closed. *)
Definition closed_inv (cb : t) : Prop :=
  0 <= failureCount cb /\
  (state cb = CLOSED -> successCount cb = 0 /\ halfOpenAttempts cb = 0).

(** Whether a settlement is a success. *)
Definition resolved {T : Type} (o : Outcome T) : bool :=
  match o with
  | Resolved _ => true
  | _ => false
  end.

(** The turns of a call that nothing overlaps. *)
Definition alone {W T : Type} (a : Action W T) (cb : t) (w : W) : list Tick :=
  match a with
  | Call fn operationName now now' =>
      match enter operationName now cb with
      | (Some _, _) => [Enters operationName now]
      | (None, _) =>
          [Enters operationName now; Settles (resolved (fst (fn w))) now']
      end
  | Reset => [Resets]
  end.

(** What the callers of overlapping calls learn from the breaker at
    their entry: the error it throws, if any. *)
Fixpoint admissions (es : list Tick) (s : Shared) : list (option Error) :=
  match es with
  | [] => []
  | e :: rest =>
      match e with
      | Enters operationName now =>
          [fst (enter operationName now (breaker s))]
      | _ => []
      end ++ admissions rest (tick s e)
  end.

(** Five failures, one call after another, open a default breaker at
    clock 1200. *)
Definition five_failing_calls : list Tick :=
  [Enters "GetProduct-1" 1000; Settles false 1200;
   Enters "GetProduct-1" 1000; Settles false 1200;
   Enters "GetProduct-1" 1000; Settles false 1200;
   Enters "GetProduct-1" 1000; Settles false 1200;
   Enters "GetProduct-1" 1000; Settles false 1200].

(** Two probes that overlap: both are let through thirty seconds after
    the circuit opened, the second fails first and re-opens the circuit,
    then the first succeeds. *)
Definition overlapping_probes : list Tick :=
  five_failing_calls
    ++ [Enters "GetProduct-A" 31200; Enters "GetProduct-B" 31250;
        Settles false 31300; Settles true 31400].

(** A call is still pending when [reset()] runs; it fails afterwards. *)
Definition pending_across_reset : list Tick :=
  [Enters "GetProduct-1" 1000; Resets].
Definition late_failure_then_four : list Tick :=
  [Settles false 1200;
   Enters "GetProduct-2" 1300; Settles false 1400;
   Enters "GetProduct-3" 1500; Settles false 1600;
   Enters "GetProduct-4" 1700; Settles false 1800;
   Enters "GetProduct-5" 1900; Settles false 2000].

(** Five failures open a default breaker at clock 1200; the success of
    the probe admitted thirty seconds later is counted next to them. *)
Definition five_failures : list (Action nat unit) :=
  repeat (Call probe_fails "GetProduct-1" 1000 1200) 5.

Definition probing : t :=
  fst (run (five_failures ++ [Call probe_succeeds "GetProduct-1" 31200 31300])
           (new no_options, 0%nat)).

(** A default breaker that opened at 1200, let two probes succeed from
    31200 on, and re-opened on the failure of the third at 31700. *)
Definition reopened : t * nat :=
  run (five_failures
         ++ [Call probe_succeeds "GetProduct-1" 31200 31300;
             Call probe_succeeds "GetProduct-2" 31400 31500;
             Call probe_fails "GetProduct-3" 31600 31700])
      (new no_options, 0%nat).

End CircuitBreaker.

(* ===================================================================== *)
(** ** RetryPattern (bounded retry with exponential backoff)             *)
(* ===================================================================== *)

Module RetryPattern.
Import Js.

Record Options : Type := mkOptions {
  opt_maxRetries : option Z;
  opt_delay : option Z;
  opt_backoffMultiplier : option Z;
  opt_maxDelay : option Z
}.

Definition no_options : Options := mkOptions None None None None.

Record Stats : Type := mkStats {
  totalAttempts : Z;
  successfulRetries : Z;
  failedAfterRetries : Z
}.

Record t : Type := mk {
  maxRetries : Z;
  delay : Z;
  backoffMultiplier : Z;
  maxDelay : Z;
  stats : Stats
}.

(** [constructor(options = {})] *)
Definition new (options : Options) : t :=
  {| maxRetries := or_default (opt_maxRetries options) 3;
     delay := or_default (opt_delay options) 1000;
     backoffMultiplier := or_default (opt_backoffMultiplier options) 2;
     maxDelay := or_default (opt_maxDelay options) 10000;
     stats := mkStats 0 0 0 |}.

Definition with_stats (f : Stats -> Stats) (p : t) : t :=
  mk (maxRetries p) (delay p) (backoffMultiplier p) (maxDelay p) (f (stats p)).

Definition bump_totalAttempts (s : Stats) : Stats :=
  mkStats (totalAttempts s + 1) (successfulRetries s) (failedAfterRetries s).
Definition bump_successfulRetries (s : Stats) : Stats :=
  mkStats (totalAttempts s) (successfulRetries s + 1) (failedAfterRetries s).
Definition bump_failedAfterRetries (s : Stats) : Stats :=
  mkStats (totalAttempts s) (successfulRetries s) (failedAfterRetries s + 1).

Section Execute.
Context {W T : Type}.

(** What happens to the world while the caller is suspended in
    [this.sleep(ms)]. *)
Variable sleep : Z -> W -> W.

(** The effects of one [execute], in order. *)
Inductive Event : Type :=
| Called (o : Outcome T)   (* [await fn()] and how it settled *)
| Slept (ms : Z).          (* [await this.sleep(ms)] *)

(** How [execute] ends: [return result], [throw error], the
    [TypeError] that leaves the [catch] block when the caught value is
    [undefined] or [null], or the [throw lastError] after the loop, whose
    operand is [undefined] ([None]) when no attempt was made. *)
Inductive Completion : Type :=
| Return (result : T)
| Throw (error : option Error).

Record Run : Type := mkRun {
  completion : Completion;
  policy : t;
  world : W;
  trace : list Event
}.

Definition after (evs : list Event) (r : Run) : Run :=
  mkRun (completion r) (policy r) (world r) (evs ++ trace r).

(** The [for] loop of [execute], from the test of its condition with
    the loop variables [attempt], [currentDelay] and [lastError].
    [fuel] bounds the number of iterations; [None] is fuel running
    out. *)
Fixpoint attempts (fn : Operation W T) (fuel : nat)
         (attempt currentDelay : Z) (lastError : option Error)
         (w : W) (p : t) : option Run :=
  if attempt <=? maxRetries p + 1 then
    match fuel with
    | O => None
    | S fuel' =>
        let p1 := with_stats bump_totalAttempts p in
        match fn w with
        | (Resolved result, w1) =>
            let p2 := if 1 <? attempt
                      then with_stats bump_successfulRetries p1
                      else p1 in
            Some (mkRun (Return result) p2 w1 [Called (Resolved result)])
        | (Rejected error, w1) =>
            if maxRetries p1 <? attempt then
              Some (mkRun (Throw (Some error))
                          (with_stats bump_failedAfterRetries p1) w1
                          [Called (Rejected error)])
            else
              let w2 := sleep currentDelay w1 in
              let currentDelay' :=
                Z.min (currentDelay * backoffMultiplier p1) (maxDelay p1) in
              option_map (after [Called (Rejected error); Slept currentDelay])
                         (attempts fn fuel' (attempt + 1) currentDelay'
                                   (Some error) w2 p1)
        | (RejectedNullish, w1) =>
            (* the log line of the [catch] block reads [error.message]
               before the test of [attempt > this.maxRetries] *)
            Some (mkRun (Throw (Some undefinedMessageError)) p1 w1
                        [Called RejectedNullish])
        end
    end
  else Some (mkRun (Throw lastError) p w []).

(** [execute(fn, operationName)]: the loop runs at most
    [maxRetries + 1] times. *)
Definition execute (fn : Operation W T) (w : W) (p : t) : option Run :=
  attempts fn (Z.to_nat (maxRetries p + 1)) 1 (delay p) None w p.

(** Projections of a trace. *)
Definition calls (tr : list Event) : list (Outcome T) :=
  flat_map (fun ev => match ev with Called o => [o] | Slept _ => [] end) tr.
Definition sleeps (tr : list Event) : list Z :=
  flat_map (fun ev => match ev with Called _ => [] | Slept ms => [ms] end) tr.

(** An operation that rejects with an object whenever it is invoked. *)
Definition always_fails (fn : Operation W T) : Prop :=
  forall w, exists e w', fn w = (Rejected e, w').

End Execute.

Arguments Event : clear implicits.
Arguments Completion : clear implicits.
Arguments Run : clear implicits.

(** The delay slept before retry attempt [n + 1], as [execute] computes
    it: [delay] itself for [n = 1], the capped product afterwards. *)
Definition delay_before_retry (p : t) (n : Z) : Z :=
  if n =? 1 then delay p
  else Z.min (delay p * backoffMultiplier p ^ (n - 1)) (maxDelay p).

(** The closed form of the specification, capped from the first delay
    on. *)
Definition capped_backoff (p : t) (n : Z) : Z :=
  Z.min (delay p * backoffMultiplier p ^ (n - 1)) (maxDelay p).

(** *** Notions and scenarios the properties of this component use *)

(** The recurrence of the loop variable [currentDelay]: its value [i]
    iterations after it was [d]. *)
Fixpoint backoff (multiplier cap d : Z) (i : nat) : Z :=
  match i with
  | O => d
  | S i' => backoff multiplier cap (Z.min (d * multiplier) cap) i'
  end.

(** The retry rounds of a trace: a failed attempt, then the sleep that
    follows it. *)
Fixpoint rounds {T : Type} (errors : list Error) (delays : list Z)
  : list (Event T) :=
  match errors, delays with
  | e :: errors', d :: delays' =>
      Called (Rejected e) :: Slept d :: rounds errors' delays'
  | _, _ => []
  end.

(** A probe against a dependency that is down, and one against a
    dependency that recovers on the third invocation; the world counts
    the invocations. *)
Definition down_error : Error := mkError "connect ECONNREFUSED" None.
Definition down : Operation nat string :=
  fun invocations => (Rejected down_error, S invocations).
Definition recovers : Operation nat string :=
  fun invocations =>
    (if (invocations <? 2)%nat then Rejected down_error
     else Resolved "product"%string,
     S invocations).
Definition no_sleep_effect : Z -> nat -> nat := fun _ invocations => invocations.

(** An operation that rejects with [undefined] whenever it is invoked,
    as [() => Promise.reject()] does. *)
Definition rejects_undefined : Operation nat string :=
  fun invocations => (RejectedNullish, S invocations).

(** The run of [execute] against [recovers] under the default policy. *)
Definition recovered_rounds : list (Event string) :=
  [Called (Rejected down_error); Slept 1000;
   Called (Rejected down_error); Slept 2000].
Definition recovered_run : Run nat string :=
  mkRun (Return "product"%string) (mk 3 1000 2 10000 (mkStats 3 1 0)) 3%nat
        (recovered_rounds ++ [Called (Resolved "product"%string)]).

(** A policy whose first delay is above the cap, against a dependency
    that is down. *)
Definition slow_start : t := new (mkOptions None (Some 20000) None None).

(** [slow_start] against the dependency that is down: three sleeps, of
    20000, 10000 and 10000 ms. *)
Definition slow_start_run : Run nat string :=
  mkRun (Throw (Some down_error))
        (mk 3 20000 2 10000 (mkStats 4 0 1)) 4%nat
        [Called (Rejected down_error); Slept 20000;
         Called (Rejected down_error); Slept 10000;
         Called (Rejected down_error); Slept 10000;
         Called (Rejected down_error)].

End RetryPattern.

(* ===================================================================== *)
(** ** Bulkhead (concurrency cap with a bounded, timed wait queue)       *)
(* ===================================================================== *)

Module Bulkhead.
Import Js.

Record Options : Type := mkOptions {
  opt_name : option string;
  opt_maxConcurrent : option Z;
  opt_maxWait : option Z;
  opt_queueSize : option Z
}.

Definition no_options : Options := mkOptions None None None None.

Record Stats : Type := mkStats {
  totalRequests : Z;
  successfulRequests : Z;
  rejectedRequests : Z;
  queuedRequests : Z;
  maxConcurrentReached : Z
}.

(** A queued [request] object.  [rid] is the identity of the object (what
    [indexOf] compares) and of the call it stands for: its [fn],
    [resolve] and [reject] belong to call [rid], and its [timeout]
    handle is the timer registered for [rid]. *)
Record Request : Type := mkRequest {
  rid : nat;
  operationName : string;
  timestamp : Z
}.

Record t : Type := mk {
  name : string;
  maxConcurrent : Z;
  maxWait : Z;
  queueSize : Z;
  currentConcurrent : Z;
  queue : list Request;
  stats : Stats
}.

(** [constructor(options = {})] *)
Definition new (options : Options) : t :=
  {| name := or_default_str (opt_name options) "default";
     maxConcurrent := or_default (opt_maxConcurrent options) 10;
     maxWait := or_default (opt_maxWait options) 5000;
     queueSize := or_default (opt_queueSize options) 20;
     currentConcurrent := 0;
     queue := [];
     stats := mkStats 0 0 0 0 0 |}.

Definition set_currentConcurrent (n : Z) (b : t) : t :=
  mk (name b) (maxConcurrent b) (maxWait b) (queueSize b) n (queue b) (stats b).
Definition set_queue (q : list Request) (b : t) : t :=
  mk (name b) (maxConcurrent b) (maxWait b) (queueSize b)
     (currentConcurrent b) q (stats b).
Definition with_stats (f : Stats -> Stats) (b : t) : t :=
  mk (name b) (maxConcurrent b) (maxWait b) (queueSize b)
     (currentConcurrent b) (queue b) (f (stats b)).

Definition bump_total (s : Stats) : Stats :=
  mkStats (totalRequests s + 1) (successfulRequests s) (rejectedRequests s)
          (queuedRequests s) (maxConcurrentReached s).
Definition bump_successful (s : Stats) : Stats :=
  mkStats (totalRequests s) (successfulRequests s + 1) (rejectedRequests s)
          (queuedRequests s) (maxConcurrentReached s).
Definition bump_rejected (s : Stats) : Stats :=
  mkStats (totalRequests s) (successfulRequests s) (rejectedRequests s + 1)
          (queuedRequests s) (maxConcurrentReached s).
Definition bump_queued (s : Stats) : Stats :=
  mkStats (totalRequests s) (successfulRequests s) (rejectedRequests s)
          (queuedRequests s + 1) (maxConcurrentReached s).
Definition bump_maxReached (s : Stats) : Stats :=
  mkStats (totalRequests s) (successfulRequests s) (rejectedRequests s)
          (queuedRequests s) (maxConcurrentReached s + 1).

Definition fullError (b : t) (opName : string) : Error :=
  {| message := "Bulkhead '" ++ name b ++ "' full - " ++ opName ++ " rejected";
     code := Some "BULKHEAD_FULL"%string |}.

Definition timeoutError (b : t) (opName : string) : Error :=
  {| message := "Bulkhead '" ++ name b ++ "' timeout - " ++ opName;
     code := Some "BULKHEAD_TIMEOUT"%string |}.

(** What the callers of [execute] observe, per call. *)
Inductive Notice : Type :=
| Invoked (call : nat)                 (* a slot was granted and [fn()] called *)
| Refused (call : nat) (e : Error)     (* the bulkhead rejected the call *)
| Settled (call : nat) (ok : bool).    (* the operation settled, and the call with it *)

(** A bulkhead inside the single-threaded event loop that runs it. *)
Record System : Type := mkSystem {
  bulkhead : t;
  timers : list (nat * Z);   (* armed [setTimeout]s: owning request, earliest firing time *)
  inflight : list nat;       (* operations invoked and not settled yet *)
  nextCall : nat;            (* identity of the next call of [execute] *)
  notices : list Notice
}.

Definition init (options : Options) : System :=
  mkSystem (new options) [] [] 0%nat [].

Definition on_bulkhead (f : t -> t) (s : System) : System :=
  mkSystem (f (bulkhead s)) (timers s) (inflight s) (nextCall s) (notices s).
Definition notify (n : Notice) (s : System) : System :=
  mkSystem (bulkhead s) (timers s) (inflight s) (nextCall s) (notices s ++ [n]).
Definition set_timers (ts : list (nat * Z)) (s : System) : System :=
  mkSystem (bulkhead s) ts (inflight s) (nextCall s) (notices s).
Definition set_inflight (l : list nat) (s : System) : System :=
  mkSystem (bulkhead s) (timers s) l (nextCall s) (notices s).

(** [clearTimeout(request.timeout)] *)
Definition clearTimeout (call : nat) (s : System) : System :=
  set_timers (filter (fun tm => negb (Nat.eqb (fst tm) call)) (timers s)) s.

(** [this.queue.indexOf(request)]; [None] is [-1]. *)
Fixpoint indexOf (call : nat) (q : list Request) : option nat :=
  match q with
  | [] => None
  | r :: rest =>
      if Nat.eqb (rid r) call then Some 0%nat
      else option_map S (indexOf call rest)
  end.

(** [this.queue.splice(index, 1)] *)
Fixpoint splice1 (index : nat) (q : list Request) : list Request :=
  match q, index with
  | [], _ => []
  | _ :: rest, O => rest
  | r :: rest, S i => r :: splice1 i rest
  end.

(** [executeWithSlot(fn, operationName)] up to its [await fn()]. *)
Definition executeWithSlot (call : nat) (s : System) : System :=
  let s1 := on_bulkhead
              (fun b => set_currentConcurrent (currentConcurrent b + 1) b) s in
  let s2 := if currentConcurrent (bulkhead s1) =? maxConcurrent (bulkhead s1)
            then on_bulkhead (with_stats bump_maxReached) s1
            else s1 in
  notify (Invoked call) (set_inflight (inflight s2 ++ [call]) s2).

(** [releaseSlot()] *)
Definition releaseSlot (s : System) : System :=
  let b := bulkhead s in
  if (0 <? len (queue b)) && (currentConcurrent b <? maxConcurrent b) then
    match queue b with
    | request :: rest =>
        let s1 := on_bulkhead (set_queue rest) s in
        let s2 := clearTimeout (rid request) s1 in
        executeWithSlot (rid request) s2
    | [] => s
    end
  else s.

(** [executeWithSlot] from the settlement of [fn()] on: the statistics
    of a success, then the [finally] block. *)
Definition finishWithSlot (call : nat) (ok : bool) (s : System) : System :=
  let s1 := if ok then on_bulkhead (with_stats bump_successful) s else s in
  let s2 := on_bulkhead
              (fun b => set_currentConcurrent (currentConcurrent b - 1) b) s1 in
  let s3 := releaseSlot s2 in
  notify (Settled call ok) s3.

(** [waitForSlot(fn, operationName)]: the executor of the promise. *)
Definition waitForSlot (call : nat) (opName : string) (now : Z)
           (s : System) : System :=
  let request := mkRequest call opName now in
  let s1 := on_bulkhead (fun b => set_queue (queue b ++ [request]) b) s in
  let s2 := on_bulkhead (with_stats bump_queued) s1 in
  set_timers (timers s2 ++ [(call, now + maxWait (bulkhead s2))]) s2.

(** The callback given to [setTimeout] in [waitForSlot]. *)
Definition onTimeout (call : nat) (opName : string) (s : System) : System :=
  match indexOf call (queue (bulkhead s)) with
  | Some index =>
      let s1 := on_bulkhead (fun b => set_queue (splice1 index (queue b)) b) s in
      let s2 := on_bulkhead (with_stats bump_rejected) s1 in
      notify (Refused call (timeoutError (bulkhead s2) opName)) s2
  | None => s
  end.

(** How a call of [execute] leaves its first synchronous turn. *)
Inductive Admission : Type :=
| Running (call : nat)
| Waiting (call : nat)
| Full (e : Error).

(** [execute(fn, operationName)] up to its first suspension. *)
Definition execute (opName : string) (now : Z) (s : System)
  : Admission * System :=
  let call := nextCall s in
  let s0 := mkSystem (bulkhead s) (timers s) (inflight s) (S call) (notices s) in
  let s1 := on_bulkhead (with_stats bump_total) s0 in
  let b := bulkhead s1 in
  if currentConcurrent b <? maxConcurrent b then
    (Running call, executeWithSlot call s1)
  else if queueSize b <=? len (queue b) then
    let s2 := on_bulkhead (with_stats bump_rejected) s1 in
    let error := fullError (bulkhead s2) opName in
    (Full error, notify (Refused call error) s2)
  else
    (Waiting call, waitForSlot call opName now s1).

(** [reset()] *)
Definition reset (s : System) : System :=
  let s1 := on_bulkhead (set_currentConcurrent 0) s in
  let s2 := fold_left (fun acc req => clearTimeout (rid req) acc)
                      (queue (bulkhead s1)) s1 in
  on_bulkhead (set_queue []) s2.

(** The turns of the event loop that touch the bulkhead. *)
Inductive Turn : Type :=
| Arrive (opName : string) (now : Z)   (* a caller invokes [execute] *)
| Settle (call : nat) (ok : bool)      (* an invoked operation settles *)
| TimerFires (call : nat) (now : Z)    (* the wait timer of a request is due *)
| Reset.

Definition opNameOf (call : nat) (q : list Request) : string :=
  match find (fun r => Nat.eqb (rid r) call) q with
  | Some r => operationName r
  | None => ""
  end.

Definition due (call : nat) (now : Z) (s : System) : bool :=
  existsb (fun tm => Nat.eqb (fst tm) call && (snd tm <=? now)) (timers s).

(** One turn.  A settlement of an operation that is not in flight, or a
    timer that is not armed or not yet due, cannot happen: such a turn
    leaves the system as it is. *)
Definition step (s : System) (turn : Turn) : System :=
  match turn with
  | Arrive opName now => snd (execute opName now s)
  | Settle call ok =>
      if existsb (Nat.eqb call) (inflight s) then
        finishWithSlot call ok
          (set_inflight (filter (fun c => negb (Nat.eqb c call)) (inflight s)) s)
      else s
  | TimerFires call now =>
      if due call now s then
        onTimeout call (opNameOf call (queue (bulkhead s)))
                  (clearTimeout call s)
      else s
  | Reset => reset s
  end.

Definition run (turns : list Turn) (s : System) : System :=
  fold_left step turns s.

(** The notices that decide the fate of a queued call. *)
Definition resolutions (call : nat) (ns : list Notice) : list Notice :=
  filter (fun n => match n with
                   | Invoked c => Nat.eqb c call
                   | Refused c _ => Nat.eqb c call
                   | Settled _ _ => false
                   end) ns.

Definition timed_out (call : nat) (ns : list Notice) : Prop :=
  exists e, In (Refused call e) ns /\ code e = Some "BULKHEAD_TIMEOUT"%string.

Definition granted (call : nat) (ns : list Notice) : Prop :=
  In (Invoked call) ns.

(** *** Notions and scenarios the properties of this component use *)

(** The test that keeps every request but the one of [call]. *)
Definition other_than (call : nat) (r : Request) : bool :=
  negb (Nat.eqb (rid r) call).

(** The timer [waitForSlot] arms for a request. *)
Definition timer_of (wait : Z) (r : Request) : nat * Z :=
  (rid r, timestamp r + wait).

(** The calls a list of notices decides, one entry per decision. *)
Definition decided (ns : list Notice) : list nat :=
  flat_map (fun n => match n with
                     | Invoked c => [c]
                     | Refused c _ => [c]
                     | Settled _ _ => []
                     end) ns.

(** Queue, armed timers and notices fit together: the queued requests
    are distinct, each has its timer armed and no other timer is, no call
    was decided twice, no queued call is decided, and every call seen so
    far is older than the next one. *)
Definition consistent (wait : Z) (q : list Request) (ts : list (nat * Z))
           (ns : list Notice) (next : nat) : Prop :=
  NoDup (map rid q) /\
  ts = map (timer_of wait) q /\
  NoDup (decided ns) /\
  (forall c, In c (map rid q) -> ~ In c (decided ns)) /\
  (forall c, In c (map rid q) -> (c < next)%nat) /\
  (forall c, In c (decided ns) -> (c < next)%nat).

(** [consistent], of a system. *)
Definition inv (s : System) : Prop :=
  consistent (maxWait (bulkhead s)) (queue (bulkhead s)) (timers s)
             (notices s) (nextCall s).

(** The queue is within its bound. *)
Definition bounded (s : System) : Prop :=
  len (queue (bulkhead s)) <= queueSize (bulkhead s).

(** Every call made so far is waiting in the queue or has been
    decided. *)
Definition tracked (s : System) : Prop :=
  forall call, (call < nextCall s)%nat ->
    In call (map rid (queue (bulkhead s))) \/ In call (decided (notices s)).

(** A call that was made, is not waiting and has not been decided. *)
Definition lost (call : nat) (s : System) : Prop :=
  (call < nextCall s)%nat /\
  ~ In call (map rid (queue (bulkhead s))) /\
  ~ In call (decided (notices s)).

(** A pool of one slot and one queue place, after two arrivals. *)
Definition tiny : Options := mkOptions (Some "payment"%string) (Some 1) None (Some 1).
Definition saturated : System :=
  run [Arrive "Pay-1" 1000; Arrive "Pay-2" 1010] (init tiny).

(** The pool [tiny] with one call running and one queued at 1010 with the
    default wait of 5000 ms; the timer of the queued call fires at 6010,
    and the running call settles afterwards. *)
Definition expired : System :=
  run [Arrive "Pay-1" 1000; Arrive "Pay-2" 1010; TimerFires 1 6010;
       Settle 0 true] (init tiny).

End Bulkhead.

(* ===================================================================== *)
(** ** RateLimiter: the rest of its interface, and the middleware        *)
(* ===================================================================== *)

Module RateLimiterApi.
Import Js RateLimiter.

(** [Math.min(...requests)] of a non-empty array [x :: rest]. *)
Fixpoint minimum (x : Z) (rest : list Z) : Z :=
  match rest with
  | [] => x
  | y :: rest' => Z.min x (minimum y rest')
  end.

(** [getRetryAfter()], with [now] the value of [Date.now()].  It does not
    prune. *)
Definition getRetryAfter (now : Z) (rl : t) : Z :=
  match requests rl with
  | [] => 0
  | r :: rest =>
      let oldestRequest := minimum r rest in
      let retryAfter := oldestRequest + windowMs rl - now in
      Z.max 0 retryAfter
  end.

(** [getRemainingRequests()]: prunes, then answers. *)
Definition getRemainingRequests (now : Z) (rl : t) : Z * t :=
  let rl1 := cleanupOldRequests now rl in
  (Z.max 0 (maxRequests rl1 - len (requests rl1)), rl1).

(** How [execute] ends: with the settlement of [fn], or with the
    RATE_LIMITED error and its [retryAfter] property. *)
Inductive Limited (T : Type) : Type :=
| Passed (o : Outcome T)
| RateLimited (e : Error) (retryAfter : Z).
Arguments Passed {T} o.
Arguments RateLimited {T} e retryAfter.

Definition rateLimitError (operationName : string) : Error :=
  {| message := "Rate limit exceeded - " ++ operationName;
     code := Some "RATE_LIMITED"%string |}.

(** [execute(fn, operationName)]; [now] is the clock in [tryAcquire],
    [now'] the clock in [getRetryAfter]. *)
Definition execute {W T : Type} (fn : Operation W T) (operationName : string)
           (now now' : Z) (w : W) (rl : t) : Limited T * t * W :=
  let '(allowed, rl1) := tryAcquire now rl in
  if negb allowed then
    (RateLimited (rateLimitError operationName) (getRetryAfter now' rl1), rl1, w)
  else
    let '(o, w') := fn w in (Passed o, rl1, w').

(** Everything a client can do to a limiter that changes it. *)
Inductive Use : Type :=
| Acquire (now : Z)
| Remaining (now : Z)
| Clear.

Definition clockOf (u : Use) : option Z :=
  match u with
  | Acquire now => Some now
  | Remaining now => Some now
  | Clear => None
  end.

Definition use (rl : t) (u : Use) : t :=
  match u with
  | Acquire now => snd (tryAcquire now rl)
  | Remaining now => snd (getRemainingRequests now rl)
  | Clear => reset rl
  end.

Definition drive (uses : list Use) (rl : t) : t := fold_left use uses rl.

(** The clock readings of a sequence of uses never go back, starting no
    earlier than [from]. *)
Fixpoint clock_advances (from : Z) (uses : list Use) : Prop :=
  match uses with
  | [] => True
  | u :: rest =>
      match clockOf u with
      | Some now => from <= now /\ clock_advances now rest
      | None => clock_advances from rest
      end
  end.

(** *** The rate-limiting middleware of the Order Service *)

(** What the middleware does with a request: hand it on, with the
    [X-RateLimit-Remaining] header it has set if any, or answer 429 with
    that header and [Retry-After] in seconds. *)
Inductive Verdict : Type :=
| Next (remaining : option Z)
| TooManyRequests (remaining : Z) (retryAfter : Z).

(** [req.path === "/health" || req.path.startsWith("/stats")] *)
Definition bypasses (path : string) : bool :=
  String.eqb path "/health" || String.prefix "/stats" path.

(** [Math.ceil(ms / 1000)] of a whole number of milliseconds. *)
Definition ceilSeconds (ms : Z) : Z := - ((- ms) / 1000).

(** [app.use((req, res, next) => ...)]; the three clock readings are those
    of [getRemainingRequests], [tryAcquire] and [getRetryAfter]. *)
Definition rateLimit (path : string) (now1 now2 now3 : Z) (rl : t)
  : Verdict * t :=
  if bypasses path then (Next None, rl)
  else
    let '(remaining, rl1) := getRemainingRequests now1 rl in
    let '(allowed, rl2) := tryAcquire now2 rl1 in
    if negb allowed then
      let retryAfter := ceilSeconds (getRetryAfter now3 rl2) in
      (TooManyRequests remaining retryAfter, rl2)
    else (Next (Some remaining), rl2).

(** A limiter of two requests per minute, full since 5. *)
Definition full_limiter : t :=
  drive [Acquire 0; Acquire 5] (new (mkOptions (Some 2) None)).

End RateLimiterApi.

(* ===================================================================== *)
(** ** CircuitBreaker: its history, and the guarded call of the service  *)
(* ===================================================================== *)

Module CircuitBreakerApi.
Import Js CircuitBreaker.

(** [getState()] *)
Definition getState (cb : t) : State := state cb.

(** The arrows of the state diagram in the header of circuitBreaker.js. *)
Definition is_arrow (c : StateChange) : bool :=
  match from c, to c with
  | CLOSED, OPEN => true
  | OPEN, HALF_OPEN => true
  | HALF_OPEN, CLOSED => true
  | HALF_OPEN, OPEN => true
  | _, _ => false
  end.

(** A history that leads from [start] to [final] without a gap. *)
Fixpoint chained (start : State) (history : list StateChange) (final : State)
  : Prop :=
  match history with
  | [] => start = final
  | c :: rest => from c = start /\ chained (to c) rest final
  end.

Definition is_call {W T : Type} (a : Action W T) : Prop :=
  match a with
  | Call _ _ _ _ => True
  | Reset => False
  end.

(** An operation that resolves whenever it is invoked. *)
Definition always_succeeds {W T : Type} (fn : Operation W T) : Prop :=
  forall w, exists v w', fn w = (Resolved v, w').

Definition succeeding_call {W T : Type} (a : Action W T) : Prop :=
  match a with
  | Call fn _ _ _ => always_succeeds fn
  | Reset => False
  end.

(** The statistics add up, and none is negative: every call counted in
    [totalRequests] has succeeded, failed or been rejected, or is one of
    the [waiting] calls suspended in [await fn()]. *)
Definition accounted (cb : t) (waiting : nat) : Prop :=
  totalRequests (stats cb)
  = successfulRequests (stats cb) + failedRequests (stats cb)
    + rejectedRequests (stats cb) + Z.of_nat waiting /\
  0 <= successfulRequests (stats cb) /\
  0 <= failedRequests (stats cb) /\
  0 <= rejectedRequests (stats cb).

(** The entry a failure leaves in the history when it settles while the
    circuit is already OPEN: [changeState(OPEN)] in state OPEN. *)
Definition is_loop (c : StateChange) : bool :=
  match from c, to c with
  | OPEN, OPEN => true
  | _, _ => false
  end.

Definition not_resets (e : Tick) : Prop :=
  match e with
  | Resets => False
  | _ => True
  end.

(** Four failures one after another, then two calls that overlap and
    both fail: the first opens the circuit, the second finds it OPEN. *)
Definition overlapping_failures : list Tick :=
  [Enters "GetProduct-1" 1000; Settles false 1100;
   Enters "GetProduct-2" 1200; Settles false 1300;
   Enters "GetProduct-3" 1400; Settles false 1500;
   Enters "GetProduct-4" 1600; Settles false 1700;
   Enters "GetProduct-5" 1800; Enters "GetProduct-6" 1850;
   Settles false 1900; Settles false 1950].

(** A CLOSED breaker is below its threshold, and one that is not CLOSED
    has recorded a failure time. *)
Definition gate_inv (cb : t) : Prop :=
  0 < failureThreshold cb /\
  (state cb = CLOSED -> 0 <= failureCount cb < failureThreshold cb) /\
  (state cb <> CLOSED -> lastFailureTime cb <> None).

End CircuitBreakerApi.

Module Pipeline.
Import Js.

Section Layers.
Context {W T : Type}.
Variable sleep : Z -> W -> W.




End Layers.

End Pipeline.

(* ===================================================================== *)
(** ** RetryPattern: its counters                                        *)
(* ===================================================================== *)

Module RetryPatternApi.
Import Js RetryPattern.

(** [resetStats()] *)
Definition resetStats (p : t) : t :=
  mk (maxRetries p) (delay p) (backoffMultiplier p) (maxDelay p) (mkStats 0 0 0).

(** What a caller of [execute] observes apart from the counters. *)
Definition observed {W T : Type} (r : Run W T)
  : Completion T * W * list (Event T) :=
  (completion r, world r, trace r).

(** The time a run spends in [sleep], in milliseconds. *)
Definition timeSlept {T : Type} (tr : list (Event T)) : Z :=
  fold_right Z.add 0 (sleeps tr).

(** A dependency with a transient fault: its first [faults] invocations
    fail with [e], every later one resolves with [v].  The world counts
    the invocations. *)
Definition transient {T : Type} (faults : nat) (e : Error) (v : T)
  : Operation nat T :=
  fun invocations =>
    (if (invocations <? faults)%nat then Rejected e else Resolved v,
     S invocations).

(** The same dependency when its failures are rejections with
    [undefined]. *)
Definition transient_nullish {T : Type} (faults : nat) (v : T)
  : Operation nat T :=
  fun invocations =>
    (if (invocations <? faults)%nat then RejectedNullish else Resolved v,
     S invocations).

(** Whether the last invocation of a run rejected with an object: the
    run gave up after the last attempt it was allowed. *)
Definition gave_up {T : Type} (tr : list (Event T)) : bool :=
  match last (calls tr) RejectedNullish with
  | Rejected _ => true
  | _ => false
  end.

(** Two policies that differ in their counters at most. *)
Definition same_config (p q : t) : Prop :=
  maxRetries p = maxRetries q /\ delay p = delay q /\
  backoffMultiplier p = backoffMultiplier q /\ maxDelay p = maxDelay q.

End RetryPatternApi.

(* ===================================================================== *)
(** ** Bulkhead: what its counters count, and the manager of pools       *)
(* ===================================================================== *)

Module BulkheadApi.
Import Js Bulkhead.

Definition not_reset (turn : Turn) : Prop :=
  match turn with
  | Reset => False
  | _ => True
  end.

(** The notices of the three kinds. *)
Definition is_refusal (n : Notice) : bool :=
  match n with Refused _ _ => true | _ => false end.
Definition is_success (n : Notice) : bool :=
  match n with Settled _ true => true | _ => false end.
Definition is_invocation (n : Notice) : bool :=
  match n with Invoked _ => true | _ => false end.

(** The slots are accounted for: [currentConcurrent] is the number of
    operations in flight, which are distinct calls that were granted a
    slot, and it is within the cap. *)
Definition slots_accounted (s : System) : Prop :=
  currentConcurrent (bulkhead s) = len (inflight s) /\
  currentConcurrent (bulkhead s) <= maxConcurrent (bulkhead s) /\
  NoDup (inflight s) /\
  (forall c, In c (inflight s) -> In c (decided (notices s))).

(** Nobody waits while a slot is free. *)
Definition work_conserving (s : System) : Prop :=
  queue (bulkhead s) = [] \/
  maxConcurrent (bulkhead s) <= currentConcurrent (bulkhead s).

(** The statistics count what the callers observed: every call of
    [execute], every refusal and every success. *)
Definition counted (s : System) : Prop :=
  totalRequests (stats (bulkhead s)) = Z.of_nat (nextCall s) /\
  rejectedRequests (stats (bulkhead s)) = len (filter is_refusal (notices s)) /\
  successfulRequests (stats (bulkhead s)) = len (filter is_success (notices s)).

(** Every call made so far was refused, was granted a slot, or waits. *)
Definition none_lost (s : System) : Prop :=
  Z.of_nat (nextCall s) =
  len (filter is_refusal (notices s)) + len (filter is_invocation (notices s))
  + len (queue (bulkhead s)).

(** The queue holds its calls in the order of their arrival. *)
Definition arrival_order (s : System) : Prop :=
  StronglySorted Nat.lt (map rid (queue (bulkhead s))).

(** The running count never passes the cap, [reset] or not. *)
Definition capped (s : System) : Prop :=
  0 <= maxConcurrent (bulkhead s) /\
  currentConcurrent (bulkhead s) <= maxConcurrent (bulkhead s).

(** *** BulkheadManager *)

(** The manager's [Map] from pool name to [Bulkhead] object.  The objects
    live in a store and the map holds their references, so that every
    holder of a reference sees the same pool. *)
Record Manager : Type := mkManager {
  bulkheads : list (string * nat);   (* [Map], in insertion order *)
  store : list System                (* the [Bulkhead] objects, by reference *)
}.

(** [new BulkheadManager()] *)
Definition newManager : Manager := mkManager [] [].

(** [this.bulkheads.get(name)]; [None] is [undefined]. *)
Fixpoint get (name : string) (m : list (string * nat)) : option nat :=
  match m with
  | [] => None
  | (k, ref) :: rest => if String.eqb k name then Some ref else get name rest
  end.

(** [{ name, ...options }]: an option [name] that is present overrides
    the pool name. *)
Definition withName (name : string) (options : Options) : Options :=
  mkOptions (match opt_name options with
             | Some given => Some given
             | None => Some name
             end)
            (opt_maxConcurrent options) (opt_maxWait options)
            (opt_queueSize options).

(** [getBulkhead(name, options = {})]: the reference of the pool, and
    the manager afterwards. *)
Definition getBulkhead (name : string) (options : Options) (m : Manager)
  : nat * Manager :=
  match get name (bulkheads m) with
  | Some ref => (ref, m)
  | None =>
      let ref := length (store m) in
      (ref, mkManager (bulkheads m ++ [(name, ref)])
                      (store m ++ [init (withName name options)]))
  end.

(** A turn of the event loop on the pool behind a reference. *)
Fixpoint turnAt (ref : nat) (turn : Turn) (pools : list System) : list System :=
  match pools, ref with
  | [], _ => []
  | s :: rest, O => step s turn :: rest
  | s :: rest, S ref' => s :: turnAt ref' turn rest
  end.

(** What is done with a manager: a pool is asked for, or the pool behind
    a reference takes a turn. *)
Inductive Command : Type :=
| GetBulkhead (name : string) (options : Options)
| TurnAt (ref : nat) (turn : Turn).

Definition command (m : Manager) (c : Command) : Manager :=
  match c with
  | GetBulkhead name options => snd (getBulkhead name options m)
  | TurnAt ref turn => mkManager (bulkheads m) (turnAt ref turn (store m))
  end.

Definition commands (cs : list Command) (m : Manager) : Manager :=
  fold_left command cs m.

(** The references of a manager are the positions of its store, each
    handed out once, and each name is registered once. *)
Definition managed (m : Manager) : Prop :=
  map snd (bulkheads m) = seq 0 (length (store m)) /\
  NoDup (map fst (bulkheads m)).

(** The service's two pools, as it creates them at start-up. *)
Definition service_pools : list Command :=
  [GetBulkhead "product-service" (mkOptions None (Some 5) (Some 3000) (Some 10));
   GetBulkhead "payment-service" (mkOptions None (Some 3) (Some 5000) (Some 5))].

(** A pool of one slot with two calls waiting behind the running one. *)
Definition two_waiting : System :=
  run [Arrive "Pay-1" 1000; Arrive "Pay-2" 1010; Arrive "Pay-3" 1020]
      (init (mkOptions None (Some 1) None None)).

End BulkheadApi.

(* ===================================================================== *)
(** * Properties                                                         *)
(* ===================================================================== *)

(** ** Lists and options *)

Lemma filter_keeps_all {A : Type} (f : A -> bool) (l : list A) :
  Forall (fun x => f x = true) l -> filter f l = l.
Proof.
  induction 1 as [|x l Hx _ IH]; simpl.
  - reflexivity.
  - rewrite Hx, IH. reflexivity.
Qed.

Lemma filter_no_longer {A : Type} (f : A -> bool) (l : list A) :
  (length (filter f l) <= length l)%nat.
Proof.
  induction l as [|x l IH]; simpl; [lia|].
  destruct (f x); simpl; lia.
Qed.

Lemma filter_drops_one {A : Type} (f : A -> bool) (l : list A) (x : A) :
  In x l -> f x = false -> (length (filter f l) < length l)%nat.
Proof.
  induction l as [|y l IH]; simpl; intros Hin Hx.
  - contradiction.
  - destruct Hin as [-> | Hin].
    + rewrite Hx. pose proof (filter_no_longer f l). lia.
    + specialize (IH Hin Hx). destruct (f y); simpl; lia.
Qed.

Lemma or_default_zero (d : Z) : Js.or_default (Some 0) d = d.
Proof. reflexivity. Qed.

Lemma or_default_missing (d : Z) : Js.or_default None d = d.
Proof. reflexivity. Qed.

Lemma or_default_nonzero (x d : Z) : x <> 0 -> Js.or_default (Some x) d = x.
Proof. destruct x; simpl; congruence. Qed.

(** ** RateLimiter *)

Module RateLimiterFacts.
Import Js RateLimiter.

Lemma tryAcquire_admits now rl :
  len (kept now rl) < maxRequests rl ->
  tryAcquire now rl
  = (true, mk (maxRequests rl) (windowMs rl) (kept now rl ++ [now])
              (bump_allowed (bump_total (stats rl)))).
Proof.
  intros H. unfold tryAcquire, kept in *. simpl.
  destruct (Z.leb_spec (maxRequests rl)
              (len (filter (fun ts => now - windowMs rl <? ts) (requests rl))));
    [lia | reflexivity].
Qed.

Lemma tryAcquire_rejects now rl :
  maxRequests rl <= len (kept now rl) ->
  tryAcquire now rl
  = (false, mk (maxRequests rl) (windowMs rl) (kept now rl)
               (bump_rejected (bump_total (stats rl)))).
Proof.
  intros H. unfold tryAcquire, kept in *. simpl.
  destruct (Z.leb_spec (maxRequests rl)
              (len (filter (fun ts => now - windowMs rl <? ts) (requests rl))));
    [reflexivity | lia].
Qed.

Lemma kept_spec now rl ts :
  In ts (kept now rl) <-> In ts (requests rl) /\ now - windowMs rl < ts.
Proof.
  unfold kept. rewrite filter_In, Z.ltb_lt. tauto.
Qed.

(** Nothing is pruned while every recorded timestamp and the clock lie
    in one window [[t1, t1 + windowMs)]. *)
Lemma kept_all_in_window now rl t1 :
  Forall (fun ts => t1 <= ts) (requests rl) ->
  now < t1 + windowMs rl ->
  kept now rl = requests rl.
Proof.
  intros Hall Hnow. unfold kept. apply filter_keeps_all.
  eapply Forall_impl; [|exact Hall].
  simpl. intros ts Hts. apply Z.ltb_lt. lia.
Qed.

(** A burst inside one window: calls are admitted until [maxRequests]
    timestamps are recorded, and rejected from then on. *)
Lemma burst_in_window t1 times : forall rl,
  Forall (fun ts => t1 <= ts) (requests rl) ->
  Forall (fun now => t1 <= now < t1 + windowMs rl) times ->
  let room := Z.to_nat (maxRequests rl - len (requests rl)) in
  fst (acquireAll times rl)
  = repeat true (Nat.min room (length times))
    ++ repeat false (length times - room)
  /\ requests (snd (acquireAll times rl)) = requests rl ++ firstn room times
  /\ maxRequests (snd (acquireAll times rl)) = maxRequests rl
  /\ windowMs (snd (acquireAll times rl)) = windowMs rl.
Proof.
  induction times as [|now rest IH]; intros rl Hreq Htimes room.
  - simpl. rewrite Nat.min_0_r, firstn_nil. simpl. rewrite app_nil_r. auto.
  - inversion Htimes as [|? ? Hnow Hrest]; subst.
    assert (Hkept : kept now rl = requests rl)
      by (apply kept_all_in_window with t1; [assumption | lia]).
    simpl acquireAll.
    destruct (Z.lt_ge_cases (len (requests rl)) (maxRequests rl)) as [Hlt | Hge].
    + rewrite tryAcquire_admits by (rewrite Hkept; exact Hlt).
      rewrite Hkept.
      set (rl1 := mk _ _ _ _).
      specialize (IH rl1).
      destruct (acquireAll rest rl1) as [oks rl2] eqn:Hrun.
      simpl in IH |- *.
      destruct IH as (Hans & Hq & Hm & Hw).
      { apply Forall_app. split; [assumption|]. constructor; [lia | constructor]. }
      { exact Hrest. }
      unfold len in *. rewrite length_app in *. simpl length in *.
      assert (Hroom : room = S (Z.to_nat (maxRequests rl - Z.of_nat (length (requests rl) + 1))))
        by (unfold room, len; lia).
      rewrite Hroom. simpl. rewrite Hans, Hq, <- app_assoc. simpl.
      repeat split; auto.
    + rewrite tryAcquire_rejects by (rewrite Hkept; lia).
      rewrite Hkept.
      set (rl1 := mk _ _ _ _).
      specialize (IH rl1).
      destruct (acquireAll rest rl1) as [oks rl2] eqn:Hrun.
      simpl in IH |- *.
      destruct IH as (Hans & Hq & Hm & Hw); [assumption | exact Hrest |].
      assert (Hroom : room = 0%nat) by (unfold room; lia).
      rewrite Hroom in *. simpl in *. rewrite Hans, Hq.
      replace (Z.to_nat (maxRequests rl - len (requests rl))) with 0%nat by lia.
      simpl. rewrite Nat.sub_0_r. repeat split; auto.
Qed.

(** Once a recorded timestamp is a full window old, a limiter that is
    not over its bound admits the next call. *)
Lemma admitted_after_window now rl ts :
  In ts (requests rl) ->
  ts + windowMs rl <= now ->
  len (requests rl) <= maxRequests rl ->
  fst (tryAcquire now rl) = true.
Proof.
  intros Hin Hold Hbound.
  rewrite tryAcquire_admits; [reflexivity|].
  assert (length (kept now rl) < length (requests rl))%nat.
  { unfold kept. apply filter_drops_one with ts; [assumption|].
    apply Z.ltb_ge. lia. }
  unfold len in *. lia.
Qed.

(** C4.  [tryAcquire] first prunes the timestamps that are not newer
    than [now - windowMs]; when fewer than [maxRequests] remain it
    appends [now] and admits, otherwise it rejects and appends nothing.
    Consequently, with [maxRequests = 10] and [windowMs = 60000], ten
    further calls inside the 60 s that follow the first admission at
    [t1] leave the 11th call rejected, and the next call made at
    [t1 + 60000] or later is admitted again. *)
Theorem tryAcquire_sliding_window :
  (forall now rl,
     let remaining :=
       filter (fun ts => now - windowMs rl <? ts) (requests rl) in
     (forall ts, In ts remaining <->
                 In ts (requests rl) /\ now - windowMs rl < ts) /\
     (len remaining < maxRequests rl ->
      fst (tryAcquire now rl) = true /\
      requests (snd (tryAcquire now rl)) = remaining ++ [now]) /\
     (maxRequests rl <= len remaining ->
      fst (tryAcquire now rl) = false /\
      requests (snd (tryAcquire now rl)) = remaining))
  /\
  (forall t1 times later,
     length times = 10%nat ->
     Forall (fun now => t1 <= now < t1 + 60000) times ->
     t1 + 60000 <= later ->
     let rl0 := new (mkOptions (Some 10) (Some 60000)) in
     fst (acquireAll (t1 :: times) rl0) = repeat true 10 ++ [false] /\
     fst (tryAcquire later (snd (acquireAll (t1 :: times) rl0))) = true).
Proof.
  split.
  - intros now rl remaining. fold (kept now rl) in remaining. subst remaining.
    split; [apply kept_spec|]. split; intros H.
    + rewrite tryAcquire_admits by assumption. auto.
    + rewrite tryAcquire_rejects by assumption. auto.
  - intros t1 times later Hlen Htimes Hlater rl0.
    destruct (burst_in_window t1 (t1 :: times) rl0) as (Hans & Hreq & Hmax & Hwin).
    { constructor. }
    { constructor; [change (windowMs rl0) with 60000; lia | exact Htimes]. }
    change (Z.to_nat (maxRequests rl0 - len (requests rl0))) with 10%nat
      in Hans, Hreq.
    change (requests rl0) with (@nil Z) in Hreq.
    change (maxRequests rl0) with 10 in Hmax.
    change (windowMs rl0) with 60000 in Hwin.
    change (length (t1 :: times)) with (S (length times)) in Hans.
    rewrite Hlen in Hans.
    split; [exact Hans|].
    apply admitted_after_window with t1.
    + rewrite Hreq. simpl. left. reflexivity.
    + rewrite Hwin. simpl. exact Hlater.
    + rewrite Hreq, Hmax. unfold len. rewrite app_nil_l.
      pose proof (firstn_le_length 10 (t1 :: times)). lia.
Qed.

(** The boundary scenario at the clock readings 0, 1, ..., 10 and 60000:
    the first call finds room, the eleventh does not. *)
Lemma tryAcquire_sliding_window_witness :
  let rl0 := new (mkOptions (Some 10) (Some 60000)) in
  let full := snd (acquireAll [0; 1; 2; 3; 4; 5; 6; 7; 8; 9] rl0) in
  (fst (tryAcquire 0 rl0) = true /\
   requests (snd (tryAcquire 0 rl0)) = [] ++ [0]) /\
  (fst (tryAcquire 10 full) = false /\
   requests (snd (tryAcquire 10 full)) = [0; 1; 2; 3; 4; 5; 6; 7; 8; 9]) /\
  fst (acquireAll (0 :: [1; 2; 3; 4; 5; 6; 7; 8; 9; 10]) rl0)
  = repeat true 10 ++ [false] /\
  fst (tryAcquire 60000
         (snd (acquireAll (0 :: [1; 2; 3; 4; 5; 6; 7; 8; 9; 10]) rl0))) = true.
Proof.
  intros rl0 full.
  destruct tryAcquire_sliding_window as [Hcontract Hboundary].
  split; [|split].
  - apply (Hcontract 0 rl0). vm_compute. reflexivity.
  - apply (Hcontract 10 full). vm_compute. discriminate.
  - apply (Hboundary 0 [1; 2; 3; 4; 5; 6; 7; 8; 9; 10] 60000).
    + reflexivity.
    + repeat constructor; lia.
    + lia.
Defined.

End RateLimiterFacts.

(** ** CircuitBreaker *)

Module CircuitBreakerFacts.
Import Js CircuitBreaker.



Section Calls.
Context {W T : Type}.
Implicit Types (fn : Operation W T) (cb : t) (w : W)
         (acts : list (Action W T)).

Lemma run_calls_app acts1 acts2 (s : t * W) :
  run (acts1 ++ acts2) s = run acts2 (run acts1 s).
Proof. apply fold_left_app. Qed.

(** [execute] written out, for a call that nothing overlaps. *)
Lemma execute_unfold fn name now now' w cb :
  execute fn name now now' w cb
  = match state (evaluateState now (with_stats bump_total cb)) with
    | OPEN =>
        (Rejected (circuitOpenError name),
         with_stats bump_rejected
                    (evaluateState now (with_stats bump_total cb)), w)
    | _ =>
        match fn w with
        | (Resolved result, w') =>
            (Resolved result,
             with_stats bump_successful
               (onSuccess now' (evaluateState now (with_stats bump_total cb))),
             w')
        | (Rejected error, w') =>
            (Rejected error,
             with_stats bump_failed
               (onFailure now' (evaluateState now (with_stats bump_total cb))),
             w')
        | (RejectedNullish, w') =>
            (Rejected undefinedMessageError,
             with_stats bump_failed
               (onFailure now' (evaluateState now (with_stats bump_total cb))),
             w')
        end
    end.
Proof.
  unfold execute, enter.
  destruct (state (evaluateState now (with_stats bump_total cb)));
    try reflexivity; destruct (fn w) as [[v | e |] w']; reflexivity.
Qed.

(** A failing call through a closed circuit: the failure is counted,
    the operation's own error is re-thrown, and the circuit opens
    exactly when the count reaches the threshold. *)
Lemma execute_closed_failure fn name now now' w cb e w' :
  state cb = CLOSED ->
  fn w = (Rejected e, w') ->
  exists cb',
    execute fn name now now' w cb = (Rejected e, cb', w') /\
    failureCount cb' = failureCount cb + 1 /\
    failureThreshold cb' = failureThreshold cb /\
    state cb' = (if failureThreshold cb <=? failureCount cb + 1
                 then OPEN else CLOSED).
Proof.
  intros Hst Hfn. rewrite ?execute_unfold; unfold evaluateState. simpl.
  rewrite Hst, Hfn. unfold onFailure. simpl. rewrite Hst.
  eexists. split; [reflexivity|].
  destruct (failureThreshold cb <=? failureCount cb + 1); simpl; auto.
Qed.

Lemma step_closed_failure (a : Action W T) cb w :
  state cb = CLOSED ->
  failing_call a ->
  failureCount (fst (step (cb, w) a)) = failureCount cb + 1 /\
  failureThreshold (fst (step (cb, w) a)) = failureThreshold cb /\
  state (fst (step (cb, w) a))
  = (if failureThreshold cb <=? failureCount cb + 1 then OPEN else CLOSED).
Proof.
  intros Hst Hfail. destruct a as [fn name now now'|]; [|contradiction].
  destruct (Hfail w) as (e & w' & Hfn).
  destruct (execute_closed_failure fn name now now' w cb e w' Hst Hfn)
    as (cb' & Hex & Hc & Hth & Hs).
  simpl. rewrite Hex. simpl. auto.
Qed.

(** Below the threshold a streak of failures keeps the circuit
    closed and is counted one by one. *)
Lemma failing_streak acts : forall cb w,
  state cb = CLOSED ->
  Forall failing_call acts ->
  failureCount cb + len acts < failureThreshold cb ->
  state (fst (run acts (cb, w))) = CLOSED /\
  failureCount (fst (run acts (cb, w))) = failureCount cb + len acts /\
  failureThreshold (fst (run acts (cb, w))) = failureThreshold cb.
Proof.
  unfold len.
  induction acts as [|a acts IH]; intros cb w Hst Hall Hlt.
  - simpl. repeat split; try assumption; lia.
  - inversion Hall as [|? ? Ha Hrest]; subst.
    destruct (step_closed_failure a cb w Hst Ha) as (Hc & Hth & Hs).
    simpl length in *. simpl run. unfold run in IH.
    destruct (step (cb, w) a) as [cb1 w1] eqn:Hstep. simpl in Hc, Hth, Hs.
    destruct (Z.leb_spec (failureThreshold cb) (failureCount cb + 1)); [lia|].
    destruct (IH cb1 w1 Hs Hrest) as (H1 & H2 & H3); [lia|].
    unfold run. rewrite H1, H2, H3. repeat split; lia.
Qed.


End Calls.

Lemma Forall_prefix {A : Type} (P : A -> Prop) (k : nat) (l : list A) :
  Forall P l -> Forall P (firstn k l).
Proof.
  intros H. revert k. induction H as [|x l Hx _ IH]; intros [|k]; simpl;
    constructor; auto.
Qed.



(** *** Counters along the life of a breaker *)

Ltac counters :=
  simpl in *; intuition (try lia; try congruence).

Lemma counters_inv_new options : counters_inv (new options).
Proof. unfold counters_inv. counters. Qed.

Lemma counters_inv_reset cb : counters_inv (reset cb).
Proof. unfold counters_inv. counters. Qed.

Lemma counters_inv_evaluateState now cb :
  counters_inv cb -> counters_inv (evaluateState now cb).
Proof.
  unfold counters_inv, evaluateState. intros Hinv.
  destruct (state cb) eqn:Hst; try (rewrite Hst; assumption).
  destruct (resetTimeout cb <=? timeSinceLastFailure now cb);
    [|rewrite Hst; assumption].
  counters.
Qed.

Lemma counters_inv_onSuccess now cb :
  state cb <> OPEN -> counters_inv cb -> counters_inv (onSuccess now cb).
Proof.
  unfold counters_inv, onSuccess. intros Hgate Hinv.
  destruct (state cb) eqn:Hst.
  - simpl. rewrite Hst. counters.
  - congruence.
  - simpl. destruct (halfOpenRequests cb <=? successCount cb + 1).
    + counters.
    + simpl. rewrite Hst. counters.
Qed.

Lemma counters_inv_onFailure now cb :
  counters_inv cb -> counters_inv (onFailure now cb).
Proof.
  unfold counters_inv, onFailure. intros Hinv. simpl.
  destruct (state cb) eqn:Hst.
  - destruct (failureThreshold cb <=? failureCount cb + 1).
    + counters.
    + simpl. rewrite Hst. counters.
  - destruct (failureThreshold cb <=? failureCount cb + 1).
    + counters.
    + simpl. rewrite Hst. counters.
  - counters.
Qed.

Lemma counters_inv_with_stats f cb :
  counters_inv cb -> counters_inv (with_stats f cb).
Proof. exact (fun H => H). Qed.

Lemma counters_inv_step {W T : Type} (s : t * W) (a : Action W T) :
  counters_inv (fst s) -> counters_inv (fst (step s a)).
Proof.
  intros Hinv. destruct a as [fn name now now'|]; simpl.
  - rewrite ?execute_unfold.
    assert (Hev : counters_inv (evaluateState now (with_stats bump_total (fst s))))
      by (apply counters_inv_evaluateState, counters_inv_with_stats, Hinv).
    destruct (state (evaluateState now (with_stats bump_total (fst s))))
      eqn:Hgate;
      try (simpl; apply counters_inv_with_stats, Hev);
      destruct (fn (snd s)) as [[v | e |] w']; simpl;
      apply counters_inv_with_stats;
      first [apply counters_inv_onSuccess; [congruence|]
            | apply counters_inv_onFailure];
      exact Hev.
  - apply counters_inv_reset.
Qed.

Lemma counters_inv_run {W T : Type} (acts : list (Action W T)) :
  forall s : t * W, counters_inv (fst s) -> counters_inv (fst (run acts s)).
Proof.
  induction acts as [|a acts IH]; intros s Hinv; simpl.
  - exact Hinv.
  - apply IH, counters_inv_step, Hinv.
Qed.

Lemma counters_inv_reachable (W T : Type) cb :
  reachable_in_sequence W T cb -> counters_inv cb.
Proof.
  intros (options & acts & w & ->).
  apply counters_inv_run, counters_inv_new.
Qed.

(** A transition by itself never touches a counter. *)
Lemma changeState_keeps_counters newState now cb :
  failureCount (changeState newState now cb) = failureCount cb /\
  successCount (changeState newState now cb) = successCount cb.
Proof. split; reflexivity. Qed.

(** *** Calls that overlap *)

Ltac fields cb :=
  let f := fresh "threshold" in
  let r := fresh "timeout" in
  let h := fresh "probes" in
  let st := fresh "st" in
  let fc := fresh "fc" in
  let sc := fresh "sc" in
  let lt := fresh "last" in
  let ha := fresh "ha" in
  let tot := fresh "tot" in
  let suc := fresh "suc" in
  let fai := fresh "fai" in
  let rej := fresh "rej" in
  let hist := fresh "hist" in
  destruct cb as [f r h st fc sc lt ha [tot suc fai rej hist]].

Ltac conditions :=
  repeat match goal with
         | |- context [if ?c then _ else _] => destruct c eqn:?; simpl
         end.

Lemma closed_inv_enter name now cb :
  closed_inv cb -> closed_inv (snd (enter name now cb)).
Proof.
  fields cb. unfold closed_inv, enter, evaluateState, timeSinceLastFailure.
  simpl. intros Hinv.
  destruct st; simpl; conditions; simpl; intuition (try lia; try congruence).
Qed.

Lemma closed_inv_settled ok now cb :
  closed_inv cb -> closed_inv (settled ok now cb).
Proof.
  fields cb. unfold closed_inv, settled, onSuccess, onFailure.
  simpl. intros Hinv.
  destruct ok, st; simpl; conditions; simpl;
    intuition (try lia; try congruence).
Qed.

Lemma closed_inv_tick s e : closed_inv (breaker s) -> closed_inv (breaker (tick s e)).
Proof.
  intros Hinv. destruct e as [name now | ok now' |]; simpl.
  - pose proof (closed_inv_enter name now (breaker s) Hinv) as Henter.
    destruct (enter name now (breaker s)) as [[e|] cb']; exact Henter.
  - destruct (pending s); [exact Hinv | apply closed_inv_settled, Hinv].
  - unfold closed_inv. simpl. intuition lia.
Qed.

Lemma closed_inv_reachable cb : reachable cb -> closed_inv cb.
Proof.
  intros (options & es & ->).
  assert (Hgen : forall s, closed_inv (breaker s) ->
                           closed_inv (breaker (ticks es s))).
  { induction es as [|e es IH]; intros s Hinv; simpl; [exact Hinv|].
    apply IH, closed_inv_tick, Hinv. }
  apply Hgen. unfold closed_inv. simpl. intuition lia.
Qed.

(** A call that nothing overlaps is its entry followed at once by its
    settlement. *)
Lemma step_is_ticks {W T : Type} (a : Action W T) cb (w : W) n :
  mkShared (fst (step (cb, w) a)) n = ticks (alone a cb w) (mkShared cb n).
Proof.
  destruct a as [fn name now now'|]; simpl; [|reflexivity].
  unfold execute.
  destruct (enter name now cb) as [[e|] cb'] eqn:Henter; simpl;
    rewrite Henter; [reflexivity|].
  destruct (fn w) as [[v | e |] w']; reflexivity.
Qed.

Lemma run_is_ticks {W T : Type} (acts : list (Action W T)) : forall cb (w : W) n,
  exists es, mkShared (fst (run acts (cb, w))) n = ticks es (mkShared cb n).
Proof.
  induction acts as [|a acts IH]; intros cb w n.
  - exists []. reflexivity.
  - simpl. destruct (step (cb, w) a) as [cb1 w1] eqn:Hstep.
    destruct (IH cb1 w1 n) as [es Hes].
    exists (alone a cb w ++ es).
    unfold ticks. rewrite fold_left_app. fold (ticks (alone a cb w) (mkShared cb n)).
    rewrite <- step_is_ticks, Hstep. exact Hes.
Qed.

(** The states of calls made one after another are among those of
    calls that may overlap. *)
Lemma sequence_is_reachable (W T : Type) cb :
  reachable_in_sequence W T cb -> reachable cb.
Proof.
  intros (options & acts & w & ->).
  destruct (run_is_ticks acts (new options) w 0) as [es Hes].
  exists options, es. unfold start. rewrite <- Hes. reflexivity.
Qed.

(** C5, as stated, fails: a reachable HALF_OPEN breaker holds a failure
    counter of 5 and a success counter of 1 at once. *)
Lemma counters_exclusive_counterexample :
  ~ (forall cb, reachable cb ->
                failureCount cb = 0 \/ successCount cb = 0).
Proof.
  intros Hclaim.
  destruct (Hclaim probing) as [H | H].
  - apply (sequence_is_reachable nat unit).
    exists no_options,
           (five_failures ++ [Call probe_succeeds "GetProduct-1" 31200 31300]),
           0%nat.
    reflexivity.
  - vm_compute in H. discriminate.
  - vm_compute in H. discriminate.
Qed.

(** C5, amended.  In every state a breaker can reach, with calls that
    overlap or not, in which the circuit is CLOSED the half-open success
    counter is zero, so at most one of the two counters is non-zero
    there.  The failure counter is not reset by the transitions into OPEN
    and HALF_OPEN -- [changeState] leaves it untouched -- so when the
    calls are made one after another it is still positive in every OPEN
    or HALF_OPEN state, possibly next to a non-zero success counter; when
    calls overlap, a success that settles late can zero it while the
    circuit is OPEN.  Both counters are zeroed by [resetCounts], which
    runs when the circuit closes from HALF_OPEN and on [reset]. *)
Theorem counters_exclusive_when_closed :
  (forall cb, reachable cb -> state cb = CLOSED ->
              successCount cb = 0 /\
              (failureCount cb = 0 \/ successCount cb = 0)) /\
  (forall (W T : Type) cb, reachable_in_sequence W T cb ->
              reachable cb /\ (state cb <> CLOSED -> 0 < failureCount cb)) /\
  (let cb := breaker (ticks overlapping_probes (start no_options)) in
   reachable cb /\ state cb = OPEN /\ failureCount cb = 0) /\
  (forall newState now cb,
      failureCount (changeState newState now cb) = failureCount cb) /\
  (forall cb, failureCount (resetCounts cb) = 0 /\
              successCount (resetCounts cb) = 0).
Proof.
  split; [|split; [|split; [|split]]].
  - intros cb Hreach Hst.
    destruct (closed_inv_reachable cb Hreach) as (_ & Hclosed).
    destruct (Hclosed Hst) as [Hsucc _]. auto.
  - intros W T cb Hreach.
    split; [apply (sequence_is_reachable W T), Hreach|].
    intros Hst.
    destruct (counters_inv_reachable W T cb Hreach) as (_ & _ & Hopen).
    auto.
  - split; [|split; reflexivity].
    exists no_options, overlapping_probes. reflexivity.
  - intros newState now cb. apply changeState_keeps_counters.
  - intros cb. split; reflexivity.
Qed.

(** A default breaker after two failures and a success: closed, with
    both counters back at zero. *)
Lemma counters_exclusive_when_closed_witness :
  let cb := fst (run [Call probe_fails "GetProduct-1" 1000 1200;
                      Call probe_fails "GetProduct-2" 1300 1500;
                      Call probe_succeeds "GetProduct-3" 1600 1700]
                     (new no_options, 0%nat)) in
  (successCount cb = 0 /\ (failureCount cb = 0 \/ successCount cb = 0)) /\
  0 < failureCount probing.
Proof.
  intros cb.
  destruct counters_exclusive_when_closed as (Hclosed & Hseq & _).
  split.
  - apply Hclosed.
    + apply (sequence_is_reachable nat unit).
      exists no_options,
        [Call probe_fails "GetProduct-1" 1000 1200;
         Call probe_fails "GetProduct-2" 1300 1500;
         Call probe_succeeds "GetProduct-3" 1600 1700], 0%nat.
      reflexivity.
    + reflexivity.
  - destruct (Hseq nat unit probing) as [_ Hopen].
    + exists no_options,
        (five_failures ++ [Call probe_succeeds "GetProduct-1" 31200 31300]),
        0%nat.
      reflexivity.
    + apply Hopen. vm_compute. discriminate.
Defined.

(** *** Re-entering HALF_OPEN *)

(** C2 on the code.  [evaluateState] zeroes [halfOpenAttempts] on the
    way from OPEN to HALF_OPEN but leaves [successCount], the counter
    [onSuccess] compares with [halfOpenRequests], as it is.  On the
    breaker [reopened] the two successes of the earlier HALF_OPEN period
    are still counted, and the first success of the new period, at
    61700, closes a circuit that asks for three. *)
Theorem half_open_reentry_keeps_successCount :
  (forall now cb, successCount (evaluateState now cb) = successCount cb) /\
  halfOpenRequests (fst reopened) = 3 /\
  state (fst reopened) = OPEN /\
  successCount (fst reopened) = 2 /\
  state (evaluateState 61700 (fst reopened)) = HALF_OPEN /\
  halfOpenAttempts (evaluateState 61700 (fst reopened)) = 0 /\
  successCount (evaluateState 61700 (fst reopened)) = 2 /\
  state (fst (step reopened (Call probe_succeeds "GetProduct-4" 61700 61800)))
  = CLOSED.
Proof.
  split.
  - intros now cb. unfold evaluateState.
    destruct (state cb); try reflexivity.
    destruct (resetTimeout cb <=? timeSinceLastFailure now cb); reflexivity.
  - vm_compute. repeat split; reflexivity.
Qed.

End CircuitBreakerFacts.


(** ** RetryPattern *)

Module RetryPatternFacts.
Import Js RetryPattern.

(** The closed form of the recurrence from the second value on, for a
    multiplier that does not shrink the delay and a cap that is not
    negative. *)
Lemma backoff_closed_form multiplier cap :
  1 <= multiplier -> 0 <= cap ->
  forall i d,
    backoff multiplier cap d (S i)
    = Z.min (d * multiplier ^ Z.of_nat (S i)) cap.
Proof.
  intros Hm Hcap. induction i as [|i IH]; intros d.
  - simpl backoff. change (Z.of_nat 1) with 1. rewrite Z.pow_1_r. reflexivity.
  - change (backoff multiplier cap d (S (S i)))
      with (backoff multiplier cap (Z.min (d * multiplier) cap) (S i)).
    rewrite IH.
    replace (Z.of_nat (S (S i))) with (1 + Z.of_nat (S i)) by lia.
    rewrite Z.pow_add_r, Z.pow_1_r by lia.
    assert (Hk : 1 <= multiplier ^ Z.of_nat (S i)).
    { pose proof (Z.pow_le_mono_l 1 multiplier (Z.of_nat (S i))) as Hp.
      rewrite Z.pow_1_l in Hp by lia. apply Hp. lia. }
    set (k := multiplier ^ Z.of_nat (S i)) in *.
    destruct (Z.min_spec (d * multiplier) cap) as [[Hlt ->] | [Hge ->]].
    + rewrite Z.mul_assoc. reflexivity.
    + assert (cap <= cap * k) by nia.
      assert (cap <= d * (multiplier * k)) by nia.
      rewrite !Z.min_r by lia. reflexivity.
Qed.

Section Runs.
Context {W T : Type}.
Variable sleep : Z -> W -> W.
Implicit Types (fn : Operation W T) (p : t) (w : W) (r : Run W T).

Lemma calls_app (tr1 tr2 : list (Event T)) :
  calls (tr1 ++ tr2) = calls tr1 ++ calls tr2.
Proof. apply flat_map_app. Qed.

Lemma sleeps_app (tr1 tr2 : list (Event T)) :
  sleeps (tr1 ++ tr2) = sleeps tr1 ++ sleeps tr2.
Proof. apply flat_map_app. Qed.

Lemma calls_rounds errors : forall delays,
  length delays = length errors ->
  calls (rounds (T := T) errors delays) = map Rejected errors.
Proof.
  induction errors as [|e errors IH]; intros [|d delays] Hlen;
    simpl in *; try reflexivity; try discriminate.
  f_equal. apply IH. lia.
Qed.

Lemma sleeps_rounds errors : forall delays,
  length delays = length errors ->
  sleeps (rounds (T := T) errors delays) = delays.
Proof.
  induction errors as [|e errors IH]; intros [|d delays] Hlen;
    simpl in *; try reflexivity; try discriminate.
  f_equal. apply IH. lia.
Qed.

Lemma backoff_delays multiplier cap d n :
  map (backoff multiplier cap d) (seq 0 (S n))
  = d :: map (backoff multiplier cap (Z.min (d * multiplier) cap)) (seq 0 n).
Proof.
  simpl. f_equal. rewrite <- seq_shift, map_map. reflexivity.
Qed.

(** The loop never runs out of the fuel [execute] gives it. *)
Lemma attempts_enough_fuel fn fuel : forall attempt d lastError w p,
  (Z.to_nat (maxRetries p + 2 - attempt) <= fuel)%nat ->
  exists r, attempts sleep fn fuel attempt d lastError w p = Some r.
Proof.
  induction fuel as [|fuel IH]; intros attempt d lastError w p Hfuel.
  - simpl. destruct (Z.leb_spec attempt (maxRetries p + 1)); [lia|].
    eexists. reflexivity.
  - simpl. destruct (Z.leb_spec attempt (maxRetries p + 1)) as [Hin | Hout];
      [|eexists; reflexivity].
    destruct (fn w) as [[v | e |] w1];
      [eexists; reflexivity | | eexists; reflexivity].
    destruct (Z.ltb_spec (maxRetries p) attempt); [eexists; reflexivity|].
    edestruct IH as [r' Hr']; [|rewrite Hr'; eexists; reflexivity].
    simpl. lia.
Qed.

(** The shape of every run that enters the loop: some retry rounds whose
    sleeps follow the recurrence, then one last invocation, which decides
    the completion. *)
Lemma attempts_trace fn fuel : forall attempt d lastError w p r,
  attempt <= maxRetries p + 1 ->
  attempts sleep fn fuel attempt d lastError w p = Some r ->
  exists errors o w_last,
    trace r
    = rounds errors
        (map (backoff (backoffMultiplier p) (maxDelay p) d)
             (seq 0 (length errors)))
      ++ [Called o] /\
    attempt + len errors <= maxRetries p + 1 /\
    fn w_last = (o, world r) /\
    match o with
    | Resolved v => completion r = Return v
    | Rejected e =>
        completion r = Throw (Some e) /\
        attempt + len errors = maxRetries p + 1
    | RejectedNullish => completion r = Throw (Some undefinedMessageError)
    end /\
    totalAttempts (stats (policy r))
    = totalAttempts (stats p) + len errors + 1.
Proof.
  unfold len.
  induction fuel as [|fuel IH]; intros attempt d lastError w p r Hin Hrun.
  - simpl in Hrun. destruct (Z.leb_spec attempt (maxRetries p + 1)); [|lia].
    discriminate.
  - simpl in Hrun. destruct (Z.leb_spec attempt (maxRetries p + 1)); [|lia].
    destruct (fn w) as [[v | e |] w1] eqn:Hfn.
    + inversion Hrun; subst r; clear Hrun.
      exists [], (Resolved v), w. simpl.
      repeat split; try lia; try assumption.
      destruct (1 <? attempt); simpl; lia.
    + destruct (Z.ltb_spec (maxRetries p) attempt) as [Hlast | Hmore].
      * inversion Hrun; subst r; clear Hrun.
        exists [], (Rejected e), w. simpl.
        repeat split; try lia; try assumption.
      * destruct (attempts sleep fn fuel (attempt + 1) _ _ _ _) as [r'|] eqn:Hrec;
          [|discriminate].
        inversion Hrun; subst r; clear Hrun.
        apply IH in Hrec; [|simpl; lia].
        destruct Hrec as (errors & o & w_last & Htr & Hcnt & Hlast & Hdone & Htot).
        simpl in Htr, Hcnt, Htot.
        exists (e :: errors), o, w_last.
        split.
        { simpl trace. rewrite Htr.
          change (length (e :: errors)) with (S (length errors)).
          rewrite backoff_delays. reflexivity. }
        simpl length. split; [lia|]. split; [exact Hlast|]. split.
        { destruct o; simpl in *; [assumption | | assumption].
          split; [apply Hdone | lia]. }
        simpl. lia.
    + inversion Hrun; subst r; clear Hrun.
      exists [], RejectedNullish, w. simpl.
      repeat split; try lia; try assumption.
Qed.

Lemma rounds_only_failures errors : forall delays v,
  ~ In (Called (Resolved v)) (rounds (T := T) errors delays).
Proof.
  induction errors as [|e errors IH]; intros [|d delays] v Hin;
    simpl in Hin; try contradiction.
  destruct Hin as [H | [H | H]]; try discriminate.
  exact (IH delays v H).
Qed.

Lemma last_event_unique {A : Type} (body before later : list A) (x y : A) :
  body ++ [x] = before ++ y :: later ->
  ~ In y body ->
  later = [] /\ x = y.
Proof.
  intros Heq Hnotin.
  destruct later as [|z later'] using rev_ind.
  - apply app_inj_tail in Heq. tauto.
  - exfalso. apply Hnotin.
    rewrite app_comm_cons, app_assoc in Heq.
    apply app_inj_tail in Heq. destruct Heq as [-> _].
    apply in_or_app. right. left. reflexivity.
Qed.

(** [execute] when the bound leaves no attempt at all. *)
Lemma execute_no_attempt fn w p :
  maxRetries p + 1 < 1 ->
  execute sleep fn w p = Some (mkRun (Throw None) p w []).
Proof.
  intros H. unfold execute.
  replace (Z.to_nat (maxRetries p + 1)) with 0%nat by lia.
  simpl. destruct (Z.leb_spec 1 (maxRetries p + 1)); [lia | reflexivity].
Qed.

Lemma execute_trace fn w p r :
  1 <= maxRetries p + 1 ->
  execute sleep fn w p = Some r ->
  exists errors o w_last,
    trace r
    = rounds errors
        (map (backoff (backoffMultiplier p) (maxDelay p) (delay p))
             (seq 0 (length errors)))
      ++ [Called o] /\
    1 + len errors <= maxRetries p + 1 /\
    fn w_last = (o, world r) /\
    match o with
    | Resolved v => completion r = Return v
    | Rejected e =>
        completion r = Throw (Some e) /\ 1 + len errors = maxRetries p + 1
    | RejectedNullish => completion r = Throw (Some undefinedMessageError)
    end /\
    totalAttempts (stats (policy r))
    = totalAttempts (stats p) + len errors + 1.
Proof.
  intros Hin Hrun. unfold execute in Hrun.
  eapply attempts_trace; eassumption.
Qed.

(** Against an operation that always fails, every allowed attempt is
    made and the last error is the one thrown. *)
Lemma execute_exhausts fn w p :
  0 <= maxRetries p ->
  always_fails fn ->
  exists r e w_last,
    execute sleep fn w p = Some r /\
    len (calls (trace r)) = maxRetries p + 1 /\
    totalAttempts (stats (policy r))
    = totalAttempts (stats p) + (maxRetries p + 1) /\
    completion r = Throw (Some e) /\
    fn w_last = (Rejected e, world r) /\
    last (trace r) (Slept 0) = Called (Rejected e).
Proof.
  intros Hmax Hfail.
  destruct (attempts_enough_fuel fn (Z.to_nat (maxRetries p + 1))
              1 (delay p) None w p) as [r Hr]; [lia|].
  fold (execute sleep fn w p) in Hr.
  destruct (execute_trace fn w p r) as
      (errors & o & w_last & Htr & Hcnt & Hlast & Hdone & Htot);
    [lia | exact Hr |].
  destruct o as [v | e |];
    [destruct (Hfail w_last) as (e' & w' & He'); congruence | |
     destruct (Hfail w_last) as (e' & w' & He'); congruence].
  destruct Hdone as [Hthrow Hexact].
  exists r, e, w_last.
  split; [exact Hr|]. split.
  { rewrite Htr, calls_app, calls_rounds by (rewrite length_map, length_seq; reflexivity).
    unfold len in *. rewrite length_app, length_map. simpl. lia. }
  split; [lia|]. split; [exact Hthrow|]. split; [exact Hlast|].
  rewrite Htr. apply last_last.
Qed.

End Runs.

(** Retrying until the bound.  [execute] always completes.  With
    [maxRetries >= 0] and an operation that rejects with an object on
    every invocation it invokes the operation exactly [maxRetries + 1]
    times and then throws the very error the last invocation produced.
    In any run, an invocation that succeeds is the last event of the run
    and its value is what [execute] returns. *)
Theorem execute_retries_until_exhausted
        (W T : Type) (sleep : Z -> W -> W) :
  (forall (fn : Operation W T) w p, exists r, execute sleep fn w p = Some r) /\
  (forall (fn : Operation W T) w p,
     0 <= maxRetries p ->
     always_fails fn ->
     exists r e w_last,
       execute sleep fn w p = Some r /\
       len (calls (trace r)) = maxRetries p + 1 /\
       totalAttempts (stats (policy r))
       = totalAttempts (stats p) + (maxRetries p + 1) /\
       completion r = Throw (Some e) /\
       fn w_last = (Rejected e, world r) /\
       last (trace r) (Slept 0) = Called (Rejected e)) /\
  (forall (fn : Operation W T) w p r before v later,
     execute sleep fn w p = Some r ->
     trace r = before ++ Called (Resolved v) :: later ->
     completion r = Return v /\ later = []).
Proof.
  split; [|split].
  - intros fn w p. apply attempts_enough_fuel. lia.
  - intros fn w p. apply execute_exhausts.
  - intros fn w p r before v later Hr Htr.
    destruct (Z.lt_ge_cases (maxRetries p + 1) 1) as [Hnone | Hsome].
    + rewrite execute_no_attempt in Hr by assumption.
      inversion Hr; subst r. simpl in Htr.
      apply app_cons_not_nil in Htr. contradiction.
    + destruct (execute_trace sleep fn w p r) as
          (errors & o & w_last & Htr' & _ & _ & Hdone & _);
        [lia | exact Hr |].
      rewrite Htr' in Htr.
      apply last_event_unique in Htr; [|apply rounds_only_failures].
      destruct Htr as [-> Ho]. inversion Ho; subst o.
      split; [exact Hdone | reflexivity].
Qed.

(** The default policy against a dependency that is down, and against
    one that recovers on the third attempt. *)
Lemma execute_retries_until_exhausted_witness :
  (exists r e w_last,
     execute no_sleep_effect down 0%nat (new no_options) = Some r /\
     len (calls (trace r)) = 3 + 1 /\
     totalAttempts (stats (policy r)) = 0 + (3 + 1) /\
     completion r = Throw (Some e) /\
     down w_last = (Rejected e, world r) /\
     last (trace r) (Slept 0) = Called (Rejected e)) /\
  (execute no_sleep_effect recovers 0%nat (new no_options)
   = Some recovered_run /\
   completion recovered_run = Return "product"%string /\
   @nil (Event string) = []).
Proof.
  destruct (execute_retries_until_exhausted nat string no_sleep_effect)
    as (_ & Hexhaust & Hsuccess).
  split.
  - apply (Hexhaust down 0%nat (new no_options)).
    + simpl. lia.
    + intros w. eexists. eexists. reflexivity.
  - split; [vm_compute; reflexivity|].
    apply (Hsuccess recovers 0%nat (new no_options) recovered_run
                    recovered_rounds "product"%string []).
    + vm_compute. reflexivity.
    + reflexivity.
Defined.

(** A rejection with [undefined] or [null] at the first attempt. *)
Lemma execute_nullish {W T : Type} (sleep : Z -> W -> W)
      (fn : Operation W T) w w' p :
  0 <= maxRetries p ->
  fn w = (RejectedNullish, w') ->
  execute sleep fn w p
  = Some (mkRun (Throw (Some undefinedMessageError))
                (with_stats bump_totalAttempts p) w'
                [Called RejectedNullish]).
Proof.
  intros Hmax Hfn. unfold execute.
  destruct (Z.to_nat (maxRetries p + 1)) as [|fuel] eqn:Hfuel; [lia|].
  simpl. destruct (Z.leb_spec 1 (maxRetries p + 1)); [|lia].
  rewrite Hfn. reflexivity.
Qed.

(** C3 on the code.  The [catch] block of [execute] reads
    [error.message] for its log line before it tests
    [attempt > this.maxRetries].  An operation that rejects with
    [undefined] or [null] is therefore invoked once, whatever
    [maxRetries] is: [execute] throws the [TypeError] of that read, not
    what the operation rejected with, sleeps and retries nothing, and
    does not count a failure after retries.  Under the default policy,
    which allows four attempts, an operation that fails on every
    invocation in this way is invoked once. *)
Theorem nullish_rejection_is_not_retried :
  (forall (W T : Type) (sleep : Z -> W -> W) (fn : Operation W T) w w' p,
     0 <= maxRetries p ->
     fn w = (RejectedNullish, w') ->
     execute sleep fn w p
     = Some (mkRun (Throw (Some undefinedMessageError))
                   (with_stats bump_totalAttempts p) w'
                   [Called RejectedNullish])) /\
  maxRetries (new no_options) + 1 = 4 /\
  execute no_sleep_effect rejects_undefined 0%nat (new no_options)
  = Some (mkRun (Throw (Some undefinedMessageError))
                (mk 3 1000 2 10000 (mkStats 1 0 0)) 1%nat
                [Called RejectedNullish]).
Proof.
  split; [|split; reflexivity].
  intros W T sleep fn w w' p. apply execute_nullish.
Qed.

Lemma nullish_rejection_is_not_retried_witness :
  execute no_sleep_effect rejects_undefined 7%nat
          (new (mkOptions (Some 5) None None None))
  = Some (mkRun (Throw (Some undefinedMessageError))
                (with_stats bump_totalAttempts
                            (new (mkOptions (Some 5) None None None)))
                8%nat [Called RejectedNullish]).
Proof.
  apply (proj1 nullish_rejection_is_not_retried).
  - simpl. lia.
  - reflexivity.
Defined.

(** The loop's delays against the closed forms. *)
Lemma backoff_is_delay_before_retry p (i : nat) :
  1 <= backoffMultiplier p -> 0 <= maxDelay p ->
  backoff (backoffMultiplier p) (maxDelay p) (delay p) i
  = delay_before_retry p (Z.of_nat i + 1).
Proof.
  intros Hm Hcap. unfold delay_before_retry.
  destruct i as [|i].
  - reflexivity.
  - rewrite backoff_closed_form by assumption.
    destruct (Z.eqb_spec (Z.of_nat (S i) + 1) 1); [lia|].
    replace (Z.of_nat (S i) + 1 - 1) with (Z.of_nat (S i)) by lia.
    reflexivity.
Qed.

Lemma delay_before_retry_capped p n :
  delay p <= maxDelay p -> 1 <= n ->
  delay_before_retry p n = capped_backoff p n.
Proof.
  intros Hle Hn. unfold delay_before_retry, capped_backoff.
  destruct (Z.eqb_spec n 1) as [-> | _]; [|reflexivity].
  simpl. rewrite Z.mul_1_r, Z.min_l by assumption. reflexivity.
Qed.

(** C7, as stated, fails: [slow_start] sleeps 20000 ms before the second
    attempt, not [min (20000 * 2 ^ 0) 10000 = 10000]. *)
Lemma capped_from_first_delay_counterexample :
  ~ (forall (p : t) (fn : Operation nat string) w r n,
       execute no_sleep_effect fn w p = Some r ->
       1 <= n <= len (sleeps (trace r)) ->
       nth_error (sleeps (trace r)) (Z.to_nat (n - 1))
       = Some (capped_backoff p n)).
Proof.
  intros Hclaim.
  assert (Hrun : exists r,
             execute no_sleep_effect down 0%nat slow_start = Some r /\
             sleeps (trace r) = [20000; 10000; 10000])
    by (eexists; split; vm_compute; reflexivity).
  destruct Hrun as (r & Hr & Hsleeps).
  specialize (Hclaim slow_start down 0%nat r 1 Hr).
  rewrite Hsleeps in Hclaim.
  assert (Hn : 1 <= 1 <= len [20000; 10000; 10000])
    by (vm_compute; split; discriminate).
  apply Hclaim in Hn. vm_compute in Hn. discriminate.
Qed.

(** C7, amended.  For a policy with [backoffMultiplier >= 1] and
    [maxDelay >= 0], every run of [execute] sleeps once after each failed
    attempt but the last one made (at most [maxRetries] times, and exactly
    [maxRetries] times when every attempt fails).  The delay slept before
    retry attempt [n + 1] is [delay] itself for [n = 1], not capped, and
    [min (delay * backoffMultiplier ^ (n - 1)) maxDelay] for [n >= 2]; the
    two agree for every [n] when [delay <= maxDelay]. *)
Theorem retry_delays_follow_backoff
        (W T : Type) (sleep : Z -> W -> W)
        (fn : Operation W T) (w : W) (p : t) (r : Run W T) :
  1 <= backoffMultiplier p ->
  0 <= maxDelay p ->
  execute sleep fn w p = Some r ->
  (trace r = [] \/ len (calls (trace r)) = len (sleeps (trace r)) + 1) /\
  len (sleeps (trace r)) <= Z.max 0 (maxRetries p) /\
  (always_fails fn -> 0 <= maxRetries p ->
   len (sleeps (trace r)) = maxRetries p) /\
  (forall n, 1 <= n <= len (sleeps (trace r)) ->
     nth_error (sleeps (trace r)) (Z.to_nat (n - 1))
     = Some (delay_before_retry p n) /\
     exists e, nth_error (calls (trace r)) (Z.to_nat (n - 1))
               = Some (Rejected e)) /\
  (delay p <= maxDelay p ->
   forall n, 1 <= n -> delay_before_retry p n = capped_backoff p n).
Proof.
  intros Hm Hcap Hr.
  assert (Hclosed : delay p <= maxDelay p ->
            forall n, 1 <= n -> delay_before_retry p n = capped_backoff p n)
    by (intros; apply delay_before_retry_capped; assumption).
  destruct (Z.lt_ge_cases (maxRetries p + 1) 1) as [Hnone | Hsome].
  - rewrite execute_no_attempt in Hr by assumption.
    inversion Hr; subst r. simpl. unfold len. simpl.
    repeat split; try lia; try assumption; auto.
  - destruct (execute_trace sleep fn w p r) as
        (errors & o & w_last & Htr & Hcnt & Hlast & Hdone & _);
      [lia | exact Hr |].
    set (delays := map (backoff (backoffMultiplier p) (maxDelay p) (delay p))
                       (seq 0 (length errors))) in *.
    assert (Hlen : length delays = length errors)
      by (unfold delays; rewrite length_map, length_seq; reflexivity).
    assert (Hsleeps : sleeps (trace r) = delays).
    { rewrite Htr, sleeps_app, sleeps_rounds by exact Hlen.
      simpl. apply app_nil_r. }
    assert (Hcalls : calls (trace r) = map Rejected errors ++ [o]).
    { rewrite Htr, calls_app, calls_rounds by exact Hlen. reflexivity. }
    rewrite Hsleeps, Hcalls. unfold len in *.
    rewrite length_app, length_map, Hlen. simpl length.
    split; [right; lia|]. split; [lia|]. split; [|split; [|exact Hclosed]].
    + intros Hfail Hmax. destruct o as [v | e |].
      * destruct (Hfail w_last) as (e' & w' & He'). congruence.
      * lia.
      * destruct (Hfail w_last) as (e' & w' & He'). congruence.
    + intros n Hn.
      assert (Hi : (Z.to_nat (n - 1) < length errors)%nat) by lia.
      split.
      * unfold delays. rewrite nth_error_map, nth_error_seq.
        apply Nat.ltb_lt in Hi. rewrite Hi. simpl. f_equal.
        rewrite backoff_is_delay_before_retry by assumption.
        f_equal. lia.
      * rewrite nth_error_app1 by (rewrite length_map; exact Hi).
        rewrite nth_error_map.
        destruct (nth_error errors (Z.to_nat (n - 1))) as [e|] eqn:He.
        { exists e. reflexivity. }
        { apply nth_error_None in He. lia. }
Qed.

(** The run of [slow_start] against the dependency that is down: three
    sleeps, the first of them the uncapped 20000 ms; and the default
    policy, whose first delay is under the cap. *)
Lemma retry_delays_follow_backoff_witness :
  (len (sleeps (trace slow_start_run)) = maxRetries slow_start /\
   nth_error (sleeps (trace slow_start_run)) (Z.to_nat (1 - 1))
   = Some (delay_before_retry slow_start 1) /\
   nth_error (sleeps (trace slow_start_run)) (Z.to_nat (3 - 1))
   = Some (delay_before_retry slow_start 3)) /\
  delay_before_retry (new no_options) 1 = capped_backoff (new no_options) 1.
Proof.
  split.
  - destruct (retry_delays_follow_backoff nat string no_sleep_effect down
                0%nat slow_start slow_start_run)
      as (_ & _ & Hcount & Hdelay & _).
    + simpl. lia.
    + simpl. lia.
    + vm_compute. reflexivity.
    + split; [|split].
      * apply Hcount; [|simpl; lia].
        intros w. eexists. eexists. reflexivity.
      * apply (Hdelay 1). vm_compute. split; discriminate.
      * apply (Hdelay 3). vm_compute. split; discriminate.
  - destruct (retry_delays_follow_backoff nat string no_sleep_effect recovers
                0%nat (new no_options) recovered_run)
      as (_ & _ & _ & _ & Hclosed).
    + simpl. lia.
    + simpl. lia.
    + vm_compute. reflexivity.
    + apply Hclosed; [simpl|]; lia.
Defined.

End RetryPatternFacts.


(** ** Bulkhead *)

Module BulkheadFacts.
Import Js Bulkhead.

(** *** The queue as a list of distinct requests *)

Lemma decided_app ns1 ns2 : decided (ns1 ++ ns2) = decided ns1 ++ decided ns2.
Proof. apply flat_map_app. Qed.

Lemma splice1_no_longer index : forall q,
  (length (splice1 index q) <= length q)%nat.
Proof.
  induction index as [|i IH]; intros [|r q]; simpl; try lia.
  specialize (IH q). lia.
Qed.

Lemma other_than_keeps_rest call (q : list Request) :
  ~ In call (map rid q) -> filter (other_than call) q = q.
Proof.
  intros Hnotin. apply filter_keeps_all. apply Forall_forall.
  intros r Hr. unfold other_than. apply negb_true_iff, Nat.eqb_neq.
  intros Heq. apply Hnotin. rewrite <- Heq. apply in_map. exact Hr.
Qed.

Lemma other_than_drops_head r (rest : list Request) :
  NoDup (map rid (r :: rest)) ->
  filter (other_than (rid r)) (r :: rest) = rest.
Proof.
  intros Hnd. inversion Hnd as [|? ? Hnotin _]; subst.
  simpl. unfold other_than at 1. rewrite Nat.eqb_refl. simpl.
  apply other_than_keeps_rest. exact Hnotin.
Qed.

(** On a queue of distinct requests, [indexOf] followed by [splice]
    removes exactly the request looked for. *)
Lemma indexOf_splice call : forall q,
  NoDup (map rid q) ->
  In call (map rid q) ->
  exists index,
    indexOf call q = Some index /\
    splice1 index q = filter (other_than call) q.
Proof.
  induction q as [|r q IH]; simpl; intros Hnd Hin; [contradiction|].
  inversion Hnd as [|? ? Hnotin Hnd']; subst.
  unfold other_than at 1.
  destruct (Nat.eqb_spec (rid r) call) as [Heq | Hne].
  - exists 0%nat. split; [reflexivity|]. simpl.
    symmetry. apply other_than_keeps_rest. rewrite <- Heq. exact Hnotin.
  - destruct Hin as [Heq | Hin]; [contradiction|].
    destruct (IH Hnd' Hin) as (index & Hidx & Hsplice).
    exists (S index). rewrite Hidx. split; [reflexivity|].
    simpl. rewrite Hsplice. reflexivity.
Qed.

Lemma timers_without call wait (q : list Request) :
  filter (fun tm => negb (Nat.eqb (fst tm) call)) (map (timer_of wait) q)
  = map (timer_of wait) (filter (other_than call) q).
Proof.
  induction q as [|r q IH]; simpl; [reflexivity|].
  unfold other_than at 1.
  destruct (Nat.eqb (rid r) call); simpl; rewrite IH; reflexivity.
Qed.

Lemma rids_without call (q : list Request) c :
  In c (map rid (filter (other_than call) q)) ->
  In c (map rid q) /\ c <> call.
Proof.
  rewrite !in_map_iff. intros (r & Hr & Hin).
  apply filter_In in Hin. destruct Hin as [Hin Hkeep].
  unfold other_than in Hkeep. apply negb_true_iff, Nat.eqb_neq in Hkeep.
  split; [exists r; auto | congruence].
Qed.

Lemma rids_without_NoDup call (q : list Request) :
  NoDup (map rid q) -> NoDup (map rid (filter (other_than call) q)).
Proof.
  induction q as [|r q IH]; simpl; intros Hnd; [constructor|].
  inversion Hnd as [|? ? Hnotin Hnd']; subst.
  destruct (other_than call r); simpl; [|auto].
  constructor; [|auto].
  intros Hin. apply rids_without in Hin. tauto.
Qed.

(** *** What the event loop keeps true *)

Lemma NoDup_snoc {A : Type} (l : list A) (x : A) :
  NoDup l -> ~ In x l -> NoDup (l ++ [x]).
Proof.
  intros Hnd Hnotin. apply NoDup_app.
  - exact Hnd.
  - constructor; [intros [] | constructor].
  - intros a Ha [<- | []]. contradiction.
Qed.

Lemma consistent_init wait : consistent wait [] [] [] 0.
Proof.
  unfold consistent. simpl. repeat split; try constructor; contradiction.
Qed.

Lemma consistent_enqueue wait q ts ns next name now :
  consistent wait q ts ns next ->
  consistent wait (q ++ [mkRequest next name now])
             (ts ++ [(next, now + wait)]) ns (S next).
Proof.
  intros (H1 & H2 & H3 & H4 & H5 & H6).
  unfold consistent. rewrite !map_app. simpl.
  split; [|split; [|split; [|split; [|split]]]].
  - apply NoDup_snoc; [exact H1|]. intros Hin. apply H5 in Hin. lia.
  - rewrite H2. reflexivity.
  - exact H3.
  - intros c Hc. apply in_app_or in Hc. destruct Hc as [Hc | [<- | []]].
    + auto.
    + intros Hd. apply H6 in Hd. lia.
  - intros c Hc. apply in_app_or in Hc. destruct Hc as [Hc | [<- | []]].
    + apply H5 in Hc. lia.
    + lia.
  - intros c Hc. apply H6 in Hc. lia.
Qed.

(** A call that was never seen before is decided on arrival. *)
Lemma consistent_decide_new wait q ts ns next n :
  decided [n] = [next] ->
  consistent wait q ts ns next ->
  consistent wait q ts (ns ++ [n]) (S next).
Proof.
  intros Hn (H1 & H2 & H3 & H4 & H5 & H6).
  unfold consistent. rewrite decided_app, Hn.
  split; [|split; [|split; [|split; [|split]]]]; auto.
  - apply NoDup_snoc; [exact H3|]. intros Hin. apply H6 in Hin. lia.
  - intros c Hc Hd. apply in_app_or in Hd. destruct Hd as [Hd | [<- | []]].
    + exact (H4 c Hc Hd).
    + apply H5 in Hc. lia.
  - intros c Hc. apply H5 in Hc. lia.
  - intros c Hc. apply in_app_or in Hc. destruct Hc as [Hc | [<- | []]].
    + apply H6 in Hc. lia.
    + lia.
Qed.

(** The settlement of an operation decides nothing. *)
Lemma consistent_settled wait q ts ns next call ok :
  consistent wait q ts ns next ->
  consistent wait q ts (ns ++ [Settled call ok]) next.
Proof.
  unfold consistent. rewrite decided_app. simpl. rewrite app_nil_r. tauto.
Qed.

(** A queued call leaves the queue, loses its timer and is decided, all
    in one turn. *)
Lemma consistent_decide_queued wait q ts ns next call n :
  decided [n] = [call] ->
  In call (map rid q) ->
  consistent wait q ts ns next ->
  consistent wait (filter (other_than call) q)
             (filter (fun tm => negb (Nat.eqb (fst tm) call)) ts)
             (ns ++ [n]) next.
Proof.
  intros Hn Hin (H1 & H2 & H3 & H4 & H5 & H6).
  unfold consistent. rewrite decided_app, Hn.
  split; [|split; [|split; [|split; [|split]]]].
  - apply rids_without_NoDup. exact H1.
  - rewrite H2. apply timers_without.
  - apply NoDup_snoc; [exact H3|]. exact (H4 call Hin).
  - intros c Hc Hd. apply rids_without in Hc. destruct Hc as [Hc Hne].
    apply in_app_or in Hd. destruct Hd as [Hd | [Heq | []]].
    + exact (H4 c Hc Hd).
    + congruence.
  - intros c Hc. apply rids_without in Hc. apply H5. tauto.
  - intros c Hc. apply in_app_or in Hc. destruct Hc as [Hc | [<- | []]].
    + apply H6. exact Hc.
    + apply H5. exact Hin.
Qed.

Lemma consistent_emptied wait q ts ns next :
  consistent wait q ts ns next -> consistent wait [] [] ns next.
Proof.
  intros (H1 & H2 & H3 & H4 & H5 & H6).
  unfold consistent. simpl.
  repeat split; try constructor; try assumption; try contradiction.
Qed.

(** *** The turns preserve consistency *)

Lemma inv_init options : inv (init options).
Proof. apply consistent_init. Qed.

Lemma inv_execute opName now s : inv s -> inv (snd (execute opName now s)).
Proof.
  unfold inv, execute. intros Hinv. simpl.
  destruct (currentConcurrent (bulkhead s) <? maxConcurrent (bulkhead s)).
  - unfold executeWithSlot. simpl.
    destruct (currentConcurrent (bulkhead s) + 1 =? maxConcurrent (bulkhead s));
      simpl; apply consistent_decide_new; auto.
  - destruct (queueSize (bulkhead s) <=? len (queue (bulkhead s))); simpl.
    + apply consistent_decide_new; auto.
    + apply consistent_enqueue. exact Hinv.
Qed.

Lemma inv_releaseSlot s : inv s -> inv (releaseSlot s).
Proof.
  unfold inv, releaseSlot. intros Hinv.
  destruct ((0 <? len (queue (bulkhead s)))
            && (currentConcurrent (bulkhead s) <? maxConcurrent (bulkhead s)));
    [|exact Hinv].
  destruct (queue (bulkhead s)) as [|request rest] eqn:Hq; [rewrite Hq; exact Hinv|].
  assert (Hnd : NoDup (map rid (request :: rest))) by apply Hinv.
  apply (consistent_decide_queued _ _ _ _ _ (rid request) (Invoked (rid request)))
    in Hinv; [|reflexivity|simpl; auto].
  rewrite other_than_drops_head in Hinv by exact Hnd.
  unfold executeWithSlot, clearTimeout. simpl.
  destruct (currentConcurrent (bulkhead s) + 1 =? maxConcurrent (bulkhead s));
    simpl; exact Hinv.
Qed.

Lemma inv_finishWithSlot call ok l s :
  inv s -> inv (finishWithSlot call ok (set_inflight l s)).
Proof.
  intros Hinv. unfold finishWithSlot.
  apply consistent_settled. fold (inv (releaseSlot
    (on_bulkhead (fun b => set_currentConcurrent (currentConcurrent b - 1) b)
       (if ok then on_bulkhead (with_stats bump_successful) (set_inflight l s)
        else set_inflight l s)))).
  apply inv_releaseSlot. destruct ok; exact Hinv.
Qed.

(** A timer that is due belongs to a request that is still queued and has
    waited for [maxWait]. *)
Lemma due_is_queued call now s :
  inv s ->
  due call now s = true ->
  exists req,
    In req (queue (bulkhead s)) /\ rid req = call /\
    timestamp req + maxWait (bulkhead s) <= now.
Proof.
  intros (_ & Hts & _) Hdue. unfold due in Hdue.
  apply existsb_exists in Hdue. destruct Hdue as (tm & Hin & Hcond).
  apply andb_true_iff in Hcond. destruct Hcond as [Hid Hwhen].
  apply Nat.eqb_eq in Hid. apply Z.leb_le in Hwhen.
  rewrite Hts in Hin. apply in_map_iff in Hin.
  destruct Hin as (req & <- & Hreq).
  exists req. simpl in *. auto.
Qed.

Lemma onTimeout_queued call opName s :
  inv s ->
  In call (map rid (queue (bulkhead s))) ->
  let s' := onTimeout call opName (clearTimeout call s) in
  queue (bulkhead s') = filter (other_than call) (queue (bulkhead s)) /\
  timers s' = filter (fun tm => negb (Nat.eqb (fst tm) call)) (timers s) /\
  notices s' = notices s ++ [Refused call (timeoutError (bulkhead s) opName)] /\
  nextCall s' = nextCall s /\
  maxWait (bulkhead s') = maxWait (bulkhead s) /\
  queueSize (bulkhead s') = queueSize (bulkhead s).
Proof.
  intros Hinv Hin s'. subst s'. unfold onTimeout. simpl.
  destruct (indexOf_splice call (queue (bulkhead s))) as (index & Hidx & Hsplice);
    [apply Hinv | exact Hin |].
  rewrite Hidx. simpl. rewrite Hsplice. repeat split; reflexivity.
Qed.

Lemma inv_onTimeout call now opName s :
  inv s -> due call now s = true ->
  inv (onTimeout call opName (clearTimeout call s)).
Proof.
  intros Hinv Hdue.
  destruct (due_is_queued call now s Hinv Hdue) as (req & Hreq & Hid & _).
  assert (Hin : In call (map rid (queue (bulkhead s))))
    by (rewrite <- Hid; apply in_map; exact Hreq).
  destruct (onTimeout_queued call opName s Hinv Hin)
    as (Hq & Hts & Hns & Hnext & Hwait & _).
  unfold inv. rewrite Hq, Hts, Hns, Hnext, Hwait.
  apply consistent_decide_queued; [reflexivity | exact Hin | exact Hinv].
Qed.

(** [reset] cancels the timer of every queued request. *)
Lemma clear_all_timers (q : list Request) : forall s,
  let s' := fold_left (fun acc req => clearTimeout (rid req) acc) q s in
  bulkhead s' = bulkhead s /\ notices s' = notices s /\
  nextCall s' = nextCall s /\
  ((forall tm, In tm (timers s) -> In (fst tm) (map rid q)) -> timers s' = []).
Proof.
  induction q as [|r q IH]; intros s; simpl.
  - repeat split. intros Hall. destruct (timers s) as [|tm ts]; [reflexivity|].
    destruct (Hall tm). left. reflexivity.
  - destruct (IH (clearTimeout (rid r) s)) as (Hb & Hn & Hx & Hts).
    simpl in *. rewrite Hb, Hn, Hx. repeat split.
    intros Hall. apply Hts. intros tm Htm.
    apply filter_In in Htm. destruct Htm as [Htm Hkeep].
    apply negb_true_iff, Nat.eqb_neq in Hkeep.
    destruct (Hall tm Htm) as [Heq | Hin]; [congruence | exact Hin].
Qed.

Lemma inv_reset s : inv s -> inv (reset s).
Proof.
  intros Hinv. unfold inv, reset.
  destruct (clear_all_timers (queue (bulkhead s))
              (on_bulkhead (set_currentConcurrent 0) s))
    as (Hb & Hn & Hx & Hts).
  simpl in *. rewrite Hb, Hn, Hx, Hts.
  - simpl. eapply consistent_emptied. exact Hinv.
  - intros tm Htm. destruct Hinv as (_ & Heq & _).
    rewrite Heq in Htm. apply in_map_iff in Htm.
    destruct Htm as (req & <- & Hreq). simpl. apply in_map. exact Hreq.
Qed.

Lemma inv_step s turn : inv s -> inv (step s turn).
Proof.
  intros Hinv. destruct turn as [opName now | call ok | call now |]; simpl.
  - apply inv_execute. exact Hinv.
  - destruct (existsb (Nat.eqb call) (inflight s)); [|exact Hinv].
    apply inv_finishWithSlot. exact Hinv.
  - destruct (due call now s) eqn:Hdue; [|exact Hinv].
    eapply inv_onTimeout; eassumption.
  - apply inv_reset. exact Hinv.
Qed.

Lemma inv_run turns : forall s, inv s -> inv (run turns s).
Proof.
  induction turns as [|turn turns IH]; intros s Hinv; simpl.
  - exact Hinv.
  - apply IH, inv_step, Hinv.
Qed.

(** *** The queue never outgrows [queueSize] *)

Lemma bounded_execute opName now s :
  bounded s ->
  bounded (snd (execute opName now s)) /\
  queueSize (bulkhead (snd (execute opName now s))) = queueSize (bulkhead s).
Proof.
  unfold bounded, execute. intros Hb. simpl.
  destruct (currentConcurrent (bulkhead s) <? maxConcurrent (bulkhead s)).
  - unfold executeWithSlot. simpl.
    destruct (currentConcurrent (bulkhead s) + 1 =? maxConcurrent (bulkhead s));
      simpl; auto.
  - destruct (Z.leb_spec (queueSize (bulkhead s)) (len (queue (bulkhead s))));
      simpl; [auto|].
    split; [|reflexivity]. unfold len in *. rewrite length_app. simpl. lia.
Qed.

Lemma bounded_releaseSlot s :
  bounded s ->
  bounded (releaseSlot s) /\
  queueSize (bulkhead (releaseSlot s)) = queueSize (bulkhead s).
Proof.
  unfold bounded, releaseSlot. intros Hb.
  destruct ((0 <? len (queue (bulkhead s)))
            && (currentConcurrent (bulkhead s) <? maxConcurrent (bulkhead s)));
    [|auto].
  destruct (queue (bulkhead s)) as [|request rest] eqn:Hq;
    [rewrite Hq; auto|].
  unfold executeWithSlot, clearTimeout. simpl.
  unfold len in *. simpl length in Hb.
  destruct (currentConcurrent (bulkhead s) + 1 =? maxConcurrent (bulkhead s));
    simpl; split; try reflexivity; lia.
Qed.

Lemma bounded_step s turn :
  bounded s ->
  bounded (step s turn) /\
  queueSize (bulkhead (step s turn)) = queueSize (bulkhead s).
Proof.
  intros Hb. destruct turn as [opName now | call ok | call now |]; simpl.
  - apply bounded_execute. exact Hb.
  - destruct (existsb (Nat.eqb call) (inflight s)); [|auto].
    unfold finishWithSlot.
    set (s2 := on_bulkhead _ _).
    destruct (bounded_releaseSlot s2) as [Hb' Hq'].
    { unfold s2. destruct ok; exact Hb. }
    unfold bounded in *. simpl. split; [exact Hb'|].
    rewrite Hq'. unfold s2. destruct ok; reflexivity.
  - destruct (due call now s); [|auto].
    unfold onTimeout. simpl.
    destruct (indexOf call (queue (bulkhead s))) as [index|]; [|auto].
    unfold bounded in *. simpl. split; [|reflexivity].
    pose proof (splice1_no_longer index (queue (bulkhead s))).
    unfold len in *. lia.
  - unfold reset.
    destruct (clear_all_timers (queue (bulkhead s))
                (on_bulkhead (set_currentConcurrent 0) s)) as (Hq & _).
    unfold bounded in *. simpl in *. rewrite Hq. simpl.
    split; [|reflexivity].
    unfold len in *. simpl. lia.
Qed.

Lemma bounded_run turns : forall s,
  bounded s ->
  bounded (run turns s) /\
  queueSize (bulkhead (run turns s)) = queueSize (bulkhead s).
Proof.
  induction turns as [|turn turns IH]; intros s Hb; simpl.
  - auto.
  - destruct (bounded_step s turn Hb) as [Hb' Hq'].
    destruct (IH (step s turn) Hb') as [Hb'' Hq''].
    split; [exact Hb'' | congruence].
Qed.

(** C8.  A call that arrives while [currentConcurrent >= maxConcurrent]
    and the queue holds [queueSize] entries (or more) fails in the same
    turn with an error whose code is BULKHEAD_FULL; it is neither enqueued
    nor invoked and arms no timer.  Hence, for a bulkhead built with a
    non-negative [queueSize], the queue is never longer than [queueSize],
    whatever turns the event loop takes. *)
Theorem full_bulkhead_rejects_without_enqueueing :
  (forall opName now s,
     maxConcurrent (bulkhead s) <= currentConcurrent (bulkhead s) ->
     queueSize (bulkhead s) <= len (queue (bulkhead s)) ->
     exists e,
       fst (execute opName now s) = Full e /\
       code e = Some "BULKHEAD_FULL"%string /\
       queue (bulkhead (snd (execute opName now s))) = queue (bulkhead s) /\
       currentConcurrent (bulkhead (snd (execute opName now s)))
       = currentConcurrent (bulkhead s) /\
       timers (snd (execute opName now s)) = timers s /\
       inflight (snd (execute opName now s)) = inflight s /\
       notices (snd (execute opName now s))
       = notices s ++ [Refused (nextCall s) e]) /\
  (forall options turns,
     0 <= queueSize (new options) ->
     len (queue (bulkhead (run turns (init options))))
     <= queueSize (new options)).
Proof.
  split.
  - intros opName now s Hslots Hqueue.
    exists (fullError (bulkhead s) opName).
    unfold execute. simpl.
    destruct (Z.ltb_spec (currentConcurrent (bulkhead s))
                         (maxConcurrent (bulkhead s))); [lia|].
    destruct (Z.leb_spec (queueSize (bulkhead s))
                         (len (queue (bulkhead s)))); [|lia].
    simpl. repeat split; reflexivity.
  - intros options turns Hsize.
    destruct (bounded_run turns (init options)) as [Hb Hq].
    { unfold bounded. simpl. exact Hsize. }
    unfold bounded in Hb. rewrite Hq in Hb. exact Hb.
Qed.

(** A third arrival at the saturated pool, and the queue of the pool
    after it and the settlement of the running call. *)
Lemma full_bulkhead_rejects_without_enqueueing_witness :
  (exists e,
     fst (execute "Pay-3" 1020 saturated) = Full e /\
     code e = Some "BULKHEAD_FULL"%string /\
     queue (bulkhead (snd (execute "Pay-3" 1020 saturated)))
     = queue (bulkhead saturated) /\
     currentConcurrent (bulkhead (snd (execute "Pay-3" 1020 saturated)))
     = currentConcurrent (bulkhead saturated) /\
     timers (snd (execute "Pay-3" 1020 saturated)) = timers saturated /\
     inflight (snd (execute "Pay-3" 1020 saturated)) = inflight saturated /\
     notices (snd (execute "Pay-3" 1020 saturated))
     = notices saturated ++ [Refused (nextCall saturated) e]) /\
  len (queue (bulkhead (run [Arrive "Pay-1" 1000; Arrive "Pay-2" 1010;
                             Arrive "Pay-3" 1020; Settle 0 true]
                            (init tiny))))
  <= queueSize (new tiny).
Proof.
  destruct full_bulkhead_rejects_without_enqueueing as [Hfull Hbound].
  split.
  - apply (Hfull "Pay-3"%string 1020 saturated).
    + vm_compute. discriminate.
    + vm_compute. discriminate.
  - apply (Hbound tiny).
    vm_compute. discriminate.
Defined.

(** *** One decision per queued call *)

Lemma resolutions_app call ns1 ns2 :
  resolutions call (ns1 ++ ns2)
  = resolutions call ns1 ++ resolutions call ns2.
Proof. apply filter_app. Qed.

Lemma resolutions_undecided call ns :
  ~ In call (decided ns) -> resolutions call ns = [].
Proof.
  induction ns as [|n ns IH]; simpl; intros Hnotin; [reflexivity|].
  rewrite in_app_iff in Hnotin.
  destruct n as [c | c e | c ok]; simpl in *.
  - destruct (Nat.eqb_spec c call); [exfalso; auto|]. apply IH; tauto.
  - destruct (Nat.eqb_spec c call); [exfalso; auto|]. apply IH; tauto.
  - apply IH; tauto.
Qed.

Lemma resolutions_at_most_one call ns :
  NoDup (decided ns) -> (length (resolutions call ns) <= 1)%nat.
Proof.
  induction ns as [|n ns IH]; simpl; intros Hnd; [lia|].
  destruct n as [c | c e | c ok]; simpl in *.
  - inversion Hnd as [|? ? Hnotin Hnd']; subst.
    destruct (Nat.eqb_spec c call) as [-> | _]; [|apply IH; exact Hnd'].
    rewrite resolutions_undecided by exact Hnotin. simpl. lia.
  - inversion Hnd as [|? ? Hnotin Hnd']; subst.
    destruct (Nat.eqb_spec c call) as [-> | _]; [|apply IH; exact Hnd'].
    rewrite resolutions_undecided by exact Hnotin. simpl. lia.
  - apply IH. exact Hnd.
Qed.

Lemma refused_not_granted call e ns :
  NoDup (decided ns) -> In (Refused call e) ns -> ~ In (Invoked call) ns.
Proof.
  intros Hnd Hrefused Hgranted.
  pose proof (resolutions_at_most_one call ns Hnd) as Hlen.
  assert (H1 : In (Refused call e) (resolutions call ns))
    by (apply filter_In; split; [assumption | apply Nat.eqb_refl]).
  assert (H2 : In (Invoked call) (resolutions call ns))
    by (apply filter_In; split; [assumption | apply Nat.eqb_refl]).
  destruct (resolutions call ns) as [|n [|n' rest]]; simpl in *; try lia.
  destruct H1 as [-> | []]. destruct H2 as [H2 | []]. discriminate.
Qed.

Lemma executeWithSlot_notices call s :
  notices (executeWithSlot call s) = notices s ++ [Invoked call].
Proof.
  unfold executeWithSlot.
  destruct (currentConcurrent
              (bulkhead (on_bulkhead
                 (fun b => set_currentConcurrent (currentConcurrent b + 1) b) s))
            =? _); reflexivity.
Qed.

(** Notices are only ever appended. *)
Lemma releaseSlot_notices_grow s :
  exists more, notices (releaseSlot s) = notices s ++ more.
Proof.
  unfold releaseSlot.
  destruct ((0 <? len (queue (bulkhead s)))
            && (currentConcurrent (bulkhead s) <? maxConcurrent (bulkhead s)));
    [|exists []; symmetry; apply app_nil_r].
  destruct (queue (bulkhead s)) as [|request rest];
    [exists []; symmetry; apply app_nil_r|].
  exists [Invoked (rid request)]. rewrite executeWithSlot_notices. reflexivity.
Qed.

Lemma step_notices_grow s turn :
  exists more, notices (step s turn) = notices s ++ more.
Proof.
  destruct turn as [opName now | call ok | call now |]; simpl.
  - unfold execute. simpl.
    destruct (currentConcurrent (bulkhead s) <? maxConcurrent (bulkhead s)).
    + exists [Invoked (nextCall s)]. cbn [snd].
      rewrite executeWithSlot_notices. reflexivity.
    + destruct (queueSize (bulkhead s) <=? len (queue (bulkhead s))); simpl.
      * eexists. reflexivity.
      * exists []. symmetry. apply app_nil_r.
  - destruct (existsb (Nat.eqb call) (inflight s));
      [|exists []; symmetry; apply app_nil_r].
    unfold finishWithSlot. simpl.
    set (s2 := on_bulkhead _ _).
    destruct (releaseSlot_notices_grow s2) as [more Hmore].
    rewrite Hmore. exists (more ++ [Settled call ok]).
    rewrite app_assoc. f_equal. f_equal. unfold s2. destruct ok; reflexivity.
  - destruct (due call now s); [|exists []; symmetry; apply app_nil_r].
    unfold onTimeout. simpl.
    destruct (indexOf call (queue (bulkhead s)));
      [eexists; reflexivity | exists []; symmetry; apply app_nil_r].
  - unfold reset.
    destruct (clear_all_timers (queue (bulkhead s))
                (on_bulkhead (set_currentConcurrent 0) s)) as (_ & Hn & _).
    simpl in *. rewrite Hn. exists []. symmetry. apply app_nil_r.
Qed.

Lemma run_notices_grow turns : forall s,
  exists more, notices (run turns s) = notices s ++ more.
Proof.
  induction turns as [|turn turns IH]; intros s; simpl.
  - exists []. symmetry. apply app_nil_r.
  - destruct (step_notices_grow s turn) as [more1 H1].
    destruct (IH (step s turn)) as [more2 H2].
    exists (more1 ++ more2). rewrite H2, H1, app_assoc. reflexivity.
Qed.

(** The name the timer callback reports is the name of its request. *)
Lemma opNameOf_queued req : forall q,
  NoDup (map rid q) -> In req q ->
  opNameOf (rid req) q = operationName req.
Proof.
  unfold opNameOf.
  induction q as [|r q IH]; simpl; intros Hnd Hin; [contradiction|].
  inversion Hnd as [|? ? Hnotin Hnd']; subst.
  destruct (Nat.eqb_spec (rid r) (rid req)) as [Heq | Hne].
  - destruct Hin as [-> | Hin]; [reflexivity|].
    exfalso. apply Hnotin. rewrite Heq. apply in_map. exact Hin.
  - destruct Hin as [-> | Hin]; [congruence|]. apply IH; assumption.
Qed.

Lemma inv_reachable options turns : inv (run turns (init options)).
Proof. apply inv_run, inv_init. Qed.

(** *** Calls that wait, and calls that [reset] drops *)

Lemma releaseSlot_cases s :
  nextCall (releaseSlot s) = nextCall s /\
  (releaseSlot s = s \/
   exists request rest,
     queue (bulkhead s) = request :: rest /\
     queue (bulkhead (releaseSlot s)) = rest /\
     notices (releaseSlot s) = notices s ++ [Invoked (rid request)]).
Proof.
  unfold releaseSlot.
  destruct ((0 <? len (queue (bulkhead s)))
            && (currentConcurrent (bulkhead s) <? maxConcurrent (bulkhead s)));
    [|split; [reflexivity | left; reflexivity]].
  destruct (queue (bulkhead s)) as [|request rest] eqn:Hq;
    [split; [reflexivity | left; reflexivity]|].
  split.
  - unfold executeWithSlot. simpl.
    destruct (currentConcurrent (bulkhead s) + 1 =? maxConcurrent (bulkhead s));
      reflexivity.
  - right. exists request, rest. split; [reflexivity|].
    rewrite executeWithSlot_notices. split; [|reflexivity].
    unfold executeWithSlot. simpl.
    destruct (currentConcurrent (bulkhead s) + 1 =? maxConcurrent (bulkhead s));
      reflexivity.
Qed.

Lemma indexOf_is_queued call : forall q index,
  indexOf call q = Some index -> In call (map rid q).
Proof.
  induction q as [|r q IH]; simpl; intros index Hidx; [discriminate|].
  destruct (Nat.eqb_spec (rid r) call) as [Heq | Hne]; [left; exact Heq|].
  destruct (indexOf call q) as [i|]; [|discriminate].
  right. apply (IH i). reflexivity.
Qed.

Lemma splice1_keeps_others call : forall q index c,
  indexOf call q = Some index ->
  In c (map rid q) -> c = call \/ In c (map rid (splice1 index q)).
Proof.
  induction q as [|r q IH]; simpl; intros index c Hidx Hin; [contradiction|].
  destruct (Nat.eqb_spec (rid r) call) as [Heq | Hne].
  - inversion Hidx; subst index. simpl.
    destruct Hin as [Hc | Hc]; [left; congruence | right; exact Hc].
  - destruct (indexOf call q) as [i|] eqn:Hi; [|discriminate].
    inversion Hidx; subst index. simpl.
    destruct Hin as [Hc | Hc]; [right; left; exact Hc|].
    destruct (IH i c eq_refl Hc) as [Hcall | Hrest]; auto.
Qed.

Lemma splice1_adds_none : forall q index c,
  In c (map rid (splice1 index q)) -> In c (map rid q).
Proof.
  induction q as [|r q IH]; intros [|index] c Hin; simpl in *; auto.
  destruct Hin as [Hc | Hc]; [left; exact Hc | right; apply (IH index), Hc].
Qed.

Lemma decided_snoc ns n :
  decided (ns ++ [n]) = decided ns ++ decided [n].
Proof. apply decided_app. Qed.

(** As long as [reset] is not used no call gets lost. *)
Lemma tracked_step s turn :
  BulkheadApi.not_reset turn -> tracked s -> tracked (step s turn).
Proof.
  unfold tracked. intros Hturn Htr.
  destruct turn as [opName now | call ok | call now |]; simpl;
    [| | |contradiction].
  - unfold execute. simpl.
    destruct (currentConcurrent (bulkhead s) <? maxConcurrent (bulkhead s)).
    + cbn [snd]. intros c Hc.
      rewrite executeWithSlot_notices, decided_snoc, in_app_iff.
      assert (Hq : queue (bulkhead (executeWithSlot (nextCall s)
                     (on_bulkhead (with_stats bump_total)
                        (mkSystem (bulkhead s) (timers s) (inflight s)
                                  (S (nextCall s)) (notices s)))))
                   = queue (bulkhead s)).
      { unfold executeWithSlot. simpl.
        destruct (currentConcurrent (bulkhead s) + 1 =? maxConcurrent (bulkhead s));
          reflexivity. }
      assert (Hn : nextCall (executeWithSlot (nextCall s)
                     (on_bulkhead (with_stats bump_total)
                        (mkSystem (bulkhead s) (timers s) (inflight s)
                                  (S (nextCall s)) (notices s))))
                   = S (nextCall s)).
      { unfold executeWithSlot. simpl.
        destruct (currentConcurrent (bulkhead s) + 1 =? maxConcurrent (bulkhead s));
          reflexivity. }
      rewrite Hq. rewrite Hn in Hc. simpl notices.
      destruct (Nat.eq_dec c (nextCall s)) as [-> | Hne].
      * right. right. left. reflexivity.
      * destruct (Htr c) as [H | H]; [lia | auto | auto].
    + destruct (queueSize (bulkhead s) <=? len (queue (bulkhead s))); simpl;
        intros c Hc.
      * rewrite decided_snoc, in_app_iff.
        destruct (Nat.eq_dec c (nextCall s)) as [-> | Hne].
        -- right. right. left. reflexivity.
        -- destruct (Htr c) as [H | H]; [lia | auto | auto].
      * rewrite map_app, in_app_iff. simpl.
        destruct (Nat.eq_dec c (nextCall s)) as [-> | Hne].
        -- left. right. left. reflexivity.
        -- destruct (Htr c) as [H | H]; [lia | auto | auto].
  - destruct (existsb (Nat.eqb call) (inflight s)); [|exact Htr].
    unfold finishWithSlot.
    set (s2 := on_bulkhead _ _).
    assert (Hs2 : nextCall s2 = nextCall s /\ notices s2 = notices s /\
                  queue (bulkhead s2) = queue (bulkhead s))
      by (unfold s2; destruct ok; repeat split; reflexivity).
    clearbody s2. destruct Hs2 as (Hnext & Hns & Hq).
    destruct (releaseSlot_cases s2) as [Hn [Hsame | Hpop]].
    + rewrite Hsame. simpl. rewrite Hnext, Hns, Hq. intros c Hc.
      rewrite decided_snoc, in_app_iff. simpl.
      destruct (Htr c Hc); auto.
    + destruct Hpop as (request & rest & Hqueue & Hrest & Hnotices).
      simpl. rewrite Hn, Hnext, Hrest, Hnotices, Hns. intros c Hc.
      rewrite !decided_snoc, !in_app_iff. simpl.
      rewrite Hq in Hqueue.
      destruct (Htr c Hc) as [H | H]; [|auto].
      rewrite Hqueue in H. simpl in H. destruct H as [H | H]; auto.
  - destruct (due call now s); [|exact Htr].
    unfold onTimeout. simpl.
    destruct (indexOf call (queue (bulkhead s))) as [index|] eqn:Hidx;
      simpl; [|exact Htr].
    intros c Hc. rewrite decided_snoc, in_app_iff. simpl.
    destruct (Htr c Hc) as [H | H]; [|auto].
    destruct (splice1_keeps_others call _ index c Hidx H) as [-> | Hrest]; auto.
Qed.

Lemma tracked_run turns : forall s,
  Forall BulkheadApi.not_reset turns ->
  tracked s -> tracked (run turns s).
Proof.
  induction turns as [|turn turns IH]; intros s Hall Htr; simpl; [exact Htr|].
  inversion Hall as [|? ? Hturn Hrest]; subst.
  apply IH; [exact Hrest|].
  apply tracked_step; assumption.
Qed.

(** A call that is lost stays lost: no turn decides a call that is
    neither the one arriving nor waiting in the queue. *)
Lemma lost_step call s turn : lost call s -> lost call (step s turn).
Proof.
  unfold lost. intros (Hold & Hq & Hd).
  destruct turn as [opName now | c ok | c now |]; simpl.
  - unfold execute. simpl.
    destruct (currentConcurrent (bulkhead s) <? maxConcurrent (bulkhead s)).
    + cbn [snd]. rewrite executeWithSlot_notices, decided_snoc, in_app_iff.
      unfold executeWithSlot. simpl.
      destruct (currentConcurrent (bulkhead s) + 1 =? maxConcurrent (bulkhead s));
        simpl; (split; [lia|]); (split; [exact Hq|]);
        intros [H | [H | []]]; [auto | lia | auto | lia].
    + destruct (queueSize (bulkhead s) <=? len (queue (bulkhead s))); simpl.
      * rewrite decided_snoc, in_app_iff. simpl.
        split; [lia|]. split; [exact Hq|].
        intros [H | [H | []]]; [auto | lia].
      * rewrite map_app, in_app_iff. simpl.
        split; [lia|]. split; [|exact Hd].
        intros [H | [H | []]]; [auto | lia].
  - destruct (existsb (Nat.eqb c) (inflight s)); [|auto].
    unfold finishWithSlot.
    set (s2 := on_bulkhead _ _).
    assert (Hs2 : nextCall s2 = nextCall s /\ notices s2 = notices s /\
                  queue (bulkhead s2) = queue (bulkhead s))
      by (unfold s2; destruct ok; repeat split; reflexivity).
    clearbody s2. destruct Hs2 as (Hnext & Hns & Hqueue).
    destruct (releaseSlot_cases s2) as [Hn [Hsame | Hpop]].
    + rewrite Hsame. simpl. rewrite Hnext, Hns, Hqueue.
      rewrite decided_snoc, in_app_iff. simpl.
      split; [exact Hold|]. split; [exact Hq|]. tauto.
    + destruct Hpop as (request & rest & Hhead & Hrest & Hnotices).
      simpl. rewrite Hn, Hnext, Hrest, Hnotices, Hns.
      rewrite !decided_snoc, !in_app_iff. simpl.
      rewrite Hqueue in Hhead. rewrite Hhead in Hq. simpl in Hq.
      split; [exact Hold|]. split; [tauto|]. tauto.
  - destruct (due c now s); [|auto].
    unfold onTimeout. simpl.
    destruct (indexOf c (queue (bulkhead s))) as [index|] eqn:Hidx;
      simpl; [|auto].
    rewrite decided_snoc, in_app_iff. simpl.
    split; [exact Hold|]. split.
    + intros Hin. apply Hq. apply (splice1_adds_none _ index), Hin.
    + intros [H | [H | []]]; [auto|].
      apply Hq. rewrite <- H. apply (indexOf_is_queued c _ index), Hidx.
  - unfold reset.
    destruct (clear_all_timers (queue (bulkhead s))
                (on_bulkhead (set_currentConcurrent 0) s)) as (Hb & Hn & Hx & _).
    simpl in *. rewrite Hn, Hx. auto.
Qed.

Lemma lost_run call turns : forall s, lost call s -> lost call (run turns s).
Proof.
  induction turns as [|turn turns IH]; intros s Hlost; simpl; [exact Hlost|].
  apply IH, lost_step, Hlost.
Qed.

Lemma resolutions_decided call ns :
  In call (decided ns) -> (1 <= length (resolutions call ns))%nat.
Proof.
  induction ns as [|n ns IH]; simpl; intros Hin; [contradiction|].
  rewrite in_app_iff in Hin.
  destruct n as [c | c e | c ok]; simpl in *.
  - destruct (Nat.eqb_spec c call); [simpl; lia|].
    apply IH. destruct Hin as [[H | []] | H]; [contradiction | exact H].
  - destruct (Nat.eqb_spec c call); [simpl; lia|].
    apply IH. destruct Hin as [[H | []] | H]; [contradiction | exact H].
  - apply IH. destruct Hin as [[] | H]. exact H.
Qed.

(** A call that is waiting when [reset] runs is lost. *)
Lemma reset_loses_the_queue s req :
  inv s -> In req (queue (bulkhead s)) -> lost (rid req) (reset s).
Proof.
  intros Hinv Hreq. unfold lost, reset.
  destruct (clear_all_timers (queue (bulkhead s))
              (on_bulkhead (set_currentConcurrent 0) s)) as (Hb & Hn & Hx & _).
  simpl in *. rewrite Hn, Hx.
  destruct Hinv as (_ & _ & _ & Hfresh & Hold & _).
  assert (Hin : In (rid req) (map rid (queue (bulkhead s))))
    by (apply in_map, Hreq).
  split; [apply Hold, Hin|]. split; [tauto | apply Hfresh, Hin].
Qed.

(** C9, as stated, fails: a call that is waiting in the queue is not
    sure to be resolved.  In the saturated pool call 1 waits; after
    [reset()] no continuation of the event loop resolves or rejects
    it. *)
Lemma queued_call_dropped_counterexample :
  ~ (forall options turns req turn,
       In req (queue (bulkhead (run turns (init options)))) ->
       exists later,
         length (resolutions (rid req)
                   (notices (run later (step (run turns (init options)) turn))))
         = 1%nat).
Proof.
  intros Hclaim.
  destruct (Hclaim tiny [Arrive "Pay-1" 1000; Arrive "Pay-2" 1010]
                   (mkRequest 1 "Pay-2" 1010) Reset) as [later Hone].
  { vm_compute. left. reflexivity. }
  fold saturated in Hone.
  assert (Hlost : lost 1 (run later (step saturated Reset))).
  { apply lost_run.
    apply (reset_loses_the_queue saturated (mkRequest 1 "Pay-2" 1010)).
    - apply inv_reachable.
    - vm_compute. left. reflexivity. }
  destruct Hlost as (_ & _ & Hundecided).
  simpl rid in Hone.
  rewrite (resolutions_undecided 1 _ Hundecided) in Hone. discriminate.
Qed.

(** C9, amended.  In every state the event loop can reach, no queued
    call is decided twice: a call has at most one of the notices of
    refusal and of a granted slot, a call refused with BULKHEAD_TIMEOUT
    was never granted a slot, a request that is still queued is undecided,
    and the armed timers are exactly those of the queued requests.  When
    the wait timer of a call is due, its request is still in the queue and
    has waited for [maxWait] at least; the timer's turn removes it from
    the queue and refuses it with BULKHEAD_TIMEOUT, which is then its one
    decision, and no later turn grants it a slot.  As long as [reset] is
    not used, every call made so far is still waiting in the queue or has
    been decided exactly once.  [reset] empties the queue and clears the
    timers without resolving or rejecting the calls that wait: none of
    them is decided by any later turn. *)
Theorem queued_call_decided_once :
  forall options turns,
    let s := run turns (init options) in
    (forall call, (length (resolutions call (notices s)) <= 1)%nat) /\
    (forall call, timed_out call (notices s) -> ~ granted call (notices s)) /\
    (forall req, In req (queue (bulkhead s)) ->
                 resolutions (rid req) (notices s) = []) /\
    map fst (timers s) = map rid (queue (bulkhead s)) /\
    (forall call now,
       due call now s = true ->
       exists req,
         In req (queue (bulkhead s)) /\ rid req = call /\
         timestamp req + maxWait (bulkhead s) <= now /\
         let s' := step s (TimerFires call now) in
         queue (bulkhead s')
         = filter (fun r => negb (Nat.eqb (rid r) call)) (queue (bulkhead s)) /\
         ~ In call (map rid (queue (bulkhead s'))) /\
         notices s'
         = notices s
           ++ [Refused call (timeoutError (bulkhead s) (operationName req))] /\
         timed_out call (notices s') /\
         length (resolutions call (notices s')) = 1%nat /\
         forall later, ~ granted call (notices (run later s'))) /\
    (Forall BulkheadApi.not_reset turns ->
     forall call, (call < nextCall s)%nat ->
       In call (map rid (queue (bulkhead s))) \/
       length (resolutions call (notices s)) = 1%nat) /\
    (let s' := step s Reset in
     queue (bulkhead s') = [] /\ timers s' = [] /\ notices s' = notices s /\
     forall req, In req (queue (bulkhead s)) ->
       forall later, resolutions (rid req) (notices (run later s')) = []).
Proof.
  intros options turns s.
  assert (Hinv : inv s) by apply inv_reachable.
  assert (Hnd : NoDup (decided (notices s))) by apply Hinv.
  split; [|split; [|split; [|split; [|split; [|split]]]]].
  - intros call. apply resolutions_at_most_one. exact Hnd.
  - intros call (e & Hin & _). unfold granted.
    apply refused_not_granted with e; assumption.
  - intros req Hreq. apply resolutions_undecided.
    destruct Hinv as (_ & _ & _ & Hfresh & _).
    apply Hfresh. apply in_map. exact Hreq.
  - destruct Hinv as (_ & Hts & _). rewrite Hts, map_map. reflexivity.
  - intros call now Hdue.
    destruct (due_is_queued call now s Hinv Hdue) as (req & Hreq & Hid & Hwait).
    exists req. split; [exact Hreq|]. split; [exact Hid|]. split; [exact Hwait|].
    assert (Hin : In call (map rid (queue (bulkhead s))))
      by (rewrite <- Hid; apply in_map; exact Hreq).
    assert (Hname : opNameOf call (queue (bulkhead s)) = operationName req)
      by (rewrite <- Hid; apply opNameOf_queued; [apply Hinv | exact Hreq]).
    simpl step. rewrite Hdue, Hname.
    destruct (onTimeout_queued call (operationName req) s Hinv Hin)
      as (Hq & _ & Hns & _).
    set (s' := onTimeout call (operationName req) (clearTimeout call s)) in *.
    assert (Hrefused : In (Refused call (timeoutError (bulkhead s) (operationName req)))
                          (notices s'))
      by (rewrite Hns; apply in_or_app; right; left; reflexivity).
    split; [exact Hq|]. split.
    { rewrite Hq. intros Hstill. apply rids_without in Hstill. tauto. }
    split; [exact Hns|]. split.
    { eexists. split; [exact Hrefused | reflexivity]. }
    split.
    { rewrite Hns, resolutions_app, resolutions_undecided.
      - simpl. rewrite Nat.eqb_refl. reflexivity.
      - destruct Hinv as (_ & _ & _ & Hfresh & _). apply Hfresh. exact Hin. }
    intros later. unfold granted.
    assert (Hlater : inv (run later s')).
    { replace s' with (step s (TimerFires call now))
        by (simpl; rewrite Hdue, Hname; reflexivity).
      apply inv_run, inv_step, Hinv. }
    destruct (run_notices_grow later s') as [more Hmore].
    apply refused_not_granted
      with (timeoutError (bulkhead s) (operationName req)).
    + apply Hlater.
    + rewrite Hmore. apply in_or_app. left. exact Hrefused.
  - intros Hturns call Hcall.
    assert (Htr : tracked s).
    { apply tracked_run; [exact Hturns|].
      intros c Hc. simpl in Hc. lia. }
    destruct (Htr call Hcall) as [Hq | Hd]; [left; exact Hq | right].
    pose proof (resolutions_at_most_one call (notices s) Hnd).
    pose proof (resolutions_decided call (notices s) Hd). lia.
  - assert (Hreset : inv (step s Reset)) by (apply inv_step, Hinv).
    simpl step. unfold reset.
    destruct (clear_all_timers (queue (bulkhead s))
                (on_bulkhead (set_currentConcurrent 0) s)) as (Hb & Hn & Hx & Hts).
    simpl in Hb, Hn, Hx, Hts. simpl.
    split; [reflexivity|]. split.
    { apply Hts. intros tm Htm. destruct Hinv as (_ & Htimers & _).
      rewrite Htimers in Htm. apply in_map_iff in Htm.
      destruct Htm as (r & <- & Hr). simpl. apply in_map, Hr. }
    split; [exact Hn|].
    intros req Hreq later. apply resolutions_undecided.
    apply (lost_run (rid req) later (reset s)).
    apply reset_loses_the_queue; assumption.
Qed.

(** The queued call of the saturated pool, before and after its timer
    fires at 6010; and the same call when [reset] runs instead. *)
Lemma queued_call_decided_once_witness :
  ~ granted 1%nat (notices expired) /\
  resolutions 1%nat (notices saturated) = [] /\
  (exists req,
    In req (queue (bulkhead saturated)) /\ rid req = 1%nat /\
    timestamp req + maxWait (bulkhead saturated) <= 6010 /\
    let s' := step saturated (TimerFires 1 6010) in
    queue (bulkhead s')
    = filter (fun r => negb (Nat.eqb (rid r) 1)) (queue (bulkhead saturated)) /\
    ~ In 1%nat (map rid (queue (bulkhead s'))) /\
    notices s'
    = notices saturated
      ++ [Refused 1 (timeoutError (bulkhead saturated) (operationName req))] /\
    timed_out 1 (notices s') /\
    length (resolutions 1 (notices s')) = 1%nat /\
    forall later, ~ granted 1%nat (notices (run later s'))) /\
  (In 1%nat (map rid (queue (bulkhead expired))) \/
   length (resolutions 1 (notices expired)) = 1%nat) /\
  (forall later,
     resolutions 1 (notices (run later (step saturated Reset))) = []).
Proof.
  split; [|split; [|split; [|split]]].
  - apply (queued_call_decided_once tiny
             [Arrive "Pay-1" 1000; Arrive "Pay-2" 1010; TimerFires 1 6010;
              Settle 0 true]).
    exists (timeoutError (bulkhead saturated) "Pay-2").
    split; [vm_compute; tauto | reflexivity].
  - apply (queued_call_decided_once tiny
             [Arrive "Pay-1" 1000; Arrive "Pay-2" 1010]
          : _ /\ _ /\ (forall req, In req (queue (bulkhead saturated)) -> _) /\ _)
      with (req := mkRequest 1 "Pay-2" 1010).
    vm_compute. tauto.
  - apply (queued_call_decided_once tiny
             [Arrive "Pay-1" 1000; Arrive "Pay-2" 1010]).
    vm_compute. reflexivity.
  - destruct (queued_call_decided_once tiny
                [Arrive "Pay-1" 1000; Arrive "Pay-2" 1010; TimerFires 1 6010;
                 Settle 0 true]) as (_ & _ & _ & _ & _ & Hkept & _).
    apply Hkept.
    + repeat constructor.
    + vm_compute. lia.
  - destruct (queued_call_decided_once tiny
                [Arrive "Pay-1" 1000; Arrive "Pay-2" 1010])
      as (_ & _ & _ & _ & _ & _ & Hdrop).
    destruct Hdrop as (_ & _ & _ & Hnever).
    apply (Hnever (mkRequest 1 "Pay-2" 1010)).
    vm_compute. left. reflexivity.
Defined.

End BulkheadFacts.


(** ** The administrative reset *)

Module ResetFacts.
Import Js.

(** *** RateLimiter *)

Lemma limiter_run_config acts : forall rl,
  RateLimiter.maxRequests (RateLimiter.run acts rl) = RateLimiter.maxRequests rl /\
  RateLimiter.windowMs (RateLimiter.run acts rl) = RateLimiter.windowMs rl.
Proof.
  induction acts as [|a acts IH]; intros rl; simpl; [auto|].
  destruct (IH (RateLimiter.step rl a)) as [Hm Hw].
  unfold RateLimiter.run in *. rewrite Hm, Hw.
  destruct a as [now|]; simpl; [|auto].
  unfold RateLimiter.tryAcquire. simpl.
  destruct (RateLimiter.maxRequests rl <=? _); simpl; auto.
Qed.

(** Admission looks at the configuration and the recorded timestamps
    only. *)
Lemma tryAcquire_same now a b :
  RateLimiter.same_admission_state a b ->
  fst (RateLimiter.tryAcquire now a) = fst (RateLimiter.tryAcquire now b) /\
  RateLimiter.same_admission_state (snd (RateLimiter.tryAcquire now a))
                                   (snd (RateLimiter.tryAcquire now b)).
Proof.
  intros (Hm & Hw & Hr). unfold RateLimiter.tryAcquire. simpl.
  rewrite Hm, Hw, Hr.
  destruct (RateLimiter.maxRequests b <=? _); simpl;
    unfold RateLimiter.same_admission_state; simpl;
    rewrite ?Hm, ?Hw, ?Hr; auto.
Qed.

Lemma acquireAll_same times : forall a b,
  RateLimiter.same_admission_state a b ->
  fst (RateLimiter.acquireAll times a) = fst (RateLimiter.acquireAll times b).
Proof.
  induction times as [|now rest IH]; intros a b Hsame; simpl; [reflexivity|].
  destruct (tryAcquire_same now a b Hsame) as [Hans Hnext].
  destruct (RateLimiter.tryAcquire now a) as [ok1 a1].
  destruct (RateLimiter.tryAcquire now b) as [ok2 b1].
  simpl in Hans, Hnext. specialize (IH a1 b1 Hnext).
  destruct (RateLimiter.acquireAll rest a1) as [oks1 a2].
  destruct (RateLimiter.acquireAll rest b1) as [oks2 b2].
  simpl in *. congruence.
Qed.

(** *** CircuitBreaker *)

Section Breaker.
Context {W T : Type}.
Import CircuitBreaker.

Lemma reset_same_gate a b :
  failureThreshold a = failureThreshold b ->
  resetTimeout a = resetTimeout b ->
  halfOpenRequests a = halfOpenRequests b ->
  same_gate_state (reset a) (reset b).
Proof.
  intros H1 H2 H3. unfold same_gate_state. simpl.
  repeat split; auto. discriminate.
Qed.

Ltac branches :=
  repeat match goal with
         | |- context [if ?c then _ else _] => destruct c; simpl
         end.

(** The gate looks at the configuration, the state, the two counters
    and, while OPEN, the time of the last failure. *)
Lemma execute_same_gate (fn : Operation W T) name now now' w a b :
  same_gate_state a b ->
  fst (fst (execute fn name now now' w a))
  = fst (fst (execute fn name now now' w b)) /\
  snd (execute fn name now now' w a) = snd (execute fn name now now' w b) /\
  same_gate_state (snd (fst (execute fn name now now' w a)))
                  (snd (fst (execute fn name now now' w b))).
Proof.
  destruct a as [fa ra ha sa ca ua la pa xa], b as [fb rb hb sb cb ub lb pb xb].
  unfold same_gate_state. simpl.
  intros (-> & -> & -> & -> & -> & -> & -> & Hlast).
  rewrite ?CircuitBreakerFacts.execute_unfold; unfold evaluateState, timeSinceLastFailure. simpl.
  destruct sb; simpl.
  - destruct (fn w) as [[v | e |] w']; simpl;
      unfold onFailure; simpl; branches; repeat split; auto; discriminate.
  - rewrite Hlast by reflexivity.
    destruct (rb <=? now - match lb with Some t0 => t0 | None => 0 end); simpl.
    + destruct (fn w) as [[v | e |] w']; simpl;
        unfold onSuccess, onFailure; simpl; branches;
        repeat split; auto; discriminate.
    + repeat split; auto.
  - destruct (fn w) as [[v | e |] w']; simpl;
      unfold onSuccess, onFailure; simpl; branches;
      repeat split; auto; discriminate.
Qed.

Lemma step_same_gate (act : Action W T) w a b :
  same_gate_state a b ->
  snd (step (a, w) act) = snd (step (b, w) act) /\
  same_gate_state (fst (step (a, w) act)) (fst (step (b, w) act)).
Proof.
  intros Hsame. destruct act as [fn name now now'|]; simpl.
  - destruct (execute_same_gate fn name now now' w a b Hsame) as (_ & Hw & Hs).
    destruct (execute fn name now now' w a) as [[oa a'] wa].
    destruct (execute fn name now now' w b) as [[ob b'] wb].
    simpl in *. auto.
  - split; [reflexivity|].
    apply reset_same_gate; apply Hsame.
Qed.

Lemma run_same_gate (acts : list (Action W T)) : forall w a b,
  same_gate_state a b ->
  outcomes acts (a, w) = outcomes acts (b, w) /\
  snd (run acts (a, w)) = snd (run acts (b, w)) /\
  same_gate_state (fst (run acts (a, w))) (fst (run acts (b, w))).
Proof.
  induction acts as [|act acts IH]; intros w a b Hsame; simpl.
  - auto.
  - destruct (step_same_gate act w a b Hsame) as [Hw Hs].
    assert (Hout : match act with
                   | Call fn name now now' =>
                       Some (fst (fst (execute fn name now now' w a)))
                   | Reset => None
                   end
                   = match act with
                     | Call fn name now now' =>
                         Some (fst (fst (execute fn name now now' w b)))
                     | Reset => None
                     end).
    { destruct act as [fn name now now'|]; [|reflexivity].
      f_equal. apply execute_same_gate. exact Hsame. }
    destruct (step (a, w) act) as [a1 w1] eqn:Ha.
    destruct (step (b, w) act) as [b1 w2] eqn:Hb.
    simpl in Hw, Hs. subst w2.
    destruct (IH w1 a1 b1 Hs) as (Ho & Hworld & Hstate).
    rewrite Ho, Hout. split; [reflexivity|]. split; assumption.
Qed.

Lemma breaker_run_config (acts : list (Action W T)) : forall s,
  failureThreshold (fst (run acts s)) = failureThreshold (fst s) /\
  resetTimeout (fst (run acts s)) = resetTimeout (fst s) /\
  halfOpenRequests (fst (run acts s)) = halfOpenRequests (fst s).
Proof.
  induction acts as [|act acts IH]; intros s; simpl; [auto|].
  destruct (IH (step s act)) as (H1 & H2 & H3).
  unfold run in *. rewrite H1, H2, H3.
  destruct act as [fn name now now'|]; simpl; [|auto].
  rewrite ?CircuitBreakerFacts.execute_unfold; unfold evaluateState, onSuccess, onFailure.
  destruct s as [[fa ra ha sa ca ua la pa xa] w]. simpl.
  destruct sa; simpl; branches;
    destruct (fn w) as [[v | e |] w']; simpl; branches; auto.
Qed.

End Breaker.

(** *** CircuitBreaker, with calls that overlap *)

Lemma enter_same_gate name now a b :
  CircuitBreaker.same_gate_state a b ->
  fst (CircuitBreaker.enter name now a) = fst (CircuitBreaker.enter name now b) /\
  CircuitBreaker.same_gate_state (snd (CircuitBreaker.enter name now a))
                                 (snd (CircuitBreaker.enter name now b)).
Proof.
  destruct a as [fa ra ha sa ca ua la pa xa], b as [fb rb hb sb cb ub lb pb xb].
  unfold CircuitBreaker.same_gate_state. simpl.
  intros (-> & -> & -> & -> & -> & -> & -> & Hlast).
  unfold CircuitBreaker.enter, CircuitBreaker.evaluateState,
    CircuitBreaker.timeSinceLastFailure. simpl.
  destruct sb; simpl.
  - repeat split; auto; discriminate.
  - rewrite Hlast by reflexivity.
    destruct (rb <=? now - match lb with Some t0 => t0 | None => 0 end); simpl;
      repeat split; auto; discriminate.
  - repeat split; auto; discriminate.
Qed.

Lemma settled_same_gate ok now a b :
  CircuitBreaker.same_gate_state a b ->
  CircuitBreaker.same_gate_state (CircuitBreaker.settled ok now a)
                                 (CircuitBreaker.settled ok now b).
Proof.
  destruct a as [fa ra ha sa ca ua la pa xa], b as [fb rb hb sb cb ub lb pb xb].
  unfold CircuitBreaker.same_gate_state. simpl.
  intros (-> & -> & -> & -> & -> & -> & -> & Hlast).
  unfold CircuitBreaker.settled, CircuitBreaker.onSuccess,
    CircuitBreaker.onFailure. simpl.
  destruct ok, sb; simpl;
    repeat match goal with
           | |- context [if ?c then _ else _] => destruct c; simpl
           end;
    repeat split; auto; try discriminate.
Qed.

Lemma ticks_same_gate es : forall a b n,
  CircuitBreaker.same_gate_state a b ->
  CircuitBreaker.admissions es (CircuitBreaker.mkShared a n)
  = CircuitBreaker.admissions es (CircuitBreaker.mkShared b n) /\
  CircuitBreaker.pending (CircuitBreaker.ticks es (CircuitBreaker.mkShared a n))
  = CircuitBreaker.pending (CircuitBreaker.ticks es (CircuitBreaker.mkShared b n)) /\
  CircuitBreaker.same_gate_state
    (CircuitBreaker.breaker (CircuitBreaker.ticks es (CircuitBreaker.mkShared a n)))
    (CircuitBreaker.breaker (CircuitBreaker.ticks es (CircuitBreaker.mkShared b n))).
Proof.
  induction es as [|e es IH]; intros a b n Hsame; simpl; [auto|].
  destruct e as [name now | ok now' |]; simpl.
  - destruct (enter_same_gate name now a b Hsame) as [Hans Hnext].
    destruct (CircuitBreaker.enter name now a) as [[ea|] a1],
             (CircuitBreaker.enter name now b) as [[eb|] b1];
      simpl in Hans, Hnext; try discriminate;
      destruct (IH a1 b1 n Hnext) as (H1 & H2 & H3);
      destruct (IH a1 b1 (S n) Hnext) as (H4 & H5 & H6);
      rewrite ?Hans, ?H1, ?H4; auto.
  - destruct n as [|n]; [apply IH, Hsame|].
    apply IH, settled_same_gate, Hsame.
  - apply IH, reset_same_gate; apply Hsame.
Qed.

Lemma ticks_keep_config es : forall s,
  CircuitBreaker.failureThreshold (CircuitBreaker.breaker (CircuitBreaker.ticks es s))
  = CircuitBreaker.failureThreshold (CircuitBreaker.breaker s) /\
  CircuitBreaker.resetTimeout (CircuitBreaker.breaker (CircuitBreaker.ticks es s))
  = CircuitBreaker.resetTimeout (CircuitBreaker.breaker s) /\
  CircuitBreaker.halfOpenRequests (CircuitBreaker.breaker (CircuitBreaker.ticks es s))
  = CircuitBreaker.halfOpenRequests (CircuitBreaker.breaker s).
Proof.
  induction es as [|e es IH]; intros s; simpl; [auto|].
  destruct (IH (CircuitBreaker.tick s e)) as (H1 & H2 & H3).
  unfold CircuitBreaker.ticks in *. rewrite H1, H2, H3. clear.
  destruct s as [[fa ra ha sa ca ua la pa xa] n].
  destruct e as [name now | ok now' |]; simpl.
  - unfold CircuitBreaker.enter, CircuitBreaker.evaluateState. simpl.
    destruct sa; simpl;
      repeat match goal with
             | |- context [if ?c then _ else _] => destruct c; simpl
             end; auto.
  - destruct n; simpl; [auto|].
    unfold CircuitBreaker.settled, CircuitBreaker.onSuccess,
      CircuitBreaker.onFailure. simpl.
    destruct ok, sa; simpl;
      repeat match goal with
             | |- context [if ?c then _ else _] => destruct c; simpl
             end; auto.
  - auto.
Qed.

(** C6, as stated, fails: [reset] leaves the limiter's counters as they
    are; after one [tryAcquire] and a [reset], [totalRequests] and
    [allowedRequests] are still 1. *)
Lemma reset_clears_counters_counterexample :
  ~ (forall acts,
       let rl := RateLimiter.reset
                   (RateLimiter.run acts (RateLimiter.new RateLimiter.no_options)) in
       RateLimiter.requests rl = [] /\
       RateLimiter.stats rl = RateLimiter.mkStats 0 0 0).
Proof.
  intros Hclaim.
  destruct (Hclaim [RateLimiter.TryAcquire 1000]) as [_ Hstats].
  vm_compute in Hstats. discriminate.
Qed.

(** C6, amended.  [reset], applied in any state, empties the limiter's
    list of timestamps and returns a breaker (an OPEN one with pending
    counters in particular) to CLOSED with [failureCount], [successCount]
    and [halfOpenAttempts] at zero; it leaves the statistics of both
    components, and the breaker's [lastFailureTime], as they were.  After
    a [reset] made while no guarded call is suspended in the breaker, a
    component that was built by the constructor admits, rejects and
    changes state as a freshly constructed one with the same options does,
    whatever is asked of it next, overlapping calls included.  A call
    that is suspended when [reset] runs still reports its outcome to the
    breaker afterwards: a failure that comes late counts towards the
    threshold of the breaker that was reset. *)
Theorem reset_restores_fresh_behaviour :
  (forall rl,
     RateLimiter.requests (RateLimiter.reset rl) = [] /\
     RateLimiter.stats (RateLimiter.reset rl) = RateLimiter.stats rl) /\
  (forall cb,
     CircuitBreaker.state (CircuitBreaker.reset cb) = CircuitBreaker.CLOSED /\
     CircuitBreaker.failureCount (CircuitBreaker.reset cb) = 0 /\
     CircuitBreaker.successCount (CircuitBreaker.reset cb) = 0 /\
     CircuitBreaker.halfOpenAttempts (CircuitBreaker.reset cb) = 0 /\
     CircuitBreaker.stats (CircuitBreaker.reset cb) = CircuitBreaker.stats cb /\
     CircuitBreaker.lastFailureTime (CircuitBreaker.reset cb)
     = CircuitBreaker.lastFailureTime cb) /\
  (forall options acts times,
     fst (RateLimiter.acquireAll times
            (RateLimiter.reset (RateLimiter.run acts (RateLimiter.new options))))
     = fst (RateLimiter.acquireAll times (RateLimiter.new options))) /\
  (forall (W T : Type) options (acts more : list (CircuitBreaker.Action W T))
          (w0 w : W),
     let cb := CircuitBreaker.reset
                 (fst (CircuitBreaker.run acts (CircuitBreaker.new options, w0))) in
     let fresh := CircuitBreaker.new options in
     CircuitBreaker.outcomes more (cb, w) = CircuitBreaker.outcomes more (fresh, w) /\
     snd (CircuitBreaker.run more (cb, w)) = snd (CircuitBreaker.run more (fresh, w)) /\
     CircuitBreaker.state (fst (CircuitBreaker.run more (cb, w)))
     = CircuitBreaker.state (fst (CircuitBreaker.run more (fresh, w)))) /\
  (forall options (before later : list CircuitBreaker.Tick),
     let s := CircuitBreaker.tick
                (CircuitBreaker.ticks before (CircuitBreaker.start options))
                CircuitBreaker.Resets in
     let fresh := CircuitBreaker.start options in
     CircuitBreaker.pending s = 0%nat ->
     CircuitBreaker.admissions later s = CircuitBreaker.admissions later fresh /\
     CircuitBreaker.pending (CircuitBreaker.ticks later s)
     = CircuitBreaker.pending (CircuitBreaker.ticks later fresh) /\
     CircuitBreaker.same_gate_state
       (CircuitBreaker.breaker (CircuitBreaker.ticks later s))
       (CircuitBreaker.breaker (CircuitBreaker.ticks later fresh))) /\
  (let s := CircuitBreaker.ticks CircuitBreaker.pending_across_reset
              (CircuitBreaker.start CircuitBreaker.no_options) in
   let fresh := CircuitBreaker.start CircuitBreaker.no_options in
   CircuitBreaker.pending s = 1%nat /\
   CircuitBreaker.state (CircuitBreaker.breaker s) = CircuitBreaker.CLOSED /\
   CircuitBreaker.state
     (CircuitBreaker.breaker
        (CircuitBreaker.ticks CircuitBreaker.late_failure_then_four s))
   = CircuitBreaker.OPEN /\
   CircuitBreaker.state
     (CircuitBreaker.breaker
        (CircuitBreaker.ticks CircuitBreaker.late_failure_then_four fresh))
   = CircuitBreaker.CLOSED).
Proof.
  split; [|split; [|split; [|split; [|split]]]]; cycle 4.
  { intros options before later s fresh Hnone.
    destruct (ticks_keep_config before (CircuitBreaker.start options))
      as (H1 & H2 & H3).
    assert (Hsame : CircuitBreaker.same_gate_state
                      (CircuitBreaker.breaker s)
                      (CircuitBreaker.breaker fresh)).
    { unfold CircuitBreaker.same_gate_state, s, fresh. simpl in *.
      repeat split; auto. discriminate. }
    pose proof (ticks_same_gate later (CircuitBreaker.breaker s)
                  (CircuitBreaker.breaker fresh) 0 Hsame) as Hgen.
    replace (CircuitBreaker.mkShared (CircuitBreaker.breaker s) 0) with s in Hgen
      by (destruct s as [cb n]; simpl in *; congruence).
    exact Hgen. }
  { vm_compute. repeat split; reflexivity. }
  - intros rl. split; reflexivity.
  - intros cb. repeat split; reflexivity.
  - intros options acts times. apply acquireAll_same.
    destruct (limiter_run_config acts (RateLimiter.new options)) as [Hm Hw].
    unfold RateLimiter.same_admission_state. simpl. auto.
  - intros W T options acts more w0 w cb fresh.
    destruct (breaker_run_config acts (CircuitBreaker.new options, w0))
      as (H1 & H2 & H3).
    assert (Hsame : CircuitBreaker.same_gate_state cb fresh).
    { unfold CircuitBreaker.same_gate_state, cb, fresh. simpl in *.
      repeat split; auto. discriminate. }
    destruct (run_same_gate more w cb fresh Hsame) as (Ho & Hw & Hs).
    split; [exact Ho|]. split; [exact Hw|]. apply Hs.
Qed.

(** A default breaker opened by five failures is reset with no call
    pending; two overlapping probes follow. *)
Lemma reset_restores_fresh_behaviour_witness :
  let s := CircuitBreaker.tick
             (CircuitBreaker.ticks CircuitBreaker.five_failing_calls
                (CircuitBreaker.start CircuitBreaker.no_options))
             CircuitBreaker.Resets in
  let fresh := CircuitBreaker.start CircuitBreaker.no_options in
  let later := [CircuitBreaker.Enters "GetProduct-A" 31200;
                CircuitBreaker.Enters "GetProduct-B" 31250;
                CircuitBreaker.Settles false 31300;
                CircuitBreaker.Settles true 31400] in
  CircuitBreaker.admissions later s = CircuitBreaker.admissions later fresh /\
  CircuitBreaker.pending (CircuitBreaker.ticks later s)
  = CircuitBreaker.pending (CircuitBreaker.ticks later fresh) /\
  CircuitBreaker.same_gate_state
    (CircuitBreaker.breaker (CircuitBreaker.ticks later s))
    (CircuitBreaker.breaker (CircuitBreaker.ticks later fresh)).
Proof.
  destruct reset_restores_fresh_behaviour as (_ & _ & _ & _ & Hfresh & _).
  apply (Hfresh CircuitBreaker.no_options CircuitBreaker.five_failing_calls).
  reflexivity.
Defined.

End ResetFacts.


(** ** The constructors *)

Module ConstructorFacts.
Import Js.

(** C10.  In each of the four constructors an option given as the falsy
    value [0] (for [name], the empty string) is replaced by the default,
    like an option that is not given at all.  So a [RetryPattern] built
    with [maxRetries: 0] makes four attempts, three of them retries,
    against an operation that always fails, and a [RateLimiter] built with
    [maxRequests: 0] admits the first ten calls of a burst inside one
    window and rejects the rest. *)
Theorem falsy_options_fall_back_to_defaults :
  (forall d m M,
     RetryPattern.maxRetries
       (RetryPattern.new (RetryPattern.mkOptions (Some 0) d m M)) = 3) /\
  (forall n m M,
     RetryPattern.delay
       (RetryPattern.new (RetryPattern.mkOptions n (Some 0) m M)) = 1000) /\
  (forall n d M,
     RetryPattern.backoffMultiplier
       (RetryPattern.new (RetryPattern.mkOptions n d (Some 0) M)) = 2) /\
  (forall n d m,
     RetryPattern.maxDelay
       (RetryPattern.new (RetryPattern.mkOptions n d m (Some 0))) = 10000) /\
  (forall w,
     RateLimiter.maxRequests
       (RateLimiter.new (RateLimiter.mkOptions (Some 0) w)) = 10) /\
  (forall m,
     RateLimiter.windowMs
       (RateLimiter.new (RateLimiter.mkOptions m (Some 0))) = 60000) /\
  (forall r h,
     CircuitBreaker.failureThreshold
       (CircuitBreaker.new (CircuitBreaker.mkOptions (Some 0) r h)) = 5) /\
  (forall f h,
     CircuitBreaker.resetTimeout
       (CircuitBreaker.new (CircuitBreaker.mkOptions f (Some 0) h)) = 30000) /\
  (forall f r,
     CircuitBreaker.halfOpenRequests
       (CircuitBreaker.new (CircuitBreaker.mkOptions f r (Some 0))) = 3) /\
  (forall c w q,
     Bulkhead.name
       (Bulkhead.new (Bulkhead.mkOptions (Some ""%string) c w q))
     = "default"%string) /\
  (forall n w q,
     Bulkhead.maxConcurrent
       (Bulkhead.new (Bulkhead.mkOptions n (Some 0) w q)) = 10) /\
  (forall n c q,
     Bulkhead.maxWait
       (Bulkhead.new (Bulkhead.mkOptions n c (Some 0) q)) = 5000) /\
  (forall n c w,
     Bulkhead.queueSize
       (Bulkhead.new (Bulkhead.mkOptions n c w (Some 0))) = 20) /\
  (forall (W T : Type) (sleep : Z -> W -> W) (fn : Operation W T) w d m M,
     RetryPattern.always_fails fn ->
     exists r,
       RetryPattern.execute sleep fn w
         (RetryPattern.new (RetryPattern.mkOptions (Some 0) d m M)) = Some r /\
       len (RetryPattern.calls (RetryPattern.trace r)) = 1 + 3) /\
  (forall window t1 times,
     let rl := RateLimiter.new (RateLimiter.mkOptions (Some 0) window) in
     Forall (fun now => t1 <= now < t1 + RateLimiter.windowMs rl) times ->
     fst (RateLimiter.acquireAll times rl)
     = repeat true (Nat.min 10 (length times))
       ++ repeat false (length times - 10)).
Proof.
  repeat (split; [intros; reflexivity|]).
  split.
  - intros W T sleep fn w d m M Hfail.
    destruct (RetryPatternFacts.execute_exhausts sleep fn w
                (RetryPattern.new (RetryPattern.mkOptions (Some 0) d m M)))
      as (r & e & w_last & Hr & Hcalls & _); [simpl; lia | exact Hfail |].
    exists r. split; [exact Hr | exact Hcalls].
  - intros window t1 times rl Htimes.
    destruct (RateLimiterFacts.burst_in_window t1 times rl) as (Hans & _).
    + constructor.
    + exact Htimes.
    + exact Hans.
Qed.

(** [maxRetries: 0] against a dependency that is down, and
    [maxRequests: 0] under a burst of twelve calls. *)
Lemma falsy_options_fall_back_to_defaults_witness :
  (exists r,
     RetryPattern.execute RetryPattern.no_sleep_effect RetryPattern.down
       0%nat (RetryPattern.new (RetryPattern.mkOptions (Some 0) None None None))
     = Some r /\
     len (RetryPattern.calls (RetryPattern.trace r)) = 1 + 3) /\
  fst (RateLimiter.acquireAll [0; 1; 2; 3; 4; 5; 6; 7; 8; 9; 10; 11]
         (RateLimiter.new (RateLimiter.mkOptions (Some 0) None)))
  = repeat true (Nat.min 10 12) ++ repeat false (12 - 10).
Proof.
  split.
  - apply falsy_options_fall_back_to_defaults.
    intros w. eexists. eexists. reflexivity.
  - apply (proj2 (proj2 (proj2 (proj2 (proj2 (proj2 (proj2 (proj2 (proj2
             (proj2 (proj2 (proj2 (proj2 (proj2
                falsy_options_fall_back_to_defaults))))))))))))) None 0).
    repeat constructor; simpl; lia.
Defined.

End ConstructorFacts.


(** ** RateLimiter: the rest of its interface *)

Module RateLimiterApiFacts.
Import Js RateLimiter RateLimiterApi.

Lemma minimum_is_member x rest : In (minimum x rest) (x :: rest).
Proof.
  revert x. induction rest as [|y rest IH]; intros x; simpl.
  - left. reflexivity.
  - destruct (Z.min_spec x (minimum y rest)) as [[_ ->] | [_ ->]].
    + left. reflexivity.
    + right. apply IH.
Qed.

Lemma minimum_is_least x rest :
  forall ts, In ts (x :: rest) -> minimum x rest <= ts.
Proof.
  revert x. induction rest as [|y rest IH]; intros x ts Hin; simpl in *.
  - destruct Hin as [<- | []]. lia.
  - destruct Hin as [<- | Hin]; [lia|].
    specialize (IH y ts Hin). lia.
Qed.

Lemma cleanup_twice now rl :
  cleanupOldRequests now (cleanupOldRequests now rl) = cleanupOldRequests now rl.
Proof.
  unfold cleanupOldRequests. simpl. f_equal.
  apply filter_keeps_all. apply Forall_forall.
  intros ts Hts. apply filter_In in Hts. apply Hts.
Qed.

(** *** Invariants of a limiter in use *)

Lemma use_keeps_config rl u :
  maxRequests (use rl u) = maxRequests rl /\ windowMs (use rl u) = windowMs rl.
Proof.
  destruct u as [now | now |]; simpl; auto.
  unfold tryAcquire. simpl.
  destruct (maxRequests rl <=? _); simpl; auto.
Qed.

Lemma use_keeps_bound rl u :
  len (requests rl) <= maxRequests rl ->
  len (requests (use rl u)) <= maxRequests (use rl u).
Proof.
  intros Hb. destruct u as [now | now |].
  - simpl. fold (kept now rl).
    destruct (Z.lt_ge_cases (len (kept now rl)) (maxRequests rl)) as [Hlt | Hge].
    + rewrite RateLimiterFacts.tryAcquire_admits by assumption. simpl.
      unfold len in *. rewrite length_app. simpl. lia.
    + rewrite RateLimiterFacts.tryAcquire_rejects by assumption. simpl.
      pose proof (filter_no_longer (fun ts => now - windowMs rl <? ts) (requests rl)).
      unfold len, kept in *. lia.
  - simpl.
    pose proof (filter_no_longer (fun ts => now - windowMs rl <? ts) (requests rl)).
    unfold len in *. lia.
  - simpl. unfold len in *. simpl. lia.
Qed.

(** X1.  A limiter built with a non-negative [maxRequests] never records
    more than [maxRequests] timestamps, whatever sequence of
    [tryAcquire], [getRemainingRequests] and [reset] is applied to it. *)
Theorem requests_never_exceed_maxRequests options uses :
  0 <= maxRequests (new options) ->
  len (requests (drive uses (new options))) <= maxRequests (new options).
Proof.
  intros Hmax.
  assert (Hgen : forall rl,
             len (requests rl) <= maxRequests rl ->
             len (requests (drive uses rl)) <= maxRequests (drive uses rl) /\
             maxRequests (drive uses rl) = maxRequests rl).
  { induction uses as [|u uses IH]; intros rl Hb; simpl; [auto|].
    destruct (IH (use rl u) (use_keeps_bound rl u Hb)) as [H1 H2].
    split; [exact H1|]. rewrite H2. apply use_keeps_config. }
  destruct (Hgen (new options)) as [H1 H2]; [exact Hmax|].
  rewrite H2 in H1. exact H1.
Qed.

Lemma requests_never_exceed_maxRequests_witness :
  len (requests (drive [Acquire 0; Acquire 5; Remaining 7; Acquire 9; Clear;
                        Acquire 70000]
                       (new (mkOptions (Some 2) None))))
  <= maxRequests (new (mkOptions (Some 2) None)).
Proof.
  apply requests_never_exceed_maxRequests. simpl. lia.
Defined.

(** X2.  The counters of a limiter always add up: every [tryAcquire] is
    counted once in [totalRequests] and once in exactly one of
    [allowedRequests] and [rejectedRequests]; [getRemainingRequests] and
    [reset] count nothing. *)
Theorem limiter_counters_add_up options uses :
  let s := stats (drive uses (new options)) in
  totalRequests s = allowedRequests s + rejectedRequests s /\
  totalRequests s
  = len (filter (fun u => match u with Acquire _ => true | _ => false end) uses) /\
  0 <= allowedRequests s /\ 0 <= rejectedRequests s.
Proof.
  assert (Hgen : forall rl,
    let s := stats (drive uses rl) in
    totalRequests s - totalRequests (stats rl)
    = (allowedRequests s - allowedRequests (stats rl))
      + (rejectedRequests s - rejectedRequests (stats rl)) /\
    totalRequests s - totalRequests (stats rl)
    = len (filter (fun u => match u with Acquire _ => true | _ => false end) uses) /\
    allowedRequests (stats rl) <= allowedRequests s /\
    rejectedRequests (stats rl) <= rejectedRequests s).
  { induction uses as [|u uses IH]; intros rl; simpl.
    - unfold len. simpl. lia.
    - specialize (IH (use rl u)). simpl in IH.
      destruct IH as (H1 & H2 & H3 & H4).
      destruct u as [now | now |]; simpl in *.
      + unfold tryAcquire in *. simpl in *.
        destruct (maxRequests rl <=? _); simpl in *;
          unfold len in *; simpl length; lia.
      + lia.
      + lia. }
  specialize (Hgen (new options)). simpl in Hgen. simpl. lia.
Qed.

(** *** Chronological order *)

Lemma sorted_filter (f : Z -> bool) (l : list Z) :
  StronglySorted Z.le l -> StronglySorted Z.le (filter f l).
Proof.
  induction 1 as [|x l Hs IH Hx]; simpl; [constructor|].
  destruct (f x); [|exact IH].
  constructor; [exact IH|].
  apply Forall_forall. intros y Hy. apply filter_In in Hy.
  rewrite Forall_forall in Hx. apply Hx. apply Hy.
Qed.

Lemma sorted_snoc (l : list Z) (x : Z) :
  StronglySorted Z.le l -> Forall (fun y => y <= x) l ->
  StronglySorted Z.le (l ++ [x]).
Proof.
  induction 1 as [|y l Hs IH Hy]; intros Hall; simpl.
  - constructor; constructor.
  - inversion Hall as [|? ? Hyx Hrest]; subst.
    constructor; [apply IH; exact Hrest|].
    apply Forall_app. split; [exact Hy|]. constructor; [exact Hyx | constructor].
Qed.

Lemma bounded_filter (f : Z -> bool) (l : list Z) (hi : Z) :
  Forall (fun y => y <= hi) l -> Forall (fun y => y <= hi) (filter f l).
Proof.
  rewrite !Forall_forall. intros H y Hy. apply filter_In in Hy. apply H, Hy.
Qed.

Lemma bounded_later (l : list Z) (lo hi : Z) :
  lo <= hi -> Forall (fun y => y <= lo) l -> Forall (fun y => y <= hi) l.
Proof.
  intros Hle H. eapply Forall_impl; [|exact H]. simpl. intros; lia.
Qed.

Lemma drive_chronological uses : forall rl from,
  StronglySorted Z.le (requests rl) ->
  Forall (fun ts => ts <= from) (requests rl) ->
  clock_advances from uses ->
  StronglySorted Z.le (requests (drive uses rl)).
Proof.
  induction uses as [|u uses IH]; intros rl from Hs Hb Hclock; simpl.
  - exact Hs.
  - destruct u as [now | now |]; simpl in Hclock.
    + destruct Hclock as [Hle Hclock].
      apply IH with now; [| |exact Hclock]; simpl; fold (kept now rl);
        destruct (Z.lt_ge_cases (len (kept now rl)) (maxRequests rl)) as [Hlt | Hge].
      * rewrite RateLimiterFacts.tryAcquire_admits by assumption. simpl.
        apply sorted_snoc; [apply sorted_filter, Hs|].
        apply bounded_filter, bounded_later with from; assumption.
      * rewrite RateLimiterFacts.tryAcquire_rejects by assumption. simpl.
        apply sorted_filter, Hs.
      * rewrite RateLimiterFacts.tryAcquire_admits by assumption. simpl.
        apply Forall_app. split; [|constructor; [lia | constructor]].
        apply bounded_filter, bounded_later with from; assumption.
      * rewrite RateLimiterFacts.tryAcquire_rejects by assumption. simpl.
        apply bounded_filter, bounded_later with from; assumption.
    + destruct Hclock as [Hle Hclock].
      apply IH with now; [| |exact Hclock]; simpl.
      * apply sorted_filter, Hs.
      * apply bounded_filter, bounded_later with from; assumption.
    + apply IH with from; [| |exact Hclock]; simpl; constructor.
Qed.

(** X3.  While the clock does not go back, the recorded timestamps are
    in chronological order, so the oldest request that [getRetryAfter]
    looks for with [Math.min] is the first element of the array. *)
Theorem requests_are_chronological options uses from :
  clock_advances from uses ->
  let rl := drive uses (new options) in
  StronglySorted Z.le (requests rl) /\
  match requests rl with
  | [] => getRetryAfter from rl = 0
  | r :: rest => minimum r rest = r
  end.
Proof.
  intros Hclock rl.
  assert (Hs : StronglySorted Z.le (requests rl)).
  { apply drive_chronological with from; simpl; try constructor. exact Hclock. }
  split; [exact Hs|].
  destruct (requests rl) as [|r rest] eqn:Hreq.
  - unfold getRetryAfter. rewrite Hreq. reflexivity.
  - inversion Hs as [|? ? _ Hall]; subst.
    pose proof (minimum_is_least r rest r (or_introl eq_refl)) as Hle.
    destruct (minimum_is_member r rest) as [Heq | Hin]; [congruence|].
    rewrite Forall_forall in Hall. specialize (Hall _ Hin). lia.
Qed.

Lemma requests_are_chronological_witness :
  let rl := drive [Acquire 10; Acquire 20; Remaining 25; Acquire 30]
                  (new no_options) in
  StronglySorted Z.le (requests rl) /\
  match requests rl with
  | [] => getRetryAfter 0 rl = 0
  | r :: rest => minimum r rest = r
  end.
Proof.
  apply (requests_are_chronological no_options
           [Acquire 10; Acquire 20; Remaining 25; Acquire 30] 0).
  simpl. lia.
Defined.

(** *** The retry-after hint *)

Lemma retry_after_suffices now t rl :
  0 < maxRequests rl ->
  len (requests rl) <= maxRequests rl ->
  now + getRetryAfter now rl <= t ->
  fst (tryAcquire t rl) = true.
Proof.
  unfold getRetryAfter. intros Hpos Hb Hwait.
  destruct (requests rl) as [|r rest] eqn:Hreq.
  - rewrite RateLimiterFacts.tryAcquire_admits; [reflexivity|].
    unfold kept. rewrite Hreq. simpl. exact Hpos.
  - apply RateLimiterFacts.admitted_after_window with (minimum r rest).
    + rewrite Hreq. apply minimum_is_member.
    + lia.
    + rewrite Hreq. exact Hb.
Qed.

Lemma retry_too_early now t rl :
  maxRequests rl <= len (requests rl) ->
  now <= t < now + getRetryAfter now rl ->
  fst (tryAcquire t rl) = false.
Proof.
  unfold getRetryAfter. intros Hfull Hearly.
  destruct (requests rl) as [|r rest] eqn:Hreq; [lia|].
  rewrite RateLimiterFacts.tryAcquire_rejects; [reflexivity|].
  replace (kept t rl) with (requests rl); [rewrite Hreq; exact Hfull|].
  symmetry. apply filter_keeps_all. apply Forall_forall.
  intros ts Hts. apply Z.ltb_lt.
  rewrite Hreq in Hts.
  pose proof (minimum_is_least r rest ts Hts). lia.
Qed.

(** X4.  [getRetryAfter] is exact for a limiter within its bound: a
    [tryAcquire] made [getRetryAfter()] milliseconds after the reading, or
    later, is admitted; and on a limiter that is full, a [tryAcquire] made
    earlier than that (and not before the reading) is rejected. *)
Theorem getRetryAfter_is_exact now t rl :
  (0 < maxRequests rl ->
   len (requests rl) <= maxRequests rl ->
   now + getRetryAfter now rl <= t ->
   fst (tryAcquire t rl) = true) /\
  (maxRequests rl <= len (requests rl) ->
   now <= t < now + getRetryAfter now rl ->
   fst (tryAcquire t rl) = false).
Proof.
  split; [apply retry_after_suffices | apply retry_too_early].
Qed.

Lemma getRetryAfter_is_exact_witness :
  fst (tryAcquire 60000 full_limiter) = true /\
  fst (tryAcquire 59999 full_limiter) = false.
Proof.
  split.
  - apply (proj1 (getRetryAfter_is_exact 10 60000 full_limiter)).
    + vm_compute. reflexivity.
    + vm_compute. discriminate.
    + vm_compute. discriminate.
  - apply (proj2 (getRetryAfter_is_exact 10 59999 full_limiter)).
    + vm_compute. discriminate.
    + vm_compute. split; [discriminate | reflexivity].
Defined.

(** *** Remaining quota, [execute] and the middleware *)

Lemma remaining_positive now rl :
  0 < fst (getRemainingRequests now rl) <-> fst (tryAcquire now rl) = true.
Proof.
  unfold getRemainingRequests. simpl. fold (kept now rl).
  destruct (Z.lt_ge_cases (len (kept now rl)) (maxRequests rl)) as [Hlt | Hge].
  - rewrite RateLimiterFacts.tryAcquire_admits by assumption. simpl.
    split; [reflexivity | lia].
  - rewrite RateLimiterFacts.tryAcquire_rejects by assumption. simpl.
    split; [lia | discriminate].
Qed.

Lemma tryAcquire_after_cleanup now rl :
  tryAcquire now (cleanupOldRequests now rl) = tryAcquire now rl.
Proof.
  unfold tryAcquire.
  replace (cleanupOldRequests now (with_stats bump_total (cleanupOldRequests now rl)))
    with (cleanupOldRequests now (with_stats bump_total rl)); [reflexivity|].
  unfold cleanupOldRequests. simpl. f_equal. symmetry.
  apply filter_keeps_all. apply Forall_forall.
  intros ts Hts. apply filter_In in Hts. apply Hts.
Qed.

(** X5.  [getRemainingRequests] predicts [tryAcquire] at the same clock
    reading: the answer is positive exactly when the call would be
    admitted; asking first changes nothing about the [tryAcquire] that
    follows; and with a positive window an admission lowers the answer by
    one. *)
Theorem remaining_predicts_admission now rl :
  (0 < fst (getRemainingRequests now rl) <-> fst (tryAcquire now rl) = true) /\
  tryAcquire now (snd (getRemainingRequests now rl)) = tryAcquire now rl /\
  (0 < windowMs rl ->
   fst (tryAcquire now rl) = true ->
   fst (getRemainingRequests now (snd (tryAcquire now rl)))
   = fst (getRemainingRequests now rl) - 1).
Proof.
  split; [apply remaining_positive|]. split; [apply tryAcquire_after_cleanup|].
  intros Hwin Hok.
  unfold getRemainingRequests. simpl. fold (kept now rl).
  destruct (Z.lt_ge_cases (len (kept now rl)) (maxRequests rl)) as [Hlt | Hge].
  - rewrite RateLimiterFacts.tryAcquire_admits by assumption. simpl.
    rewrite filter_app. simpl.
    destruct (Z.ltb_spec (now - windowMs rl) now); [|lia].
    replace (filter (fun ts => now - windowMs rl <? ts) (kept now rl))
      with (kept now rl).
    + unfold len in *. rewrite length_app. simpl. lia.
    + symmetry. apply filter_keeps_all. apply Forall_forall.
      intros ts Hts. apply filter_In in Hts. apply Hts.
  - rewrite RateLimiterFacts.tryAcquire_rejects in Hok by assumption.
    discriminate.
Qed.

Lemma remaining_predicts_admission_witness :
  fst (getRemainingRequests 10 (snd (tryAcquire 10 (new no_options))))
  = fst (getRemainingRequests 10 (new no_options)) - 1.
Proof.
  apply remaining_predicts_admission.
  - simpl. lia.
  - reflexivity.
Defined.

Lemma tryAcquire_keeps_bound now rl :
  0 < maxRequests rl ->
  len (requests rl) <= maxRequests rl ->
  0 < maxRequests (snd (tryAcquire now rl)) /\
  len (requests (snd (tryAcquire now rl))) <= maxRequests (snd (tryAcquire now rl)).
Proof.
  intros Hpos Hb.
  destruct (use_keeps_config rl (Acquire now)) as [Hm _].
  pose proof (use_keeps_bound rl (Acquire now) Hb) as Hb'.
  simpl in Hm, Hb'. rewrite Hm in *. auto.
Qed.

(** X6.  [RateLimiter.execute] invokes the operation exactly when
    [tryAcquire] admits the call, and hands its settlement on unchanged.
    Otherwise it fails with RATE_LIMITED without touching the world, and
    on a limiter within its positive bound the [retryAfter] it attaches is
    enough: a call made that many milliseconds later is admitted. *)
Theorem limiter_execute_guards_operation
        (W T : Type) (fn : Operation W T) name now now' (w : W) rl :
  (fst (tryAcquire now rl) = true ->
   execute fn name now now' w rl
   = (Passed (fst (fn w)), snd (tryAcquire now rl), snd (fn w))) /\
  (fst (tryAcquire now rl) = false ->
   exists retryAfter,
     execute fn name now now' w rl
     = (RateLimited (rateLimitError name) retryAfter,
        snd (tryAcquire now rl), w) /\
     code (rateLimitError name) = Some "RATE_LIMITED"%string /\
     0 <= retryAfter /\
     (0 < maxRequests rl -> len (requests rl) <= maxRequests rl ->
      forall t, now' + retryAfter <= t ->
                fst (tryAcquire t (snd (tryAcquire now rl))) = true)).
Proof.
  unfold execute. destruct (tryAcquire now rl) as [allowed rl1] eqn:Htry.
  simpl. split; intros ->; simpl.
  - destruct (fn w) as [o w']. reflexivity.
  - exists (getRetryAfter now' rl1). split; [reflexivity|].
    split; [reflexivity|]. split.
    + unfold getRetryAfter. destruct (requests rl1); lia.
    + intros Hpos Hb t Ht.
      destruct (tryAcquire_keeps_bound now rl Hpos Hb) as [Hpos' Hb'].
      rewrite Htry in Hpos', Hb'. simpl in Hpos', Hb'.
      apply retry_after_suffices with now'; assumption.
Qed.

Lemma limiter_execute_guards_operation_witness :
  execute (fun w : nat => (Resolved tt, S w)) "GetProduct-1" 10 11 0%nat
          (new no_options)
  = (Passed (Resolved tt), snd (tryAcquire 10 (new no_options)), 1%nat) /\
  exists retryAfter,
    execute (fun w : nat => (Resolved tt, S w)) "GetProduct-1" 10 11 0%nat
            full_limiter
    = (RateLimited (rateLimitError "GetProduct-1") retryAfter,
       snd (tryAcquire 10 full_limiter), 0%nat) /\
    code (rateLimitError "GetProduct-1") = Some "RATE_LIMITED"%string /\
    0 <= retryAfter /\
    (0 < maxRequests full_limiter ->
     len (requests full_limiter) <= maxRequests full_limiter ->
     forall t, 11 + retryAfter <= t ->
               fst (tryAcquire t (snd (tryAcquire 10 full_limiter))) = true).
Proof.
  split.
  - apply (proj1 (limiter_execute_guards_operation nat unit
                    (fun w : nat => (Resolved tt, S w)) "GetProduct-1" 10 11
                    0%nat (new no_options))).
    reflexivity.
  - apply (proj2 (limiter_execute_guards_operation nat unit
                    (fun w : nat => (Resolved tt, S w)) "GetProduct-1" 10 11
                    0%nat full_limiter)).
    reflexivity.
Defined.

Lemma ceilSeconds_covers ms :
  ms <= 1000 * ceilSeconds ms < ms + 1000.
Proof.
  unfold ceilSeconds.
  pose proof (Z.div_mod (- ms) 1000) as Hdm.
  pose proof (Z.mod_pos_bound (- ms) 1000) as Hmod.
  lia.
Qed.

(** X7.  The middleware lets [/health] and every path under [/stats]
    through without looking at the limiter.  For any other path, read at
    one clock, it answers 429 exactly when the [X-RateLimit-Remaining]
    header it has just set is 0 and hands the request on exactly when the
    header is positive; and the whole seconds it puts in [Retry-After]
    are enough and less than a second too many: on a limiter within its
    positive bound a request made that many seconds later is admitted. *)
Theorem middleware_verdict path now now3 rl :
  (bypasses path = true -> rateLimit path now now now3 rl = (Next None, rl)) /\
  (bypasses path = false ->
   match fst (rateLimit path now now now3 rl) with
   | Next None => False
   | Next (Some remaining) =>
       0 < remaining /\ fst (tryAcquire now rl) = true /\
       snd (rateLimit path now now now3 rl) = snd (tryAcquire now rl)
   | TooManyRequests remaining retryAfter =>
       remaining = 0 /\ fst (tryAcquire now rl) = false /\
       snd (rateLimit path now now now3 rl) = snd (tryAcquire now rl) /\
       getRetryAfter now3 (snd (tryAcquire now rl)) <= 1000 * retryAfter
       < getRetryAfter now3 (snd (tryAcquire now rl)) + 1000 /\
       (0 < maxRequests rl -> len (requests rl) <= maxRequests rl ->
        forall t, now3 + 1000 * retryAfter <= t ->
                  fst (tryAcquire t (snd (tryAcquire now rl))) = true)
   end).
Proof.
  unfold rateLimit. split; intros Hpath; rewrite Hpath; [reflexivity|].
  pose proof (remaining_positive now rl) as Hrem.
  assert (Hnonneg : 0 <= fst (getRemainingRequests now rl))
    by (unfold getRemainingRequests; simpl; lia).
  destruct (getRemainingRequests now rl) as [remaining rl1] eqn:Hget.
  assert (Hrl1 : rl1 = cleanupOldRequests now rl)
    by (unfold getRemainingRequests in Hget; congruence).
  subst rl1. rewrite tryAcquire_after_cleanup. simpl in Hrem, Hnonneg.
  destruct (tryAcquire now rl) as [allowed rl2] eqn:Htry. cbn [fst snd] in *.
  destruct allowed; cbn [negb fst snd].
  - split; [apply Hrem; reflexivity|]. auto.
  - split.
    { destruct (Z.eq_dec remaining 0); [assumption|].
      assert (0 < remaining) by lia. apply Hrem in H. discriminate. }
    split; [reflexivity|]. split; [reflexivity|].
    split; [apply ceilSeconds_covers|].
    intros Hpos Hb t Ht.
    destruct (tryAcquire_keeps_bound now rl Hpos Hb) as [Hpos' Hb'].
    rewrite Htry in Hpos', Hb'. simpl in Hpos', Hb'.
    apply retry_after_suffices with now3; try assumption.
    pose proof (ceilSeconds_covers (getRetryAfter now3 rl2)). lia.
Qed.

Lemma middleware_verdict_witness :
  rateLimit "/stats/retry" 10 10 11 full_limiter = (Next None, full_limiter) /\
  match fst (rateLimit "/api/orders" 10 10 11 full_limiter) with
  | Next None => False
  | Next (Some remaining) =>
      0 < remaining /\ fst (tryAcquire 10 full_limiter) = true /\
      snd (rateLimit "/api/orders" 10 10 11 full_limiter)
      = snd (tryAcquire 10 full_limiter)
  | TooManyRequests remaining retryAfter =>
      remaining = 0 /\ fst (tryAcquire 10 full_limiter) = false /\
      snd (rateLimit "/api/orders" 10 10 11 full_limiter)
      = snd (tryAcquire 10 full_limiter) /\
      getRetryAfter 11 (snd (tryAcquire 10 full_limiter)) <= 1000 * retryAfter
      < getRetryAfter 11 (snd (tryAcquire 10 full_limiter)) + 1000 /\
      (0 < maxRequests full_limiter ->
       len (requests full_limiter) <= maxRequests full_limiter ->
       forall t, 11 + 1000 * retryAfter <= t ->
                 fst (tryAcquire t (snd (tryAcquire 10 full_limiter))) = true)
  end.
Proof.
  split.
  - apply (proj1 (middleware_verdict "/stats/retry" 10 11 full_limiter)).
    reflexivity.
  - apply (proj2 (middleware_verdict "/api/orders" 10 11 full_limiter)).
    reflexivity.
Defined.

End RateLimiterApiFacts.


(** ** CircuitBreaker: statistics, history and recovery *)

Module CircuitBreakerApiFacts.
Import Js CircuitBreaker CircuitBreakerApi.

Ltac branches :=
  repeat match goal with
         | |- context [if ?c then _ else _] => destruct c eqn:?; simpl
         end.

(** *** Statistics *)

Lemma accounted_tick (s : Shared) (e : Tick) :
  accounted (breaker s) (pending s) ->
  accounted (breaker (tick s e)) (pending (tick s e)).
Proof.
  destruct s as [[f r h st fc sc lt ha [tot suc fai rej hist]] n].
  unfold accounted. simpl. intros Hacc.
  destruct e as [name now | ok now' |]; simpl.
  - unfold enter, evaluateState. simpl.
    destruct st; simpl; branches; rewrite ?Nat2Z.inj_succ; lia.
  - destruct n as [|n]; simpl; [exact Hacc|].
    rewrite Nat2Z.inj_succ in Hacc.
    unfold settled, onSuccess, onFailure. simpl.
    destruct ok, st; simpl; branches; lia.
  - exact Hacc.
Qed.

Lemma accounted_step {W T : Type} (s : t * W) (a : Action W T) :
  accounted (fst s) 0 -> accounted (fst (step s a)) 0.
Proof.
  destruct s as [[f r h st fc sc lt ha [tot suc fai rej hist]] w].
  unfold accounted. simpl. intros Hacc.
  destruct a as [fn name now now'|]; simpl; [|exact Hacc].
  rewrite ?CircuitBreakerFacts.execute_unfold; unfold evaluateState, onSuccess, onFailure. simpl.
  destruct st; simpl; branches;
    destruct (fn w) as [[v | e |] w']; simpl; branches; lia.
Qed.

(** X8.  The statistics of a breaker always add up.  In every state
    reachable by calls that may overlap, and resets, [totalRequests] is
    the sum of [successfulRequests], [failedRequests],
    [rejectedRequests] and the number of calls suspended in
    [await fn()]: a call is counted in [totalRequests] when it enters and
    as exactly one of success, failure or rejection once it is over.
    Between calls made one after another nothing is suspended and the
    three outcomes add up to the total. *)
Theorem breaker_statistics_add_up :
  (forall options (es : list Tick),
     let s := ticks es (start options) in
     totalRequests (stats (breaker s))
     = successfulRequests (stats (breaker s))
       + failedRequests (stats (breaker s))
       + rejectedRequests (stats (breaker s))
       + Z.of_nat (pending s) /\
     0 <= successfulRequests (stats (breaker s)) /\
     0 <= failedRequests (stats (breaker s)) /\
     0 <= rejectedRequests (stats (breaker s))) /\
  (forall (W T : Type) options (acts : list (Action W T)) (w : W),
     let cb := fst (run acts (new options, w)) in
     totalRequests (stats cb)
     = successfulRequests (stats cb) + failedRequests (stats cb)
       + rejectedRequests (stats cb)).
Proof.
  split.
  - intros options es.
    assert (Hgen : forall s, accounted (breaker s) (pending s) ->
                             accounted (breaker (ticks es s)) (pending (ticks es s))).
    { induction es as [|e es IH]; intros s Hacc; simpl; [exact Hacc|].
      apply IH, accounted_tick, Hacc. }
    apply (Hgen (start options)). unfold accounted. simpl. lia.
  - intros W T options acts w.
    assert (Hgen : forall (s : t * W), accounted (fst s) 0 ->
                                       accounted (fst (run acts s)) 0).
    { induction acts as [|a acts IH]; intros s Hacc; simpl; [exact Hacc|].
      apply IH, accounted_step, Hacc. }
    destruct (Hgen (new options, w)) as [Hsum _].
    { unfold accounted. simpl. lia. }
    simpl in *. lia.
Qed.

(** *** History *)

Lemma chained_snoc start history mid final timestamp :
  chained start history mid ->
  chained start (history ++ [mkStateChange mid final timestamp]) final.
Proof.
  revert start. induction history as [|c rest IH]; intros start; simpl.
  - intros ->. auto.
  - intros [Hfrom Hrest]. split; [exact Hfrom | apply IH, Hrest].
Qed.

Lemma arrows_step {W T : Type} (s : t * W) (a : Action W T) :
  Forall (fun c => is_arrow c = true) (stateChanges (stats (fst s))) ->
  Forall (fun c => is_arrow c = true) (stateChanges (stats (fst (step s a)))).
Proof.
  destruct s as [[f r h st fc sc lt ha [tot suc fai rej hist]] w].
  simpl. intros Hall.
  destruct a as [fn name now now'|]; simpl; [|exact Hall].
  rewrite ?CircuitBreakerFacts.execute_unfold; unfold evaluateState, onSuccess, onFailure. simpl.
  destruct st; simpl; branches;
    destruct (fn w) as [[v | e |] w']; simpl; branches;
    rewrite ?Forall_app; repeat split; try assumption;
    repeat constructor.
Qed.

Lemma chained_step {W T : Type} (s : t * W) (a : Action W T) :
  is_call a ->
  chained CLOSED (stateChanges (stats (fst s))) (state (fst s)) ->
  chained CLOSED (stateChanges (stats (fst (step s a)))) (state (fst (step s a))).
Proof.
  destruct s as [[f r h st fc sc lt ha [tot suc fai rej hist]] w].
  simpl. intros Hcall Hch.
  destruct a as [fn name now now'|]; simpl; [|contradiction].
  rewrite ?CircuitBreakerFacts.execute_unfold; unfold evaluateState, onSuccess, onFailure. simpl.
  destruct st; simpl; branches;
    destruct (fn w) as [[v | e |] w']; simpl; branches;
    repeat apply chained_snoc; exact Hch.
Qed.

Lemma recorded_tick (s : Shared) (e : Tick) :
  Forall (fun c => is_arrow c = true \/ is_loop c = true)
         (stateChanges (stats (breaker s))) ->
  Forall (fun c => is_arrow c = true \/ is_loop c = true)
         (stateChanges (stats (breaker (tick s e)))).
Proof.
  destruct s as [[f r h st fc sc lt ha [tot suc fai rej hist]] n].
  simpl. intros Hall.
  destruct e as [name now | ok now' |]; simpl.
  - unfold enter, evaluateState. simpl.
    destruct st; simpl; branches;
      rewrite ?Forall_app; repeat split; try assumption;
      repeat (apply Forall_cons || apply Forall_nil);
      first [left; reflexivity | right; reflexivity].
  - destruct n as [|n]; simpl; [exact Hall|].
    unfold settled, onSuccess, onFailure. simpl.
    destruct ok, st; simpl; branches;
      rewrite ?Forall_app; repeat split; try assumption;
      repeat (apply Forall_cons || apply Forall_nil);
      first [left; reflexivity | right; reflexivity].
  - exact Hall.
Qed.

Lemma chained_tick (s : Shared) (e : Tick) :
  not_resets e ->
  chained CLOSED (stateChanges (stats (breaker s))) (state (breaker s)) ->
  chained CLOSED (stateChanges (stats (breaker (tick s e))))
          (state (breaker (tick s e))).
Proof.
  destruct s as [[f r h st fc sc lt ha [tot suc fai rej hist]] n].
  simpl. intros Hturn Hch.
  destruct e as [name now | ok now' |]; simpl; [| |contradiction].
  - unfold enter, evaluateState. simpl.
    destruct st; simpl; branches;
      repeat apply chained_snoc; exact Hch.
  - destruct n as [|n]; simpl; [exact Hch|].
    unfold settled, onSuccess, onFailure. simpl.
    destruct ok, st; simpl; branches;
      repeat apply chained_snoc; exact Hch.
Qed.

(** X9.  The transition history follows the state diagram.  When calls
    are made one after another every entry is an arrow of the diagram:
    CLOSED to OPEN, OPEN to HALF_OPEN, HALF_OPEN to CLOSED or HALF_OPEN
    to OPEN.  When calls overlap, a failure that settles while the circuit
    is already OPEN with the threshold reached records OPEN to OPEN, and
    that is the only other entry there can be.  In both cases, as long as
    [reset] is not used, the history has no gap: it leads from CLOSED,
    entry by entry, to the current state. *)
Theorem history_follows_the_diagram :
  (forall (W T : Type) options (acts : list (Action W T)) (w : W),
     let cb := fst (run acts (new options, w)) in
     Forall (fun c => is_arrow c = true) (stateChanges (stats cb)) /\
     (Forall is_call acts ->
      chained CLOSED (stateChanges (stats cb)) (state cb))) /\
  (forall options (es : list Tick),
     let cb := breaker (ticks es (start options)) in
     Forall (fun c => is_arrow c = true \/ is_loop c = true)
            (stateChanges (stats cb)) /\
     (Forall not_resets es ->
      chained CLOSED (stateChanges (stats cb)) (state cb))) /\
  In (mkStateChange OPEN OPEN 1950)
     (stateChanges
        (stats (breaker (ticks overlapping_failures (start no_options))))).
Proof.
  split; [|split].
  - intros W T options acts w. simpl. split.
    + assert (Hgen : forall (s : t * W),
                 Forall (fun c => is_arrow c = true) (stateChanges (stats (fst s))) ->
                 Forall (fun c => is_arrow c = true)
                        (stateChanges (stats (fst (run acts s))))).
      { induction acts as [|a acts' IH]; intros s Hall; simpl; [exact Hall|].
        apply IH, arrows_step, Hall. }
      apply Hgen. constructor.
    + intros Hcalls.
      assert (Hgen : forall (s : t * W),
                 chained CLOSED (stateChanges (stats (fst s))) (state (fst s)) ->
                 chained CLOSED (stateChanges (stats (fst (run acts s))))
                         (state (fst (run acts s)))).
      { induction Hcalls as [|a acts' Ha _ IH]; intros s Hch; simpl; [exact Hch|].
        apply IH, chained_step; assumption. }
      apply Hgen. reflexivity.
  - intros options es. simpl. split.
    + assert (Hgen : forall s,
                 Forall (fun c => is_arrow c = true \/ is_loop c = true)
                        (stateChanges (stats (breaker s))) ->
                 Forall (fun c => is_arrow c = true \/ is_loop c = true)
                        (stateChanges (stats (breaker (ticks es s))))).
      { induction es as [|e es' IH]; intros s Hall; simpl; [exact Hall|].
        apply IH, recorded_tick, Hall. }
      apply Hgen. constructor.
    + intros Hturns.
      assert (Hgen : forall s,
                 chained CLOSED (stateChanges (stats (breaker s))) (state (breaker s)) ->
                 chained CLOSED (stateChanges (stats (breaker (ticks es s))))
                         (state (breaker (ticks es s)))).
      { induction Hturns as [|e es' He _ IH]; intros s Hch; simpl; [exact Hch|].
        apply IH, chained_tick; assumption. }
      apply Hgen. reflexivity.
  - vm_compute. auto 10.
Qed.

Lemma history_follows_the_diagram_witness :
  chained CLOSED (stateChanges (stats (fst reopened))) (state (fst reopened)) /\
  chained CLOSED
    (stateChanges
       (stats (breaker (ticks overlapping_failures (start no_options)))))
    (state (breaker (ticks overlapping_failures (start no_options)))).
Proof.
  destruct history_follows_the_diagram as (Hsequence & Hoverlap & _).
  split.
  - apply (Hsequence nat unit no_options
             (five_failures
                ++ [Call probe_succeeds "GetProduct-1" 31200 31300;
                    Call probe_succeeds "GetProduct-2" 31400 31500;
                    Call probe_fails "GetProduct-3" 31600 31700]) 0%nat).
    repeat constructor.
  - apply (Hoverlap no_options overlapping_failures).
    repeat constructor.
Defined.

(** *** The gate *)

Ltac comparisons :=
  repeat match goal with
         | H : (_ <=? _) = true |- _ => apply Z.leb_le in H
         | H : (_ <=? _) = false |- _ => apply Z.leb_gt in H
         end.

Lemma gate_inv_step {W T : Type} (s : t * W) (a : Action W T) :
  gate_inv (fst s) -> gate_inv (fst (step s a)).
Proof.
  destruct s as [[f r h st fc sc lt ha [tot suc fai rej hist]] w].
  unfold gate_inv. simpl. intros (Hf & Hclosed & Hopen).
  destruct a as [fn name now now'|]; simpl.
  - rewrite ?CircuitBreakerFacts.execute_unfold; unfold evaluateState, onSuccess, onFailure. simpl.
    destruct st; simpl; branches;
      destruct (fn w) as [[v | e |] w']; simpl; branches; comparisons;
      (split; [exact Hf|]); split; intros Hst;
      try discriminate; try congruence;
      try (specialize (Hclosed eq_refl); lia);
      try (apply Hopen; discriminate); try lia.
  - split; [exact Hf|]. split; [lia | congruence].
Qed.

Lemma gate_inv_run {W T : Type} (acts : list (Action W T)) : forall (s : t * W),
  gate_inv (fst s) -> gate_inv (fst (run acts s)).
Proof.
  induction acts as [|a acts IH]; intros s Hinv; simpl; [exact Hinv|].
  apply IH, gate_inv_step, Hinv.
Qed.

(** X10.  A breaker built with a positive failure threshold is never
    CLOSED with its threshold reached: in every reachable CLOSED state
    [0 <= failureCount < failureThreshold].  And whenever it is not CLOSED
    a failure time has been recorded, so the subtraction
    [Date.now() - this.lastFailureTime] in [evaluateState] never meets the
    initial [null]. *)
Theorem closed_means_below_threshold (W T : Type) options
        (acts : list (Action W T)) (w : W) :
  0 < failureThreshold (new options) ->
  let cb := fst (run acts (new options, w)) in
  (state cb = CLOSED -> 0 <= failureCount cb < failureThreshold cb) /\
  (state cb <> CLOSED -> exists t0, lastFailureTime cb = Some t0).
Proof.
  intros Hf cb.
  assert (Hinv : gate_inv cb).
  { apply (gate_inv_run acts (new options, w)).
    unfold gate_inv. simpl in *. split; [exact Hf|]. split; [lia | congruence]. }
  destruct Hinv as (_ & Hclosed & Hopen).
  split; [exact Hclosed|].
  intros Hst. specialize (Hopen Hst).
  destruct (lastFailureTime cb) as [t0|]; [exists t0; reflexivity | congruence].
Qed.

Lemma closed_means_below_threshold_witness :
  (exists t0, lastFailureTime (fst reopened) = Some t0) /\
  0 <= failureCount (fst (run [Call probe_fails "GetProduct-1" 1000 1200]
                              (new no_options, 0%nat)))
  < failureThreshold (fst (run [Call probe_fails "GetProduct-1" 1000 1200]
                               (new no_options, 0%nat))).
Proof.
  split.
  - apply (closed_means_below_threshold nat unit no_options
             (five_failures
                ++ [Call probe_succeeds "GetProduct-1" 31200 31300;
                    Call probe_succeeds "GetProduct-2" 31400 31500;
                    Call probe_fails "GetProduct-3" 31600 31700]) 0%nat).
    + simpl. lia.
    + vm_compute. discriminate.
  - apply (closed_means_below_threshold nat unit no_options
             [Call probe_fails "GetProduct-1" 1000 1200] 0%nat).
    + simpl. lia.
    + reflexivity.
Defined.

(** *** Probing and recovery *)

(** X11.  Once [resetTimeout] has elapsed the OPEN breaker lets the next
    call through: at its entry it records OPEN -> HALF_OPEN and invokes
    the operation, as it does for any call that finds it HALF_OPEN; the
    counters are as before.  If the circuit is still HALF_OPEN when the
    probe settles -- no overlapping call has settled and no [reset] has
    run in between -- a probe that fails re-opens the circuit and
    restarts the timeout from the moment of that failure, and a probe
    that succeeds raises [successCount], and closes the circuit with
    cleared counters when [halfOpenRequests] is reached.  The caller gets
    the settlement of the operation, except that a rejection with
    [undefined] or [null] reaches it as a [TypeError].  A probe that
    nothing overlaps is its entry followed by its settlement. *)
Theorem probe_is_let_through name now cb :
  state cb = HALF_OPEN \/
  (state cb = OPEN /\ resetTimeout cb <= timeSinceLastFailure now cb) ->
  let cb1 := snd (enter name now cb) in
  (fst (enter name now cb) = None /\
   state cb1 = HALF_OPEN /\
   failureCount cb1 = failureCount cb /\
   successCount cb1 = successCount cb /\
   halfOpenRequests cb1 = halfOpenRequests cb /\
   (state cb = OPEN ->
    In (mkStateChange OPEN HALF_OPEN now) (stateChanges (stats cb1)))) /\
  (forall (T : Type) (o : Outcome T) now' cb2,
     state cb2 = HALF_OPEN ->
     let cb' := snd (settle o now' cb2) in
     match o with
     | Resolved v =>
         fst (settle o now' cb2) = Resolved v /\
         if halfOpenRequests cb2 <=? successCount cb2 + 1
         then state cb' = CLOSED /\ failureCount cb' = 0 /\ successCount cb' = 0
         else state cb' = HALF_OPEN /\ successCount cb' = successCount cb2 + 1
     | Rejected e =>
         fst (settle o now' cb2) = Rejected e /\
         state cb' = OPEN /\ lastFailureTime cb' = Some now' /\
         failureCount cb' = failureCount cb2 + 1
     | RejectedNullish =>
         fst (settle o now' cb2) = Rejected undefinedMessageError /\
         state cb' = OPEN /\ lastFailureTime cb' = Some now' /\
         failureCount cb' = failureCount cb2 + 1
     end) /\
  (forall (W T : Type) (fn : Operation W T) now' (w : W),
     execute fn name now now' w cb
     = (fst (settle (fst (fn w)) now' cb1),
        snd (settle (fst (fn w)) now' cb1), snd (fn w))).
Proof.
  intros Hgate cb1.
  assert (Henter : fst (enter name now cb) = None /\ state cb1 = HALF_OPEN).
  { unfold cb1. clear cb1.
    destruct cb as [f r h st fc sc lt ha [tot suc fai rej hist]].
    unfold enter, evaluateState, timeSinceLastFailure in *. simpl in *.
    destruct Hgate as [-> | [-> Helapsed]]; simpl; [auto|].
    destruct (Z.leb_spec r (now - match lt with Some t0 => t0 | None => 0 end));
      [simpl; auto | lia]. }
  split; [|split].
  - destruct Henter as [Hnone Hhalf].
    split; [exact Hnone|]. split; [exact Hhalf|].
    unfold cb1. clear cb1 Hnone Hhalf.
    destruct cb as [f r h st fc sc lt ha [tot suc fai rej hist]].
    unfold enter, evaluateState, timeSinceLastFailure in *. simpl in *.
    destruct Hgate as [-> | [-> Helapsed]]; simpl.
    + repeat split; auto. discriminate.
    + destruct (Z.leb_spec r (now - match lt with Some t0 => t0 | None => 0 end));
        [|lia].
      simpl. repeat split; auto.
      intros _. apply in_or_app. right. left. reflexivity.
  - intros T o now' cb2 Hhalf.
    destruct cb2 as [f r h st fc sc lt ha [tot suc fai rej hist]].
    simpl in Hhalf. subst st.
    destruct o as [v | e |]; simpl;
      unfold settled, onSuccess, onFailure; simpl; branches; auto.
  - intros W T fn now' w. unfold execute.
    destruct Henter as [Hnone _]. unfold cb1.
    destruct (enter name now cb) as [[e|] cb1']; simpl in *; [discriminate|].
    destruct (fn w) as [o w']. simpl.
    destruct (settle o now' cb1') as [result cb'']. reflexivity.
Qed.

Lemma probe_is_let_through_witness :
  let cb := fst (run five_failures (new no_options, 0%nat)) in
  let cb1 := snd (enter "GetProduct-1" 31200 cb) in
  fst (enter "GetProduct-1" 31200 cb) = None /\
  state cb1 = HALF_OPEN /\
  failureCount cb1 = failureCount cb /\
  successCount cb1 = successCount cb /\
  halfOpenRequests cb1 = halfOpenRequests cb /\
  (state cb = OPEN ->
   In (mkStateChange OPEN HALF_OPEN 31200) (stateChanges (stats cb1))).
Proof.
  intros cb.
  apply (probe_is_let_through "GetProduct-1" 31200 cb).
  right. split; [reflexivity|]. vm_compute. discriminate.
Defined.

Section Streaks.
Context {W T : Type}.
Implicit Types (cb : t) (w : W) (acts : list (Action W T)).

Lemma step_half_open_success (a : Action W T) cb w :
  state cb = HALF_OPEN ->
  succeeding_call a ->
  halfOpenRequests (fst (step (cb, w) a)) = halfOpenRequests cb /\
  if halfOpenRequests cb <=? successCount cb + 1
  then state (fst (step (cb, w) a)) = CLOSED /\
       failureCount (fst (step (cb, w) a)) = 0 /\
       successCount (fst (step (cb, w) a)) = 0
  else state (fst (step (cb, w) a)) = HALF_OPEN /\
       successCount (fst (step (cb, w) a)) = successCount cb + 1.
Proof.
  intros Hst Hok. destruct a as [fn name now now'|]; [|contradiction].
  destruct (Hok w) as (v & w' & Hfn).
  simpl. rewrite ?CircuitBreakerFacts.execute_unfold; unfold evaluateState. simpl. rewrite Hst, Hfn.
  unfold onSuccess. simpl. rewrite Hst. simpl.
  destruct (halfOpenRequests cb <=? successCount cb + 1); simpl; auto.
Qed.

Lemma half_open_streak acts : forall cb w,
  state cb = HALF_OPEN ->
  Forall succeeding_call acts ->
  successCount cb + len acts < halfOpenRequests cb ->
  state (fst (run acts (cb, w))) = HALF_OPEN /\
  successCount (fst (run acts (cb, w))) = successCount cb + len acts /\
  halfOpenRequests (fst (run acts (cb, w))) = halfOpenRequests cb.
Proof.
  unfold len.
  induction acts as [|a acts IH]; intros cb w Hst Hall Hlt.
  - simpl. repeat split; try assumption; lia.
  - inversion Hall as [|? ? Ha Hrest]; subst.
    destruct (step_half_open_success a cb w Hst Ha) as (Hh & Hs).
    simpl length in *. simpl run.
    destruct (step (cb, w) a) as [cb1 w1] eqn:Hstep. cbn [fst] in Hh, Hs.
    destruct (Z.leb_spec (halfOpenRequests cb) (successCount cb + 1)); [lia|].
    destruct Hs as [Hs Hc].
    destruct (IH cb1 w1 Hs Hrest) as (H1 & H2 & H3); [lia|].
    fold (run acts (cb1, w1)). rewrite H1, H2, H3. repeat split; lia.
Qed.

End Streaks.

(** X12.  A HALF_OPEN breaker that has counted [successCount] successes
    closes on exactly the success that brings the count to
    [halfOpenRequests]: any shorter streak of successful calls leaves it
    HALF_OPEN, and the streak that completes the count leaves it CLOSED
    with [failureCount] and [successCount] back at zero. *)
Theorem half_open_closes_on_count
        (W T : Type) (acts : list (Action W T)) cb (w : W) :
  state cb = HALF_OPEN ->
  Forall succeeding_call acts ->
  successCount cb + len acts = halfOpenRequests cb ->
  (0 < length acts)%nat ->
  (forall k, (k < length acts)%nat ->
             state (fst (run (firstn k acts) (cb, w))) = HALF_OPEN) /\
  state (fst (run acts (cb, w))) = CLOSED /\
  failureCount (fst (run acts (cb, w))) = 0 /\
  successCount (fst (run acts (cb, w))) = 0.
Proof.
  intros Hst Hall Hlen Hpos. split.
  - intros k Hk. apply half_open_streak.
    + exact Hst.
    + apply CircuitBreakerFacts.Forall_prefix. exact Hall.
    + unfold len in *. rewrite length_firstn. lia.
  - destruct (exists_last (l := acts)) as (l & a & Heq).
    { intros ->. simpl in Hpos. lia. }
    subst acts. rewrite CircuitBreakerFacts.run_calls_app.
    apply Forall_app in Hall. destruct Hall as [Hl Ha].
    inversion Ha as [|? ? Hok _]; subst.
    unfold len in Hlen. rewrite length_app in Hlen. simpl length in Hlen.
    destruct (half_open_streak l cb w) as (Hs & Hc & Hh);
      [exact Hst | exact Hl | unfold len; lia |].
    destruct (run l (cb, w)) as [cb1 w1]. cbn [fst] in Hs, Hc, Hh.
    destruct (step_half_open_success a cb1 w1 Hs Hok) as (_ & Hend).
    simpl run. unfold len in Hc.
    destruct (Z.leb_spec (halfOpenRequests cb1) (successCount cb1 + 1)); [|lia].
    exact Hend.
Qed.

Lemma half_open_closes_on_count_witness :
  let cb := snd (fst (execute probe_succeeds "GetProduct-1" 31200 31300 5%nat
                              (fst (run five_failures (new no_options, 0%nat))))) in
  let acts := [Call probe_succeeds "GetProduct-2" 31400 31500;
               Call probe_succeeds "GetProduct-3" 31600 31700] in
  (forall k, (k < length acts)%nat ->
             state (fst (run (firstn k acts) (cb, 6%nat))) = HALF_OPEN) /\
  state (fst (run acts (cb, 6%nat))) = CLOSED /\
  failureCount (fst (run acts (cb, 6%nat))) = 0 /\
  successCount (fst (run acts (cb, 6%nat))) = 0.
Proof.
  intros cb acts.
  apply (half_open_closes_on_count nat unit acts cb 6%nat).
  - reflexivity.
  - repeat constructor; intros w; eexists; eexists; reflexivity.
  - reflexivity.
  - simpl. lia.
Defined.

(** X13.  Only consecutive failures count: a success through a CLOSED
    breaker that has seen fewer failures than its threshold clears
    [failureCount], so the failures before it and those after it never
    add up to open the circuit. *)
Theorem success_forgets_failures
        (W T : Type) (acts : list (Action W T)) (a : Action W T) cb (w : W) :
  state cb = CLOSED ->
  Forall failing_call acts ->
  failureCount cb + len acts < failureThreshold cb ->
  succeeding_call a ->
  state (fst (run (acts ++ [a]) (cb, w))) = CLOSED /\
  failureCount (fst (run (acts ++ [a]) (cb, w))) = 0 /\
  failureThreshold (fst (run (acts ++ [a]) (cb, w))) = failureThreshold cb.
Proof.
  intros Hst Hall Hlt Hok.
  rewrite CircuitBreakerFacts.run_calls_app.
  destruct (CircuitBreakerFacts.failing_streak acts cb w Hst Hall Hlt)
    as (Hs & _ & Hth).
  destruct (run acts (cb, w)) as [cb1 w1]. cbn [fst] in Hs, Hth.
  destruct a as [fn name now now'|]; [|contradiction].
  destruct (Hok w1) as (v & w' & Hfn).
  simpl. rewrite ?CircuitBreakerFacts.execute_unfold; unfold evaluateState. simpl. rewrite Hs, Hfn.
  unfold onSuccess. simpl. rewrite Hs. simpl. auto.
Qed.

Lemma success_forgets_failures_witness :
  let acts := repeat (Call probe_fails "GetProduct-1" 1000 1200) 4 in
  let cb := new no_options in
  state (fst (run (acts ++ [Call probe_succeeds "GetProduct-2" 1300 1400])
                  (cb, 0%nat))) = CLOSED /\
  failureCount (fst (run (acts ++ [Call probe_succeeds "GetProduct-2" 1300 1400])
                         (cb, 0%nat))) = 0 /\
  failureThreshold (fst (run (acts ++ [Call probe_succeeds "GetProduct-2" 1300 1400])
                             (cb, 0%nat))) = failureThreshold cb.
Proof.
  intros acts cb.
  apply (success_forgets_failures nat unit acts
           (Call probe_succeeds "GetProduct-2" 1300 1400) cb 0%nat).
  - reflexivity.
  - repeat constructor; intros w; eexists; eexists; reflexivity.
  - vm_compute. reflexivity.
  - intros w. eexists. eexists. reflexivity.
Defined.

End CircuitBreakerApiFacts.


(** ** The guarded call: breaker around retry *)

Module PipelineFacts.
Import Js Pipeline.

Section Layers.
Context {W T : Type}.
Variable sleep : Z -> W -> W.
Implicit Types (fn : Operation W T) (w : W) (p : RetryPattern.t)
         (cb : CircuitBreaker.t).




End Layers.



End PipelineFacts.


(** ** RetryPattern: counters, waiting time and transient faults *)

Module RetryPatternApiFacts.
Import Js RetryPattern RetryPatternApi.

Section Runs.
Context {W T : Type}.
Variable sleep : Z -> W -> W.
Implicit Types (fn : Operation W T) (p q : t) (w : W) (r : Run W T).

Lemma attempts_keep_config fn fuel : forall attempt d lastError w p r,
  attempts sleep fn fuel attempt d lastError w p = Some r ->
  same_config (policy r) p.
Proof.
  unfold same_config.
  induction fuel as [|fuel IH]; intros attempt d lastError w p r Hrun;
    simpl in Hrun.
  - destruct (attempt <=? maxRetries p + 1); [discriminate|].
    inversion Hrun. simpl. auto.
  - destruct (attempt <=? maxRetries p + 1); [|inversion Hrun; simpl; auto].
    destruct (fn w) as [[v | e |] w1].
    + inversion Hrun. simpl. destruct (1 <? attempt); simpl; auto.
    + destruct (maxRetries p <? attempt).
      * inversion Hrun. simpl. auto.
      * destruct (attempts sleep fn fuel (attempt + 1) _ _ _ _)
          as [r'|] eqn:Hrec; [|discriminate].
        inversion Hrun. simpl. apply IH in Hrec. exact Hrec.
    + inversion Hrun. simpl. auto.
Qed.

Lemma last_call_after (o : Outcome T) (l : list (Outcome T)) :
  (1 <= length l)%nat ->
  last (o :: l) RejectedNullish = last l RejectedNullish.
Proof. destruct l; simpl; [lia | reflexivity]. Qed.

Lemma attempts_counters fn fuel : forall attempt d lastError w p r,
  attempt <= maxRetries p + 1 ->
  attempts sleep fn fuel attempt d lastError w p = Some r ->
  1 <= len (calls (trace r)) /\
  totalAttempts (stats (policy r))
  = totalAttempts (stats p) + len (calls (trace r)) /\
  match completion r with
  | Return _ =>
      successfulRetries (stats (policy r))
      = successfulRetries (stats p)
        + (if 1 <? attempt + len (calls (trace r)) - 1 then 1 else 0) /\
      failedAfterRetries (stats (policy r)) = failedAfterRetries (stats p)
  | Throw _ =>
      successfulRetries (stats (policy r)) = successfulRetries (stats p) /\
      failedAfterRetries (stats (policy r))
      = failedAfterRetries (stats p) + (if gave_up (trace r) then 1 else 0)
  end.
Proof.
  unfold len.
  induction fuel as [|fuel IH]; intros attempt d lastError w p r Hin Hrun;
    simpl in Hrun.
  - destruct (Z.leb_spec attempt (maxRetries p + 1)); [discriminate | lia].
  - destruct (Z.leb_spec attempt (maxRetries p + 1)); [|lia].
    destruct (fn w) as [[v | e |] w1].
    + inversion Hrun; subst r; clear Hrun. simpl.
      replace (attempt + 1 - 1) with attempt by lia.
      destruct (1 <? attempt); simpl; repeat split; lia.
    + destruct (Z.ltb_spec (maxRetries p) attempt).
      * inversion Hrun; subst r; clear Hrun. simpl. repeat split; lia.
      * destruct (attempts sleep fn fuel (attempt + 1) _ _ _ _)
          as [r'|] eqn:Hrec; [|discriminate].
        inversion Hrun; subst r; clear Hrun.
        apply IH in Hrec; [|simpl; lia].
        destruct Hrec as (Hn & Htot & Hdone).
        change (completion (after [Called (Rejected e); Slept d] r'))
          with (completion r').
        change (policy (after [Called (Rejected e); Slept d] r'))
          with (policy r').
        change (length (calls (trace (after [Called (Rejected e); Slept d] r'))))
          with (S (length (calls (trace r')))).
        rewrite Nat2Z.inj_succ.
        replace (attempt + Z.succ (Z.of_nat (length (calls (trace r')))) - 1)
          with (attempt + 1 + Z.of_nat (length (calls (trace r'))) - 1) by lia.
        cbn [stats with_stats totalAttempts successfulRetries failedAfterRetries
             bump_totalAttempts] in Htot, Hdone.
        split; [lia|]. split; [lia|].
        assert (Hlast : gave_up (after [Called (Rejected e); Slept d] r')
                                  .(trace) = gave_up (trace r')).
        { unfold gave_up.
          change (calls (trace (after [Called (Rejected e); Slept d] r')))
            with (Rejected e :: calls (trace r')).
          rewrite last_call_after by lia. reflexivity. }
        rewrite Hlast.
        destruct (completion r'); exact Hdone.
    + inversion Hrun; subst r; clear Hrun. simpl. repeat split; lia.
Qed.

Lemma attempts_observed fn fuel : forall attempt d lastError w p q,
  same_config p q ->
  option_map observed (attempts sleep fn fuel attempt d lastError w p)
  = option_map observed (attempts sleep fn fuel attempt d lastError w q).
Proof.
  induction fuel as [|fuel IH];
    intros attempt d lastError w p q (Hm & Hd & Hb & Hx); simpl.
  - rewrite Hm. destruct (attempt <=? maxRetries q + 1); reflexivity.
  - rewrite Hm. destruct (attempt <=? maxRetries q + 1); [|reflexivity].
    destruct (fn w) as [[v | e |] w1]; [reflexivity | | reflexivity].
    destruct (maxRetries q <? attempt); [reflexivity|].
    rewrite Hb, Hx.
    specialize (IH (attempt + 1) (Z.min (d * backoffMultiplier q) (maxDelay q))
                   (Some e) (sleep d w1)
                   (with_stats bump_totalAttempts p)
                   (with_stats bump_totalAttempts q)).
    destruct (attempts sleep fn fuel (attempt + 1) _ _ _
                       (with_stats bump_totalAttempts p)) as [r1|];
      destruct (attempts sleep fn fuel (attempt + 1) _ _ _
                         (with_stats bump_totalAttempts q)) as [r2|];
      simpl in *;
      try (specialize (IH (conj Hm (conj Hd (conj Hb Hx)))); discriminate);
      [|reflexivity].
    specialize (IH (conj Hm (conj Hd (conj Hb Hx)))).
    unfold observed in *. simpl. inversion IH. reflexivity.
Qed.

End Runs.

(** X15.  [execute] keeps an exact book of its work.  It leaves the
    configuration alone; [totalAttempts] grows by the number of times the
    operation was invoked; a run that returns counts as one successful
    retry exactly when it took more than one attempt; a run that throws
    counts as one failure after retries exactly when it gave up, that is
    when its last invocation rejected with an object, and then it has
    made all [maxRetries + 1] attempts.  A run cut short by a rejection
    with [undefined] or [null] throws the [TypeError] and counts no
    failure, and neither does a run that makes no attempt. *)
Theorem execute_counts_its_work
        (W T : Type) (sleep : Z -> W -> W) (fn : Operation W T) w p r :
  execute sleep fn w p = Some r ->
  let n := len (calls (trace r)) in
  same_config (policy r) p /\
  totalAttempts (stats (policy r)) = totalAttempts (stats p) + n /\
  match completion r with
  | Return _ =>
      successfulRetries (stats (policy r))
      = successfulRetries (stats p) + (if 1 <? n then 1 else 0) /\
      failedAfterRetries (stats (policy r)) = failedAfterRetries (stats p)
  | Throw _ =>
      successfulRetries (stats (policy r)) = successfulRetries (stats p) /\
      failedAfterRetries (stats (policy r))
      = failedAfterRetries (stats p) + (if gave_up (trace r) then 1 else 0)
  end /\
  (gave_up (trace r) = true -> n = maxRetries p + 1) /\
  (In (Called RejectedNullish) (trace r) ->
   completion r = Throw (Some undefinedMessageError) /\
   gave_up (trace r) = false).
Proof.
  intros Hr n. split.
  { unfold execute in Hr. eapply attempts_keep_config. exact Hr. }
  destruct (Z.lt_ge_cases (maxRetries p + 1) 1) as [Hnone | Hsome].
  - rewrite RetryPatternFacts.execute_no_attempt in Hr by assumption.
    inversion Hr; subst r. subst n. unfold len. simpl.
    repeat split; try lia; try discriminate; contradiction.
  - pose proof Hr as Hrun. unfold execute in Hr.
    apply attempts_counters in Hr; [|lia].
    destruct Hr as (Hn & Htot & Hdone). fold n in Hn, Htot, Hdone.
    split; [exact Htot|].
    replace (1 + n - 1) with n in Hdone by lia.
    split; [exact Hdone|].
    destruct (RetryPatternFacts.execute_trace sleep fn w p r)
      as (errors & o & w_last & Htr & _ & _ & Ho & _); [lia | exact Hrun |].
    assert (Hlen : length (map (backoff (backoffMultiplier p) (maxDelay p) (delay p))
                               (seq 0 (length errors))) = length errors)
      by (rewrite length_map, length_seq; reflexivity).
    assert (Hcalls : calls (trace r) = map Rejected errors ++ [o]).
    { rewrite Htr, RetryPatternFacts.calls_app,
        RetryPatternFacts.calls_rounds by exact Hlen. reflexivity. }
    assert (Hgave : gave_up (trace r)
                    = match o with Rejected _ => true | _ => false end).
    { unfold gave_up. rewrite Hcalls, last_last. reflexivity. }
    split.
    + rewrite Hgave. intros Hup. destruct o as [v | e |]; try discriminate.
      destruct Ho as [_ Hexact]. subst n. unfold len in *.
      rewrite Hcalls, length_app, length_map. simpl. lia.
    + intros Hin. rewrite Htr in Hin. apply in_app_or in Hin.
      destruct Hin as [Hin | [Hin | []]].
      * exfalso. clear - Hin.
        revert Hin.
        generalize (map (backoff (backoffMultiplier p) (maxDelay p) (delay p))
                        (seq 0 (length errors))).
        induction errors as [|e errors IH]; intros [|d delays] Hin;
          simpl in Hin; try contradiction.
        destruct Hin as [H | [H | H]]; try discriminate.
        exact (IH delays H).
      * inversion Hin; subst o. rewrite Hgave. split; [exact Ho | reflexivity].
Qed.

Lemma execute_counts_its_work_witness :
  let r := recovered_run in
  let p := new no_options in
  let n := len (calls (trace r)) in
  same_config (policy r) p /\
  totalAttempts (stats (policy r)) = totalAttempts (stats p) + n /\
  match completion r with
  | Return _ =>
      successfulRetries (stats (policy r))
      = successfulRetries (stats p) + (if 1 <? n then 1 else 0) /\
      failedAfterRetries (stats (policy r)) = failedAfterRetries (stats p)
  | Throw _ =>
      successfulRetries (stats (policy r)) = successfulRetries (stats p) /\
      failedAfterRetries (stats (policy r))
      = failedAfterRetries (stats p) + (if gave_up (trace r) then 1 else 0)
  end /\
  (gave_up (trace r) = true -> n = maxRetries p + 1) /\
  (In (Called RejectedNullish) (trace r) ->
   completion r = Throw (Some undefinedMessageError) /\
   gave_up (trace r) = false).
Proof.
  apply (execute_counts_its_work nat string no_sleep_effect recovers 0%nat
                                 (new no_options) recovered_run).
  vm_compute. reflexivity.
Defined.

(** X16.  The counters never influence a run: two policies with the same
    configuration complete [execute] the same way, leave the same world
    and produce the same trace.  In particular [resetStats], which zeroes
    the three counters and keeps the configuration, changes nothing about
    what [execute] does next. *)
Theorem counters_do_not_steer
        (W T : Type) (sleep : Z -> W -> W) (fn : Operation W T) w :
  (forall p q, same_config p q ->
     option_map observed (execute sleep fn w p)
     = option_map observed (execute sleep fn w q)) /\
  (forall p,
     stats (resetStats p) = mkStats 0 0 0 /\
     same_config (resetStats p) p /\
     option_map observed (execute sleep fn w (resetStats p))
     = option_map observed (execute sleep fn w p)).
Proof.
  assert (Hgen : forall p q, same_config p q ->
            option_map observed (execute sleep fn w p)
            = option_map observed (execute sleep fn w q)).
  { intros p q Hsame. unfold execute.
    destruct Hsame as (Hm & Hd & Hrest). rewrite Hm, Hd.
    apply attempts_observed. unfold same_config. tauto. }
  split; [exact Hgen|].
  intros p. split; [reflexivity|].
  assert (Hsame : same_config (resetStats p) p)
    by (unfold same_config; simpl; auto).
  split; [exact Hsame | apply Hgen, Hsame].
Qed.

Lemma counters_do_not_steer_witness :
  option_map observed (execute no_sleep_effect recovers 0%nat recovered_run.(policy))
  = option_map observed (execute no_sleep_effect recovers 0%nat (new no_options)).
Proof.
  apply (proj1 (counters_do_not_steer nat string no_sleep_effect recovers 0%nat)).
  unfold same_config. simpl. auto.
Defined.

(** *** Waiting time *)

Lemma backoff_under_cap multiplier cap : forall i d,
  d <= cap -> backoff multiplier cap d i <= cap.
Proof.
  induction i as [|i IH]; intros d Hd; simpl; [exact Hd|].
  apply IH. lia.
Qed.

Lemma backoff_capped_after_first multiplier cap d i :
  backoff multiplier cap d (S i) <= cap.
Proof. simpl. apply backoff_under_cap. lia. Qed.

Lemma sum_under_cap (l : list Z) (cap : Z) :
  Forall (fun x => x <= cap) l ->
  fold_right Z.add 0 l <= len l * cap.
Proof.
  unfold len. induction 1 as [|x l Hx _ IH]; simpl fold_right; simpl length.
  - simpl. lia.
  - rewrite Nat2Z.inj_succ. lia.
Qed.

(** X17.  The cap bounds the waiting: every delay after the first one is
    at most [maxDelay], whatever the multiplier, and with non-negative
    [delay] and [maxDelay] a run never sleeps longer in total than
    [delay + (maxRetries - 1) * maxDelay]. *)
Theorem waiting_time_is_bounded
        (W T : Type) (sleep : Z -> W -> W) (fn : Operation W T) w p r :
  execute sleep fn w p = Some r ->
  (forall i ms, nth_error (sleeps (trace r)) (S i) = Some ms ->
                ms <= maxDelay p) /\
  (0 <= delay p -> 0 <= maxDelay p ->
   timeSlept (trace r) <= delay p + Z.max 0 (maxRetries p - 1) * maxDelay p).
Proof.
  intros Hr.
  destruct (Z.lt_ge_cases (maxRetries p + 1) 1) as [Hnone | Hsome].
  - rewrite RetryPatternFacts.execute_no_attempt in Hr by assumption.
    inversion Hr; subst r. unfold timeSlept. simpl. split.
    + intros i ms H. discriminate.
    + intros. nia.
  - destruct (RetryPatternFacts.execute_trace sleep fn w p r)
      as (errors & o & w_last & Htr & Hcnt & _); [lia | exact Hr |].
    set (delays := map (backoff (backoffMultiplier p) (maxDelay p) (delay p))
                       (seq 0 (length errors))) in *.
    assert (Hlen : length delays = length errors)
      by (unfold delays; rewrite length_map, length_seq; reflexivity).
    assert (Hsleeps : sleeps (trace r) = delays).
    { rewrite Htr, RetryPatternFacts.sleeps_app,
        RetryPatternFacts.sleeps_rounds by exact Hlen.
      simpl. apply app_nil_r. }
    unfold timeSlept. rewrite Hsleeps. split.
    + intros i ms Hnth. unfold delays in Hnth.
      rewrite nth_error_map, nth_error_seq in Hnth.
      destruct (Nat.ltb (S i) (length errors)); [|discriminate].
      simpl in Hnth. inversion Hnth. apply backoff_under_cap. lia.
    + intros Hd Hcap. unfold delays, len in *.
      destruct (length errors) as [|k]; [simpl; nia|].
      rewrite RetryPatternFacts.backoff_delays. simpl fold_right.
      pose proof (sum_under_cap
                    (map (backoff (backoffMultiplier p) (maxDelay p)
                            (Z.min (delay p * backoffMultiplier p) (maxDelay p)))
                         (seq 0 k)) (maxDelay p)) as Hsum.
      unfold len in Hsum. rewrite length_map, length_seq in Hsum.
      assert (Hall : Forall (fun x => x <= maxDelay p)
                       (map (backoff (backoffMultiplier p) (maxDelay p)
                               (Z.min (delay p * backoffMultiplier p) (maxDelay p)))
                            (seq 0 k))).
      { apply Forall_forall. intros x Hx. apply in_map_iff in Hx.
        destruct Hx as (i & <- & _). apply backoff_under_cap. lia. }
      specialize (Hsum Hall).
      rewrite Nat2Z.inj_succ in Hcnt. nia.
Qed.

Lemma waiting_time_is_bounded_witness :
  timeSlept (trace slow_start_run)
  <= delay slow_start + Z.max 0 (maxRetries slow_start - 1) * maxDelay slow_start.
Proof.
  apply (waiting_time_is_bounded nat string no_sleep_effect down 0%nat
                                 slow_start slow_start_run).
  - vm_compute. reflexivity.
  - simpl. lia.
  - simpl. lia.
Defined.

(** *** Transient faults *)

Lemma transient_attempts {T : Type} (faults : nat) (e : Error) (v : T) p :
  forall (left : nat) (invocations fuel : nat) attempt d lastError,
    (invocations + left = faults)%nat ->
    attempt + Z.of_nat left <= maxRetries p + 1 ->
    (left < fuel)%nat ->
    forall q, same_config q p ->
    exists r,
      attempts no_sleep_effect (transient faults e v) fuel attempt d lastError
               invocations q = Some r /\
      completion r = Return v /\
      world r = S faults /\
      length (calls (trace r)) = S left /\
      length (sleeps (trace r)) = left.
Proof.
  induction left as [|left IH];
    intros invocations fuel attempt d lastError Hleft Hroom Hfuel q Hq;
    destruct fuel as [|fuel]; try lia;
    destruct Hq as (Hm & Hd & Hb & Hx); simpl; rewrite Hm.
  - destruct (Z.leb_spec attempt (maxRetries p + 1)); [|lia].
    unfold transient.
    destruct (Nat.ltb_spec invocations faults); [lia|].
    eexists. split; [reflexivity|]. simpl.
    repeat split. f_equal. lia.
  - destruct (Z.leb_spec attempt (maxRetries p + 1)); [|lia].
    unfold transient at 1.
    destruct (Nat.ltb_spec invocations faults); [|lia].
    destruct (Z.ltb_spec (maxRetries p) attempt); [lia|].
    unfold no_sleep_effect at 1.
    edestruct (IH (S invocations) fuel (attempt + 1)) as (r & Hr & Hc & Hw & Hn & Hs);
      [lia | lia | lia | | rewrite Hr; simpl; eexists; split; [reflexivity|]].
    + unfold same_config. simpl. auto.
    + simpl. rewrite Hn, Hs. auto.
Qed.

(** X18.  Retry hides a transient fault that shows as rejections with
    an object: against a dependency whose first [faults] invocations
    reject with an [Error] and whose later ones resolve, a policy with
    [faults <= maxRetries] returns the value, after exactly [faults + 1]
    invocations and [faults] sleeps.  It does not hide one that shows as
    rejections with [undefined] or [null]: the first of them ends the run
    with a [TypeError] after a single invocation and no sleep. *)
Theorem transient_fault_is_hidden
        (T : Type) (faults : nat) (e : Error) (v : T) p :
  Z.of_nat faults <= maxRetries p ->
  (exists r,
     execute no_sleep_effect (transient faults e v) 0%nat p = Some r /\
     completion r = Return v /\
     world r = S faults /\
     length (calls (trace r)) = S faults /\
     length (sleeps (trace r)) = faults) /\
  ((0 < faults)%nat ->
   execute no_sleep_effect (transient_nullish faults v) 0%nat p
   = Some (mkRun (Throw (Some undefinedMessageError))
                 (with_stats bump_totalAttempts p) 1%nat
                 [Called RejectedNullish])).
Proof.
  intros Hfaults. split.
  - unfold execute.
    apply transient_attempts with (p := p); try lia.
    unfold same_config. auto.
  - intros Hsome.
    apply RetryPatternFacts.execute_nullish; [lia|].
    unfold transient_nullish.
    destruct (Nat.ltb_spec 0 faults); [reflexivity | lia].
Qed.

Lemma transient_fault_is_hidden_witness :
  (exists r,
     execute no_sleep_effect (transient 3 down_error "product"%string) 0%nat
             (new no_options) = Some r /\
     completion r = Return "product"%string /\
     world r = 4%nat /\
     length (calls (trace r)) = 4%nat /\
     length (sleeps (trace r)) = 3%nat) /\
  ((0 < 3)%nat ->
   execute no_sleep_effect (transient_nullish 3 "product"%string) 0%nat
           (new no_options)
   = Some (mkRun (Throw (Some undefinedMessageError))
                 (with_stats bump_totalAttempts (new no_options)) 1%nat
                 [Called RejectedNullish])).
Proof.
  apply (transient_fault_is_hidden string 3 down_error "product"%string
                                   (new no_options)).
  simpl. lia.
Defined.

End RetryPatternApiFacts.


(** ** Bulkhead: slots, order and counters *)

Module BulkheadApiFacts.
Import Js Bulkhead BulkheadApi.

Ltac branches :=
  repeat match goal with
         | |- context [if ?c then _ else _] => destruct c eqn:?; simpl
         end.

Ltac comparisons :=
  repeat match goal with
         | H : (_ <=? _) = true |- _ => apply Z.leb_le in H
         | H : (_ <=? _) = false |- _ => apply Z.leb_gt in H
         | H : (_ <? _) = true |- _ => apply Z.ltb_lt in H
         | H : (_ <? _) = false |- _ => apply Z.ltb_ge in H
         | H : (_ && _) = true |- _ => apply andb_true_iff in H; destruct H
         | H : (_ && _) = false |- _ => apply andb_false_iff in H; destruct H
         end.

(** *** The cap *)

Lemma without_one (l : list nat) (call : nat) :
  NoDup l -> In call l ->
  S (length (filter (fun c => negb (Nat.eqb c call)) l)) = length l.
Proof.
  induction 1 as [|x l Hnotin Hnd IH]; simpl; intros Hin; [contradiction|].
  destruct (Nat.eqb_spec x call) as [-> | Hne]; simpl.
  - f_equal. f_equal. apply filter_keeps_all. apply Forall_forall.
    intros y Hy. apply negb_true_iff, Nat.eqb_neq. congruence.
  - destruct Hin as [-> | Hin]; [congruence|]. f_equal. apply IH, Hin.
Qed.

Lemma without_NoDup (l : list nat) (call : nat) :
  NoDup l -> NoDup (filter (fun c => negb (Nat.eqb c call)) l).
Proof. apply NoDup_filter. Qed.

Lemma slots_executeWithSlot call s :
  currentConcurrent (bulkhead s) < maxConcurrent (bulkhead s) ->
  ~ In call (inflight s) ->
  slots_accounted s ->
  slots_accounted (executeWithSlot call s).
Proof.
  unfold slots_accounted, executeWithSlot.
  intros Hfree Hnew (Hcc & Hcap & Hnd & Hdec).
  destruct (currentConcurrent _ =? maxConcurrent _); simpl;
    unfold len in *; rewrite length_app; simpl;
    (split; [lia|]); (split; [lia|]);
    (split; [apply BulkheadFacts.NoDup_snoc; assumption|]);
    intros c Hc; rewrite BulkheadFacts.decided_app; apply in_or_app;
    apply in_app_or in Hc; destruct Hc as [Hc | [<- | []]];
    solve [left; auto | right; left; reflexivity].
Qed.

Lemma slots_more_notices n s :
  slots_accounted s -> slots_accounted (notify n s).
Proof.
  unfold slots_accounted. simpl. intros (Hcc & Hcap & Hnd & Hdec).
  repeat split; try assumption.
  intros c Hc. rewrite BulkheadFacts.decided_app. apply in_or_app. left. auto.
Qed.

Lemma slots_step s turn :
  not_reset turn ->
  inv s -> slots_accounted s -> slots_accounted (step s turn).
Proof.
  intros Hturn Hinv Hslots.
  destruct turn as [opName now | call ok | call now |]; simpl;
    [| | |contradiction].
  - unfold execute. simpl.
    destruct (Z.ltb_spec (currentConcurrent (bulkhead s))
                         (maxConcurrent (bulkhead s))) as [Hfree | Hbusy].
    + simpl. apply slots_executeWithSlot.
      * exact Hfree.
      * simpl. intros Hin. apply Hslots in Hin.
        destruct Hinv as (_ & _ & _ & _ & _ & Hold). apply Hold in Hin. lia.
      * exact Hslots.
    + destruct (queueSize (bulkhead s) <=? len (queue (bulkhead s))); simpl.
      * apply slots_more_notices. exact Hslots.
      * exact Hslots.
  - destruct (existsb (Nat.eqb call) (inflight s)) eqn:Hin; [|exact Hslots].
    apply existsb_exists in Hin. destruct Hin as (c & Hc & Heq).
    apply Nat.eqb_eq in Heq. subst c.
    destruct Hslots as (Hcc & Hcap & Hnd & Hdec).
    pose proof (without_one (inflight s) call Hnd Hc) as Hone.
    unfold finishWithSlot. apply slots_more_notices.
    set (s2 := on_bulkhead _ _).
    assert (Hs2 : slots_accounted s2 /\
                  queue (bulkhead s2) = queue (bulkhead s) /\
                  notices s2 = notices s /\
                  inflight s2 = filter (fun c => negb (Nat.eqb c call)) (inflight s)).
    { unfold s2, slots_accounted. destruct ok; simpl; unfold len in *;
        (split; [|auto]); (split; [lia|]); (split; [lia|]);
        (split; [apply without_NoDup, Hnd|]);
        intros c Hin; apply filter_In in Hin; apply Hdec, Hin. }
    destruct Hs2 as (Hslots2 & Hq2 & Hn2 & Hi2). clearbody s2.
    unfold releaseSlot.
    destruct ((0 <? len (queue (bulkhead s2)))
              && (currentConcurrent (bulkhead s2) <? maxConcurrent (bulkhead s2)))
      eqn:Hcond; [|exact Hslots2].
    destruct (queue (bulkhead s2)) as [|request rest] eqn:Hq; [exact Hslots2|].
    comparisons.
    apply slots_executeWithSlot.
    + simpl. assumption.
    + simpl. rewrite Hi2. intros Hin. apply filter_In in Hin.
      destruct Hin as [Hin _]. apply Hdec in Hin.
      destruct Hinv as (_ & _ & _ & Hfresh & _).
      apply (Hfresh (rid request)); [|exact Hin].
      rewrite <- Hq2. simpl. auto.
    + destruct Hslots2 as (H1 & H2 & H3 & H4).
      unfold slots_accounted. simpl. auto.
  - destruct (due call now s); [|exact Hslots].
    unfold onTimeout. simpl.
    destruct (indexOf call (queue (bulkhead s))); [|exact Hslots].
    apply slots_more_notices. exact Hslots.
Qed.

(** X19.  As long as [reset] is not used, a bulkhead built with a
    non-negative [maxConcurrent] never runs more than [maxConcurrent]
    operations at a time, and [currentConcurrent] is exactly the number of
    operations in flight. *)
Theorem concurrency_stays_under_cap options turns :
  0 <= maxConcurrent (new options) ->
  Forall not_reset turns ->
  let s := run turns (init options) in
  currentConcurrent (bulkhead s) = len (inflight s) /\
  0 <= currentConcurrent (bulkhead s) <= maxConcurrent (new options) /\
  NoDup (inflight s).
Proof.
  intros Hmax Hturns.
  assert (Hgen : forall s, inv s -> slots_accounted s ->
            inv (run turns s) /\ slots_accounted (run turns s) /\
            maxConcurrent (bulkhead (run turns s)) = maxConcurrent (bulkhead s)).
  { induction Hturns as [|turn turns' Hturn _ IH]; intros s Hinv Hslots; simpl.
    - auto.
    - destruct (IH (step s turn)) as (H1 & H2 & H3).
      + apply BulkheadFacts.inv_step, Hinv.
      + apply slots_step; assumption.
      + split; [exact H1|]. split; [exact H2|]. rewrite H3.
        clear. destruct turn as [opName now | call ok | call now |]; simpl.
        * unfold execute, executeWithSlot. simpl. branches; reflexivity.
        * destruct (existsb _ _); [|reflexivity].
          unfold finishWithSlot, releaseSlot, executeWithSlot.
          destruct ok; simpl; branches;
            destruct (queue (bulkhead s)); simpl; branches; reflexivity.
        * destruct (due call now s); [|reflexivity].
          unfold onTimeout. simpl.
          destruct (indexOf call (queue (bulkhead s))); reflexivity.
        * unfold reset.
          destruct (BulkheadFacts.clear_all_timers (queue (bulkhead s))
                      (on_bulkhead (set_currentConcurrent 0) s)) as (Hb & _).
          simpl in *. rewrite Hb. reflexivity. }
  destruct (Hgen (init options)) as (_ & (Hcc & Hcap & Hnd & _) & Hm).
  - apply BulkheadFacts.inv_init.
  - unfold slots_accounted. simpl.
    split; [reflexivity|]. split; [exact Hmax|]. split; [constructor|].
    intros c [].
  - simpl in *. rewrite Hm in Hcap. unfold len in *. repeat split; try assumption; lia.
Qed.

Lemma concurrency_stays_under_cap_witness :
  let s := run [Arrive "Pay-1" 1000; Arrive "Pay-2" 1010; Settle 0 true;
                Arrive "Pay-3" 1020] (init tiny) in
  currentConcurrent (bulkhead s) = len (inflight s) /\
  0 <= currentConcurrent (bulkhead s) <= maxConcurrent (new tiny) /\
  NoDup (inflight s).
Proof.
  apply (concurrency_stays_under_cap tiny).
  - simpl. lia.
  - repeat constructor.
Defined.

(** *** Nobody waits while a slot is free *)

Lemma work_conserving_releaseSlot s :
  work_conserving s \/
  (maxConcurrent (bulkhead s) <= currentConcurrent (bulkhead s) + 1) ->
  work_conserving (releaseSlot s).
Proof.
  unfold work_conserving, releaseSlot. intros Hwc.
  destruct ((0 <? len (queue (bulkhead s)))
            && (currentConcurrent (bulkhead s) <? maxConcurrent (bulkhead s)))
    eqn:Hcond.
  - comparisons.
    destruct (queue (bulkhead s)) as [|request rest] eqn:Hq.
    + left. exact Hq.
    + unfold executeWithSlot. simpl.
      destruct (currentConcurrent (bulkhead s) + 1 =? maxConcurrent (bulkhead s));
        simpl; right; destruct Hwc as [[Hwc | Hwc] | Hwc];
        try discriminate; lia.
  - comparisons.
    + left. destruct (queue (bulkhead s)); [reflexivity|].
      unfold len in *. simpl length in *. lia.
    + right. lia.
Qed.

Lemma work_conserving_step s turn :
  work_conserving s -> work_conserving (step s turn).
Proof.
  intros Hwc. destruct turn as [opName now | call ok | call now |]; simpl.
  - unfold work_conserving, execute in *. simpl.
    destruct (Z.ltb_spec (currentConcurrent (bulkhead s))
                         (maxConcurrent (bulkhead s))) as [Hfree | Hbusy].
    + unfold executeWithSlot. simpl.
      destruct (currentConcurrent (bulkhead s) + 1 =? maxConcurrent (bulkhead s));
        simpl; destruct Hwc as [Hwc | Hwc]; auto; lia.
    + destruct (queueSize (bulkhead s) <=? len (queue (bulkhead s))); simpl;
        right; lia.
  - destruct (existsb (Nat.eqb call) (inflight s)); [|exact Hwc].
    unfold finishWithSlot.
    set (s2 := on_bulkhead _ _).
    assert (Hs2 : work_conserving s2 \/
                  maxConcurrent (bulkhead s2) <= currentConcurrent (bulkhead s2) + 1).
    { unfold work_conserving, s2 in *. destruct ok; simpl;
        destruct Hwc as [Hwc | Hwc]; auto; right; lia. }
    clearbody s2. apply work_conserving_releaseSlot in Hs2.
    unfold work_conserving in *. simpl. exact Hs2.
  - destruct (due call now s); [|exact Hwc].
    unfold work_conserving, onTimeout in *. simpl.
    destruct (queue (bulkhead s)) as [|r q] eqn:Hq.
    + simpl. rewrite Hq. left. reflexivity.
    + destruct Hwc as [Hwc | Hwc]; [discriminate|].
      destruct (indexOf call (r :: q)); simpl; right; exact Hwc.
  - unfold work_conserving, reset.
    destruct (BulkheadFacts.clear_all_timers (queue (bulkhead s))
                (on_bulkhead (set_currentConcurrent 0) s)) as (Hb & _).
    simpl in *. left. reflexivity.
Qed.

(** X20.  The bulkhead is work conserving: in every state the event loop
    can reach, [reset] included, a call is waiting in the queue only while
    [currentConcurrent] has reached [maxConcurrent]. *)
Theorem nobody_waits_for_a_free_slot options turns :
  let s := run turns (init options) in
  queue (bulkhead s) <> [] ->
  maxConcurrent (bulkhead s) <= currentConcurrent (bulkhead s).
Proof.
  assert (Hgen : forall s, work_conserving s -> work_conserving (run turns s)).
  { induction turns as [|turn turns' IH]; intros s Hwc; simpl; [exact Hwc|].
    apply IH, work_conserving_step, Hwc. }
  intros s Hq.
  destruct (Hgen (init options)) as [Hempty | Hfull].
  - left. reflexivity.
  - contradiction.
  - exact Hfull.
Qed.

Lemma nobody_waits_for_a_free_slot_witness :
  maxConcurrent (bulkhead saturated) <= currentConcurrent (bulkhead saturated).
Proof.
  apply (nobody_waits_for_a_free_slot tiny
           [Arrive "Pay-1" 1000; Arrive "Pay-2" 1010]).
  vm_compute. discriminate.
Defined.

(** *** First come, first served *)

Lemma sorted_rids_without (f : Request -> bool) (q : list Request) :
  StronglySorted Nat.lt (map rid q) ->
  StronglySorted Nat.lt (map rid (filter f q)).
Proof.
  induction q as [|r q IH]; simpl; intros Hs; [constructor|].
  inversion Hs as [|? ? Hrest Hall]; subst.
  destruct (f r); simpl; [|auto].
  constructor; [auto|].
  apply Forall_forall. intros c Hc. apply in_map_iff in Hc.
  destruct Hc as (r' & <- & Hr'). apply filter_In in Hr'.
  rewrite Forall_forall in Hall. apply Hall. apply in_map. apply Hr'.
Qed.

Lemma sorted_rids_snoc (q : list nat) (next : nat) :
  StronglySorted Nat.lt q -> (forall c, In c q -> (c < next)%nat) ->
  StronglySorted Nat.lt (q ++ [next]).
Proof.
  induction 1 as [|x q Hs IH Hx]; intros Hall; simpl.
  - constructor; constructor.
  - constructor.
    + apply IH. intros c Hc. apply Hall. right. exact Hc.
    + apply Forall_app. split; [exact Hx|].
      constructor; [|constructor]. apply Hall. left. reflexivity.
Qed.

Lemma arrival_order_step s turn :
  inv s -> arrival_order s -> arrival_order (step s turn).
Proof.
  unfold arrival_order. intros Hinv Hs.
  destruct turn as [opName now | call ok | call now |]; simpl.
  - unfold execute. simpl.
    destruct (currentConcurrent (bulkhead s) <? maxConcurrent (bulkhead s)).
    + unfold executeWithSlot. simpl. branches; exact Hs.
    + destruct (queueSize (bulkhead s) <=? len (queue (bulkhead s))); simpl;
        [exact Hs|].
      rewrite map_app. simpl. apply sorted_rids_snoc; [exact Hs|].
      apply Hinv.
  - destruct (existsb (Nat.eqb call) (inflight s)); [|exact Hs].
    unfold finishWithSlot, releaseSlot. simpl.
    destruct ok; simpl; branches;
      destruct (queue (bulkhead s)) as [|request rest] eqn:Hq; simpl;
      unfold executeWithSlot; simpl; branches;
      try rewrite Hq; try exact Hs;
      inversion Hs; assumption.
  - destruct (due call now s); [|exact Hs].
    unfold onTimeout. simpl.
    destruct (indexOf call (queue (bulkhead s))) as [index|] eqn:Hidx;
      [|exact Hs].
    simpl.
    assert (Hin : In call (map rid (queue (bulkhead s)))).
    { destruct (in_dec Nat.eq_dec call (map rid (queue (bulkhead s))))
        as [Hin | Hout]; [exact Hin|].
      clear - Hidx Hout. exfalso.
      induction (queue (bulkhead s)) as [|r q IH] in index, Hidx, Hout |- *;
        simpl in *; [discriminate|].
      destruct (Nat.eqb_spec (rid r) call); [tauto|].
      destruct (indexOf call q) as [i|]; [|discriminate].
      apply (IH i); [reflexivity | tauto]. }
    destruct (BulkheadFacts.indexOf_splice call (queue (bulkhead s)))
      as (index' & Hidx' & Hsplice); [apply Hinv | exact Hin |].
    rewrite Hidx in Hidx'. inversion Hidx'. subst index'.
    rewrite Hsplice. apply sorted_rids_without. exact Hs.
  - unfold reset.
    destruct (BulkheadFacts.clear_all_timers (queue (bulkhead s))
                (on_bulkhead (set_currentConcurrent 0) s)) as (Hb & _).
    simpl in *. constructor.
Qed.

Lemma capped_step s turn : capped s -> capped (step s turn).
Proof.
  unfold capped. intros [Hmax Hcc].
  destruct turn as [opName now | call ok | call now |]; simpl.
  - unfold execute, executeWithSlot, waitForSlot. simpl.
    branches; comparisons; simpl; lia.
  - destruct (existsb (Nat.eqb call) (inflight s)); [|lia].
    unfold finishWithSlot, releaseSlot. simpl.
    destruct ok; simpl; branches;
      destruct (queue (bulkhead s)); simpl;
      unfold executeWithSlot; simpl; branches; comparisons; simpl; lia.
  - destruct (due call now s); [|lia].
    unfold onTimeout. simpl.
    destruct (indexOf call (queue (bulkhead s))); simpl; lia.
  - unfold reset.
    destruct (BulkheadFacts.clear_all_timers (queue (bulkhead s))
                (on_bulkhead (set_currentConcurrent 0) s)) as (Hb & _).
    simpl in *. rewrite Hb. simpl. lia.
Qed.

(** X21.  Admission from the queue is first come, first served: the
    queue always holds its calls in the order of their arrival, and when a
    running operation settles while calls are waiting, the slot goes to the
    head of the queue, which arrived before every other call still
    waiting; the others keep their places. *)
Theorem queue_is_first_come_first_served options turns :
  0 <= maxConcurrent (new options) ->
  let s := run turns (init options) in
  StronglySorted Nat.lt (map rid (queue (bulkhead s))) /\
  forall call ok request rest,
    In call (inflight s) ->
    queue (bulkhead s) = request :: rest ->
    let s' := step s (Settle call ok) in
    queue (bulkhead s') = rest /\
    notices s' = notices s ++ [Invoked (rid request); Settled call ok] /\
    In (rid request) (inflight s') /\
    Forall (fun r => (rid request < rid r)%nat) rest.
Proof.
  intros Hmax.
  assert (Hgen : forall s, inv s -> arrival_order s -> capped s ->
                           arrival_order (run turns s) /\ capped (run turns s)).
  { induction turns as [|turn turns' IH]; intros s Hinv Hs Hc; simpl;
      [split; assumption|].
    apply IH; [apply BulkheadFacts.inv_step, Hinv
              | apply arrival_order_step; assumption
              | apply capped_step, Hc]. }
  intros s.
  destruct (Hgen (init options)) as [Hs [_ Hcap]].
  { apply BulkheadFacts.inv_init. }
  { constructor. }
  { split; [exact Hmax | simpl; exact Hmax]. }
  fold s in Hs, Hcap.
  split; [exact Hs|].
  intros call ok request rest Hin Hq s'.
  unfold arrival_order in Hs. rewrite Hq in Hs. simpl in Hs.
  inversion Hs as [|? ? _ Hall]; subst.
  assert (Hfl : existsb (Nat.eqb call) (inflight s) = true).
  { apply existsb_exists. exists call. split; [exact Hin | apply Nat.eqb_refl]. }
  unfold s'. simpl. rewrite Hfl.
  unfold finishWithSlot, releaseSlot.
  assert (Hrest : Forall (fun r => (rid request < rid r)%nat) rest).
  { apply Forall_forall. intros r Hr. rewrite Forall_forall in Hall.
    apply Hall, in_map, Hr. }
  destruct ok; simpl; rewrite Hq;
    (destruct (Z.ltb_spec 0 (len (request :: rest)));
       [|unfold len in *; simpl length in *; lia]);
    (destruct (Z.ltb_spec (currentConcurrent (bulkhead s) - 1)
                          (maxConcurrent (bulkhead s))); [|lia]);
    simpl; unfold executeWithSlot; simpl;
    destruct (currentConcurrent (bulkhead s) - 1 + 1 =? maxConcurrent (bulkhead s));
    simpl; rewrite <- app_assoc; simpl;
    (split; [reflexivity|]); (split; [reflexivity|]);
    (split; [apply in_or_app; right; left; reflexivity | exact Hrest]).
Qed.

Lemma queue_is_first_come_first_served_witness :
  let s' := step two_waiting (Settle 0 true) in
  queue (bulkhead s') = [mkRequest 2 "Pay-3" 1020] /\
  notices s' = notices two_waiting ++ [Invoked 1; Settled 0 true] /\
  In 1%nat (inflight s') /\
  Forall (fun r => (1 < rid r)%nat) [mkRequest 2 "Pay-3" 1020].
Proof.
  assert (Hmax : 0 <= maxConcurrent (new (mkOptions None (Some 1) None None)))
    by (vm_compute; discriminate).
  destruct (queue_is_first_come_first_served
              (mkOptions None (Some 1) None None)
              [Arrive "Pay-1" 1000; Arrive "Pay-2" 1010; Arrive "Pay-3" 1020]
              Hmax) as [_ Hserve].
  apply (Hserve 0%nat true (mkRequest 1 "Pay-2" 1010)
                [mkRequest 2 "Pay-3" 1020]).
  - vm_compute. left. reflexivity.
  - reflexivity.
Defined.

(** *** The statistics *)

Lemma len_filter_snoc {A : Type} (f : A -> bool) (l : list A) (x : A) :
  len (filter f (l ++ [x])) = len (filter f l) + (if f x then 1 else 0).
Proof.
  unfold len. rewrite filter_app, length_app. simpl.
  destruct (f x); simpl; lia.
Qed.

Lemma len_snoc {A : Type} (l : list A) (x : A) : len (l ++ [x]) = len l + 1.
Proof. unfold len. rewrite length_app. simpl. lia. Qed.

Lemma len_cons {A : Type} (l : list A) (x : A) : len (x :: l) = len l + 1.
Proof. unfold len. simpl length. lia. Qed.

Lemma splice1_shortens call : forall q index,
  indexOf call q = Some index -> len q = len (splice1 index q) + 1.
Proof.
  induction q as [|r q IH]; intros index Hidx; simpl in Hidx; [discriminate|].
  destruct (Nat.eqb (rid r) call).
  - inversion Hidx. subst. cbn [splice1]. apply len_cons.
  - destruct (indexOf call q) as [i|]; [|discriminate].
    inversion Hidx. subst. cbn [splice1]. rewrite !len_cons.
    rewrite (IH i eq_refl). reflexivity.
Qed.

Lemma counted_releaseSlot s :
  totalRequests (stats (bulkhead (releaseSlot s))) = totalRequests (stats (bulkhead s)) /\
  rejectedRequests (stats (bulkhead (releaseSlot s))) = rejectedRequests (stats (bulkhead s)) /\
  successfulRequests (stats (bulkhead (releaseSlot s))) = successfulRequests (stats (bulkhead s)) /\
  nextCall (releaseSlot s) = nextCall s /\
  filter is_refusal (notices (releaseSlot s)) = filter is_refusal (notices s) /\
  filter is_success (notices (releaseSlot s)) = filter is_success (notices s).
Proof.
  unfold releaseSlot.
  destruct ((0 <? len (queue (bulkhead s)))
            && (currentConcurrent (bulkhead s) <? maxConcurrent (bulkhead s)));
    [|repeat split].
  destruct (queue (bulkhead s)) as [|request rest]; [repeat split|].
  unfold executeWithSlot. simpl.
  destruct (currentConcurrent (bulkhead s) + 1 =? maxConcurrent (bulkhead s));
    simpl; rewrite !filter_app; simpl; rewrite !app_nil_r; repeat split.
Qed.

Lemma counted_step s turn : counted s -> counted (step s turn).
Proof.
  unfold counted. intros (Htot & Hrej & Hok).
  destruct turn as [opName now | call ok | call now |]; simpl.
  - unfold execute, executeWithSlot, waitForSlot. simpl.
    branches; rewrite ?len_filter_snoc; simpl; rewrite ?Nat2Z.inj_succ;
      repeat split; lia.
  - destruct (existsb (Nat.eqb call) (inflight s)); [|auto].
    unfold finishWithSlot.
    set (s2 := on_bulkhead _ _).
    destruct (counted_releaseSlot s2) as (Ht & Hr & Hs & Hn & Hfr & Hfs).
    simpl. rewrite !len_filter_snoc, Ht, Hr, Hs, Hn, Hfr, Hfs.
    unfold s2. destruct ok; simpl; repeat split; lia.
  - destruct (due call now s); [|auto].
    unfold onTimeout. simpl.
    destruct (indexOf call (queue (bulkhead s))); simpl;
      rewrite ?len_filter_snoc; simpl; repeat split; lia.
  - unfold reset.
    destruct (BulkheadFacts.clear_all_timers (queue (bulkhead s))
                (on_bulkhead (set_currentConcurrent 0) s)) as (Hb & Hn & Hx & _).
    simpl in *. rewrite Hb, Hn, Hx. simpl. auto.
Qed.

(** X22.  The bulkhead's statistics count what its callers observed, in
    every state the event loop can reach: [totalRequests] is the number of
    calls of [execute], [rejectedRequests] the number of calls refused
    (queue full or wait timed out) and [successfulRequests] the number of
    operations that resolved; [reset] changes none of them. *)
Theorem bulkhead_statistics_count_notices options turns :
  let s := run turns (init options) in
  totalRequests (stats (bulkhead s)) = Z.of_nat (nextCall s) /\
  rejectedRequests (stats (bulkhead s)) = len (filter is_refusal (notices s)) /\
  successfulRequests (stats (bulkhead s)) = len (filter is_success (notices s)) /\
  stats (bulkhead (reset s)) = stats (bulkhead s).
Proof.
  assert (Hgen : forall s, counted s -> counted (run turns s)).
  { induction turns as [|turn turns' IH]; intros s Hc; simpl; [exact Hc|].
    apply IH, counted_step, Hc. }
  intros s.
  destruct (Hgen (init options)) as (Htot & Hrej & Hok).
  { repeat split. }
  repeat split; try assumption.
  unfold reset.
  destruct (BulkheadFacts.clear_all_timers (queue (bulkhead s))
              (on_bulkhead (set_currentConcurrent 0) s)) as (Hb & _).
  simpl in *. rewrite Hb. reflexivity.
Qed.

(** *** No call gets lost *)

Lemma releaseSlot_moves_one s :
  nextCall (releaseSlot s) = nextCall s /\
  len (filter is_refusal (notices (releaseSlot s)))
  + len (filter is_invocation (notices (releaseSlot s)))
  + len (queue (bulkhead (releaseSlot s))) =
  len (filter is_refusal (notices s)) + len (filter is_invocation (notices s))
  + len (queue (bulkhead s)).
Proof.
  unfold releaseSlot.
  destruct ((0 <? len (queue (bulkhead s)))
            && (currentConcurrent (bulkhead s) <? maxConcurrent (bulkhead s)));
    [|split; reflexivity].
  destruct (queue (bulkhead s)) as [|request rest] eqn:Hq;
    [rewrite Hq; split; reflexivity|].
  rewrite BulkheadFacts.executeWithSlot_notices.
  rewrite !len_filter_snoc.
  unfold executeWithSlot. cbn [is_refusal is_invocation].
  destruct (currentConcurrent _ =? maxConcurrent _);
    cbn [nextCall notify set_inflight on_bulkhead clearTimeout set_timers
         bulkhead queue set_queue with_stats set_currentConcurrent notices];
    rewrite len_cons; split; try reflexivity; lia.
Qed.

Lemma none_lost_step s turn :
  not_reset turn -> none_lost s -> none_lost (step s turn).
Proof.
  unfold none_lost. intros Hturn Hnl.
  destruct turn as [opName now | call ok | call now |]; simpl;
    [| | |destruct Hturn].
  - unfold execute, executeWithSlot, waitForSlot. simpl.
    branches; rewrite ?len_filter_snoc, ?len_snoc; simpl;
      rewrite ?Nat2Z.inj_succ; lia.
  - destruct (existsb (Nat.eqb call) (inflight s)); [|exact Hnl].
    unfold finishWithSlot.
    set (s2 := on_bulkhead _ _).
    destruct (releaseSlot_moves_one s2) as [Hnext Hsum].
    cbn [notify nextCall notices bulkhead].
    rewrite !len_filter_snoc. cbn [is_refusal is_invocation].
    rewrite Hnext.
    replace (nextCall s2) with (nextCall s) by (unfold s2; destruct ok; reflexivity).
    replace (notices s2) with (notices s) in Hsum
      by (unfold s2; destruct ok; reflexivity).
    replace (queue (bulkhead s2)) with (queue (bulkhead s)) in Hsum
      by (unfold s2; destruct ok; reflexivity).
    lia.
  - destruct (due call now s); [|exact Hnl].
    unfold onTimeout. simpl.
    destruct (indexOf call (queue (bulkhead s))) as [index|] eqn:Hidx;
      [|exact Hnl].
    simpl. rewrite !len_filter_snoc. simpl.
    rewrite (splice1_shortens call _ _ Hidx) in Hnl. lia.
Qed.

(** X23.  No call gets lost: as long as [reset] is not used, every call
    of [execute] made so far was refused, was granted a slot, or is still
    waiting in the queue, so [totalRequests] is the sum of
    [rejectedRequests], the operations invoked and the length of the
    queue. *)
Theorem every_call_is_accounted_for options turns :
  Forall not_reset turns ->
  let s := run turns (init options) in
  totalRequests (stats (bulkhead s)) =
  rejectedRequests (stats (bulkhead s))
  + len (filter is_invocation (notices s))
  + len (queue (bulkhead s)).
Proof.
  intros Hturns.
  assert (Hn : forall s, none_lost s -> none_lost (run turns s)).
  { induction Hturns as [|turn turns' Hturn _ IH]; intros s Hnl; simpl;
      [exact Hnl|].
    apply IH, none_lost_step; assumption. }
  assert (Hc : forall s, counted s -> counted (run turns s)).
  { clear Hturns Hn.
    induction turns as [|turn turns' IH]; intros s Hc; simpl; [exact Hc|].
    apply IH, counted_step, Hc. }
  intros s.
  destruct (Hc (init options)) as (Htot & Hrej & _); [repeat split|].
  specialize (Hn (init options) eq_refl).
  fold s in Htot, Hrej, Hn. unfold none_lost in Hn.
  rewrite Htot, Hrej. exact Hn.
Qed.

Lemma every_call_is_accounted_for_witness :
  totalRequests (stats (bulkhead expired)) =
  rejectedRequests (stats (bulkhead expired))
  + len (filter is_invocation (notices expired))
  + len (queue (bulkhead expired)).
Proof.
  apply (every_call_is_accounted_for tiny
           [Arrive "Pay-1" 1000; Arrive "Pay-2" 1010; TimerFires 1 6010;
            Settle 0 true]).
  repeat constructor.
Defined.

(** *** BulkheadManager *)

Lemma get_registered name ref : forall bs,
  get name bs = Some ref -> In (name, ref) bs.
Proof.
  induction bs as [|[k r] bs IH]; simpl; intros Hget; [discriminate|].
  destruct (String.eqb_spec k name) as [-> | _].
  - inversion Hget. left. reflexivity.
  - right. apply IH, Hget.
Qed.

Lemma get_unregistered name : forall bs,
  get name bs = None -> ~ In name (map fst bs).
Proof.
  induction bs as [|[k r] bs IH]; simpl; intros Hget; [tauto|].
  destruct (String.eqb_spec k name) as [-> | Hk]; [discriminate|].
  intros [Heq | Hin]; [contradiction | exact (IH Hget Hin)].
Qed.

Lemma get_stays name ref more : forall bs,
  get name bs = Some ref -> get name (bs ++ more) = Some ref.
Proof.
  induction bs as [|[k r] bs IH]; simpl; intros Hget; [discriminate|].
  destruct (String.eqb k name); [exact Hget | apply IH, Hget].
Qed.

Lemma get_appended name ref : forall bs,
  get name bs = None -> get name (bs ++ [(name, ref)]) = Some ref.
Proof.
  induction bs as [|[k r] bs IH]; simpl; intros Hget.
  - rewrite String.eqb_refl. reflexivity.
  - destruct (String.eqb k name); [discriminate | apply IH, Hget].
Qed.

Lemma get_after_command name ref c m :
  get name (bulkheads m) = Some ref ->
  get name (bulkheads (command m c)) = Some ref.
Proof.
  intros Hget. destruct c as [name' options | ref' turn]; simpl; [|exact Hget].
  unfold getBulkhead. destruct (get name' (bulkheads m)); simpl;
    [exact Hget | apply get_stays, Hget].
Qed.

Lemma get_after_commands name ref cs : forall m,
  get name (bulkheads m) = Some ref ->
  get name (bulkheads (commands cs m)) = Some ref.
Proof.
  induction cs as [|c cs IH]; intros m Hget; simpl; [exact Hget|].
  apply IH, get_after_command, Hget.
Qed.

(** X24.  The manager keeps one pool per name: [getBulkhead] registers
    the name when it is new, and from then on every call with that name,
    whatever options it passes and whatever was done with the manager in
    between, returns the same [Bulkhead] object without creating another
    one. *)
Theorem getBulkhead_keeps_the_first_pool m name options options' later :
  let ref := fst (getBulkhead name options m) in
  let m1 := snd (getBulkhead name options m) in
  let m2 := commands later m1 in
  get name (bulkheads m1) = Some ref /\
  getBulkhead name options' m1 = (ref, m1) /\
  getBulkhead name options' m2 = (ref, m2).
Proof.
  intros ref m1 m2.
  assert (Hget : get name (bulkheads m1) = Some ref).
  { unfold ref, m1, getBulkhead.
    destruct (get name (bulkheads m)) as [r|] eqn:Hm; simpl;
      [exact Hm | apply get_appended, Hm]. }
  split; [exact Hget|].
  split.
  - unfold getBulkhead at 1. rewrite Hget. reflexivity.
  - pose proof (get_after_commands name ref later m1 Hget) as Hlater.
    fold m2 in Hlater. unfold getBulkhead at 1. rewrite Hlater. reflexivity.
Qed.

Lemma turnAt_length turn : forall pools r,
  length (turnAt r turn pools) = length pools.
Proof.
  induction pools as [|s pools IH]; intros [|r]; simpl; auto.
Qed.

Lemma turnAt_elsewhere turn : forall pools r1 r2,
  r1 <> r2 -> nth_error (turnAt r1 turn pools) r2 = nth_error pools r2.
Proof.
  induction pools as [|s pools IH]; intros [|r1] [|r2] Hne; simpl;
    try reflexivity; [contradiction | apply IH; congruence].
Qed.

Lemma turnAt_there turn : forall pools r pool,
  nth_error pools r = Some pool ->
  nth_error (turnAt r turn pools) r = Some (step pool turn).
Proof.
  induction pools as [|s pools IH]; intros [|r] pool Hnth; simpl in *;
    try discriminate.
  - inversion Hnth. reflexivity.
  - apply IH, Hnth.
Qed.

Lemma managed_command m c : managed m -> managed (command m c).
Proof.
  unfold managed. intros [Hrefs Hkeys].
  destruct c as [name options | ref turn]; simpl.
  - unfold getBulkhead.
    destruct (get name (bulkheads m)) as [r|] eqn:Hget; simpl; [auto|].
    rewrite !map_app, !length_app, Hrefs. simpl.
    rewrite Nat.add_1_r, seq_S. simpl. split; [reflexivity|].
    apply BulkheadFacts.NoDup_snoc; [exact Hkeys|].
    apply get_unregistered, Hget.
  - rewrite turnAt_length. auto.
Qed.

Lemma managed_commands cs : forall m, managed m -> managed (commands cs m).
Proof.
  induction cs as [|c cs IH]; intros m Hm; simpl; [exact Hm|].
  apply IH, managed_command, Hm.
Qed.

Lemma one_name_per_ref {A B : Type} (l : list (A * B)) a b r :
  NoDup (map snd l) -> In (a, r) l -> In (b, r) l -> a = b.
Proof.
  induction l as [|[k v] l IH]; simpl; intros Hnd Ha Hb; [tauto|].
  inversion Hnd as [|? ? Hout Hrest]; subst.
  destruct Ha as [Ha | Ha], Hb as [Hb | Hb].
  - congruence.
  - inversion Ha; subst. destruct Hout.
    change r with (snd (b, r)). apply in_map, Hb.
  - inversion Hb; subst. destruct Hout.
    change r with (snd (a, r)). apply in_map, Ha.
  - apply IH; assumption.
Qed.

(** X25.  Pools of different names are different objects, so what
    happens in one pool leaves the others alone: in a manager built from
    [new BulkheadManager()] by any use, two different registered names have
    different [Bulkhead] objects, and a turn of the event loop on the first
    changes that pool alone; the pool of the second name and the map are
    as before. *)
Theorem pools_of_different_names_are_isolated cs name1 name2 ref1 ref2 turn :
  name1 <> name2 ->
  let m := commands cs newManager in
  get name1 (bulkheads m) = Some ref1 ->
  get name2 (bulkheads m) = Some ref2 ->
  let m' := command m (TurnAt ref1 turn) in
  ref1 <> ref2 /\
  (exists pool, nth_error (store m) ref1 = Some pool /\
                nth_error (store m') ref1 = Some (step pool turn)) /\
  nth_error (store m') ref2 = nth_error (store m) ref2 /\
  bulkheads m' = bulkheads m.
Proof.
  intros Hne m Hget1 Hget2 m'.
  destruct (managed_commands cs newManager) as [Hrefs Hkeys].
  { split; [reflexivity | constructor]. }
  fold m in Hrefs, Hkeys.
  apply get_registered in Hget1. apply get_registered in Hget2.
  assert (Hdiff : ref1 <> ref2).
  { intros ->. apply Hne.
    apply (one_name_per_ref (bulkheads m) name1 name2 ref2);
      [rewrite Hrefs; apply seq_NoDup | assumption | assumption]. }
  split; [exact Hdiff|].
  assert (Hin : In ref1 (seq 0 (length (store m)))).
  { rewrite <- Hrefs. change ref1 with (snd (name1, ref1)).
    apply in_map, Hget1. }
  apply in_seq in Hin.
  destruct (nth_error (store m) ref1) as [pool|] eqn:Hpool.
  - split; [|split; [apply turnAt_elsewhere, Hdiff | reflexivity]].
    exists pool. split; [reflexivity|].
    apply turnAt_there, Hpool.
  - apply nth_error_None in Hpool. lia.
Qed.

Lemma pools_of_different_names_are_isolated_witness :
  let m := commands service_pools newManager in
  let m' := command m (TurnAt 0 (Arrive "GetProduct-7" 1000)) in
  0%nat <> 1%nat /\
  (exists pool, nth_error (store m) 0 = Some pool /\
                nth_error (store m') 0 =
                Some (step pool (Arrive "GetProduct-7" 1000))) /\
  nth_error (store m') 1 = nth_error (store m) 1 /\
  bulkheads m' = bulkheads m.
Proof.
  apply (pools_of_different_names_are_isolated
           service_pools "product-service" "payment-service" 0 1
           (Arrive "GetProduct-7" 1000)).
  - discriminate.
  - reflexivity.
  - reflexivity.
Defined.

End BulkheadApiFacts.
